(** * Verification of the formula library of ProjectEuler (src/formula.py)

    The Python functions of [formula.py] are embedded as Rocq functions over
    [Z] (Python's unbounded [int]).  A raised exception is a value of
    [result]; a [while] loop that Python may run forever takes a fuel
    argument and answers [None] when the fuel is used up. *)

From Stdlib Require Import ZArith List Lia String Ascii Bool Znumtheory.
From Stdlib Require Import DecimalString.
From Stdlib Require ZmodInv.
From Stdlib Require PrimFloat SpecFloat FloatOps.
From Equations Require Import Equations.
Import ListNotations.

Local Open Scope Z_scope.

(** ** Python run-time model *)

Module Py.

(** The exceptions the embedded functions can raise. *)
Inductive exn : Type :=
| ValueError (msg : string)
| ZeroDivisionError
| IndexError
| UnboundLocalError
| OverflowError.

(** The exception class, which is what an [except] clause selects on. *)
Inductive exn_class : Type :=
| CValueError | CZeroDivisionError | CIndexError | CUnboundLocalError
| COverflowError.

Definition class_of (e : exn) : exn_class :=
  match e with
  | ValueError _ => CValueError
  | ZeroDivisionError => CZeroDivisionError
  | IndexError => CIndexError
  | UnboundLocalError => CUnboundLocalError
  | OverflowError => COverflowError
  end.

Inductive result (A : Type) : Type :=
| Ok (a : A)
| Raise (e : exn).
Arguments Ok {A} a.
Arguments Raise {A} e.

Definition bind {A B : Type} (m : result A) (k : A -> result B) : result B :=
  match m with
  | Ok a => k a
  | Raise e => Raise e
  end.

(** [a // b] and [a % b]: floor division, as [Z.div] and [Z.modulo], except
    that a zero divisor raises. *)
Definition floordiv (a b : Z) : result Z :=
  if b =? 0 then Raise ZeroDivisionError else Ok (a / b).

Definition pymod (a b : Z) : result Z :=
  if b =? 0 then Raise ZeroDivisionError else Ok (a mod b).

(** [range(lo, hi)] *)
Definition range (lo hi : Z) : list Z :=
  map (fun i => lo + Z.of_nat i) (seq 0 (Z.to_nat (hi - lo))).

(** A [for] loop whose body may raise. *)
Fixpoint for_each {S X : Type} (body : S -> X -> result S) (xs : list X) (s : S)
  : result S :=
  match xs with
  | [] => Ok s
  | x :: xs' => bind (body s x) (for_each body xs')
  end.

End Py.

Import Py.

Notation "x <- m ;; k" := (bind m (fun x => k))
  (at level 61, m at next level, right associativity).

(** ** [padic] and [max_subarray] *)

(** ['0123456789' + ''.join(map(chr, range(65, 92)))]: the ten digits, the
    letters A to Z and the character of code 91. *)
Definition base : string := "0123456789ABCDEFGHIJKLMNOPQRSTUVWXYZ[".

(** [s[i]] on a string: negative indices count from the end. *)
Definition str_index (s : string) (i : Z) : result ascii :=
  let len := Z.of_nat (String.length s) in
  let j := if i <? 0 then i + len else i in
  if (j <? 0) || (len <=? j) then Raise IndexError
  else match String.get (Z.to_nat j) s with
       | Some c => Ok c
       | None => Raise IndexError
       end.

(** [s[::-1]] *)
Definition str_rev (s : string) : string :=
  string_of_list_ascii (rev (list_ascii_of_string s)).

Definition is_decimal_digit (c : ascii) : bool :=
  let k := nat_of_ascii c in (48 <=? k)%nat && (k <=? 57)%nat.

Definition digit_value (c : ascii) : Z := Z.of_nat (nat_of_ascii c) - 48.

(** [int(s)] on a string over the alphabet [base]: the decimal value when
    [s] is a non-empty run of decimal digits, [ValueError] otherwise. *)
Definition int_of_str (s : string) : result Z :=
  let cs := list_ascii_of_string s in
  if negb (Nat.eqb (List.length cs) 0) && forallb is_decimal_digit cs
  then Ok (fold_left (fun acc c => 10 * acc + digit_value c) cs 0)
  else Raise (ValueError ("invalid literal for int() with base 10: '" ++ s ++ "'")).

(** What [padic] returns: a string, an integer, a list of one-character
    strings, or [None] for an unknown [ntype]. *)
Inductive padic_value : Type :=
| PStr (s : string)
| PInt (z : Z)
| PList (l : list string)
| PNone.

(** The [while True] loop of [padic]; it runs forever on a negative [n]. *)
Fixpoint padic_loop (fuel : nat) (n p : Z) (snp : string)
  : option (result string) :=
  if n =? 0 then Some (Ok snp)
  else match fuel with
       | O => None
       | S fuel' =>
           if p =? 0 then Some (Raise ZeroDivisionError)
           else match str_index base (n mod p) with
                | Ok c => padic_loop fuel' (n / p) p (snp ++ String c "")
                | Raise e => Some (Raise e)
                end
       end.

Definition padic (fuel : nat) (n p : Z) (ntype : string)
  : option (result padic_value) :=
  match padic_loop fuel n p "" with
  | None => None
  | Some (Raise e) => Some (Raise e)
  | Some (Ok snp0) =>
      let snp := str_rev snp0 in
      if String.eqb ntype "s" then Some (Ok (PStr snp))
      else if String.eqb ntype "n" then
        Some (z <- int_of_str snp ;; Ok (PInt z))
      else if String.eqb ntype "l" then
        Some (Ok (PList (map (fun c => String c "") (list_ascii_of_string snp))))
      else Some (Ok PNone)
  end.

(** One round of the scan of [max_subarray], on the pair
    [(max_so_far, max_ending_here)]. *)
Definition kadane_step (st : Z * Z) (x : Z) : Z * Z :=
  let '(max_so_far, max_ending_here) := st in
  let max_ending_here := Z.max 0 (max_ending_here + x) in
  let max_so_far := Z.max max_so_far max_ending_here in
  (max_so_far, max_ending_here).

Definition max_subarray (array : list Z) : Z :=
  fst (fold_left kadane_step array (0, 0)).

(** Sum of a list of integers. *)
Definition zsum (l : list Z) : Z := fold_right Z.add 0 l.

(** What the scan has established after reading the prefix [l]. *)
Definition kadane_inv (l : list Z) (st : Z * Z) : Prop :=
  let '(max_so_far, max_ending_here) := st in
  (forall pre suf, l = pre ++ suf -> zsum suf <= max_ending_here)
  /\ (exists pre suf, l = pre ++ suf /\ zsum suf = max_ending_here)
  /\ (forall pre seg post, l = pre ++ seg ++ post -> zsum seg <= max_so_far)
  /\ (exists pre seg post, l = pre ++ seg ++ post /\ zsum seg = max_so_far).

(** ** Modular arithmetic: [inv_mod], [fac_mod], [sum_power_series_mod] *)

(** The [while n != 0] loop of [inv_mod] on [(m, n, x0, x1)]; it returns the
    final [(m, x0)].  [|n|] decreases at every round. *)
Equations? inv_mod_loop (m n x0 x1 : Z) : Z * Z by wf (Z.abs_nat n) lt :=
  inv_mod_loop m n x0 x1 with Z.eq_dec n 0 => {
    | left _ := (m, x0);
    | right _ := inv_mod_loop n (m mod n) x1 (x0 - m / n * x1) }.
Proof.
  destruct (Z_lt_le_dec n 0).
  - pose proof (Z.mod_neg_bound m n). lia.
  - pose proof (Z.mod_pos_bound m n). lia.
Qed.

Definition inv_mod (n m : Z) : result Z :=
  n <- pymod n m ;;
  if (n =? 0) || (m <=? 0) then Ok 0
  else
    let m0 := m in
    let '(m, x0) := inv_mod_loop m n 0 1 in
    if m =? 1 then pymod x0 m0 else Ok 0.

Definition fac_mod (n m : Z) : result Z :=
  if n <? 0 then Raise (ValueError "n in n! must be positive!")
  else if (n =? 0) || (n =? 1) then Ok 1
  else for_each (fun output i => pymod (output * i) m) (range 2 (n + 1)) 1.

Definition sum_power_series_mod (i n m : Z) : result Z :=
  if i =? 0 then Ok n
  else if i =? 1 then
    n <- pymod n (2 * m) ;;
    pymod (Z.shiftr (n * (n + 1)) 1) m
  else if i =? 2 then
    n <- pymod n (6 * m) ;;
    let m3 := 3 * m in
    res <- pymod (Z.shiftr (n * (n + 1)) 1) m3 ;;
    t <- pymod (2 * n + 1) m3 ;;
    u <- pymod (res * t) m3 ;;
    floordiv u 3
  else if i =? 3 then
    n <- pymod n (2 * m) ;;
    res <- pymod (Z.shiftr (n * (n + 1)) 1) m ;;
    pymod (res * res) m
  else Ok 0.

(** The mathematical values the claims compare with: [n!] and
    [1^i + 2^i + ... + n^i]. *)
Definition zfact (n : Z) : Z := fold_right Z.mul 1 (range 1 (n + 1)).

Definition power_sum (i n : Z) : Z := zsum (map (fun k => k ^ i) (range 1 (n + 1))).

(** ** [iter_associate] *)

Section IterAssociateDef.

Context {A : Type} (f : A -> A -> A).

(** The [while n] loop on [(n, x, r)]; on a negative [n] the shift never
    reaches 0 and the loop does not end. *)
Fixpoint iter_associate_loop (fuel : nat) (n : Z) (x r : A) : option A :=
  if n =? 0 then Some r
  else match fuel with
       | O => None
       | S fuel' =>
           let r := if n mod 2 =? 0 then r else f x r in
           iter_associate_loop fuel' (Z.shiftr n 1) (f x x) r
       end.

Definition iter_associate (fuel : nat) (x : A) (n : Z) : option A :=
  iter_associate_loop fuel (n - 1) x x.

(** The left fold [f(f(...f(x, x)..., x), x)] of [k + 1] copies of [x]. *)
Definition left_power (x : A) (k : nat) : A := fold_left f (repeat x k) x.

(** The naive left fold with [n] copies of [x]. *)
Definition naive_iterate (x : A) (n : Z) : A := left_power x (Z.to_nat (n - 1)).

End IterAssociateDef.


(** ** Exact rationals: Python's [fractions.Fraction] *)

(** A [Fraction] is kept in lowest terms with a positive denominator. *)
Record Fraction : Type := mkFraction { numerator : Z; denominator : Z }.

(** The normalisation done by the constructor: divide by the gcd, carrying
    the sign of the denominator. *)
Definition normalize (n d : Z) : Fraction :=
  let g := Z.gcd n d in
  let g := if d <? 0 then - g else g in
  mkFraction (n / g) (d / g).

(** [Fraction(n, d)] on integers. *)
Definition Fraction_new (n d : Z) : result Fraction :=
  if d =? 0 then Raise ZeroDivisionError else Ok (normalize n d).

Definition Fraction_eqb (x y : Fraction) : bool :=
  (numerator x =? numerator y) && (denominator x =? denominator y).

(** ** Continued fractions *)

(** The [while p % q] loop of [rational_continous_frac] on
    [(p, q, cfrac)]; [|q|] decreases at every round. *)
Equations? rational_loop (p q : Z) (cfrac : list Z) : result (Z * Z * list Z)
  by wf (Z.abs_nat q) lt :=
  rational_loop p q cfrac with Z.eq_dec q 0 => {
    | left _ := Raise ZeroDivisionError;
    | right _ with Z.eq_dec (p mod q) 0 => {
        | left _ := Ok (p, q, cfrac);
        | right _ := rational_loop q (p mod q) (cfrac ++ [p / q]) } }.
Proof.
  destruct (Z_lt_le_dec q 0).
  - pose proof (Z.mod_neg_bound p q). lia.
  - pose proof (Z.mod_pos_bound p q). lia.
Qed.

Definition rational_continous_frac (p q : Z) : result (list Z) :=
  st <- rational_loop p q [] ;;
  let '(p, q, cfrac) := st in
  Ok (if q =? 0 then cfrac else cfrac ++ [p]).

(** The variables of the loop of [continous_frac_convergent]. *)
Record cvg_state : Type := mkCvg {
  cs_p0 : Z; cs_p1 : Z; cs_q0 : Z; cs_q1 : Z; cs_cvg : list Fraction
}.

Definition cvg_body (st : cvg_state) (a : Z) : result cvg_state :=
  let p0 := cs_p1 st in
  let p1 := a * cs_p1 st + cs_p0 st in
  let q0 := cs_q1 st in
  let q1 := a * cs_q1 st + cs_q0 st in
  fr <- Fraction_new p1 q1 ;;
  Ok (mkCvg p0 p1 q0 q1 (cs_cvg st ++ [fr])).

Definition continous_frac_convergent (cfrac : list Z) : result (list Fraction) :=
  match cfrac with
  | a0 :: a1 :: rest =>
      let p0 := a0 in
      let p1 := a0 * a1 + 1 in
      let q0 := 1 in
      let q1 := a1 in
      f0 <- Fraction_new p0 q0 ;;
      f1 <- Fraction_new p1 q1 ;;
      st <- for_each cvg_body rest (mkCvg p0 p1 q0 q1 [f0; f1]) ;;
      Ok (cs_cvg st)
  | _ => Raise (ValueError "Continued fraction must longer than 2!")
  end.

(** The value [a0 + 1/(a1 + 1/(... + 1/ak))] of a finite continued
    fraction, as a pair (numerator, denominator) built from the last term
    backwards; the empty one stands for 1/0. *)
Fixpoint cf_value (l : list Z) : Z * Z :=
  match l with
  | [] => (1, 0)
  | a :: l' => let '(n, d) := cf_value l' in (a * n + d, n)
  end.

(** The numerators and denominators the loop of
    [continous_frac_convergent] goes through, before normalisation. *)
Fixpoint cvg_pairs (rest : list Z) (p0 p1 q0 q1 : Z) : list (Z * Z) :=
  match rest with
  | [] => []
  | a :: rest' =>
      let p2 := a * p1 + p0 in
      let q2 := a * q1 + q0 in
      (p2, q2) :: cvg_pairs rest' p1 p2 q1 q2
  end.


(** A pair (numerator, denominator) already in lowest terms, as a
    [Fraction]. *)
Definition frac_of_pair (pq : Z * Z) : Fraction := mkFraction (fst pq) (snd pq).

(** Arithmetic of [Fraction]: every result goes through the constructor,
    and so is normalised. *)
Definition fr_of_Z (z : Z) : Fraction := mkFraction z 1.

Definition fr_sub (x y : Fraction) : Fraction :=
  normalize (numerator x * denominator y - numerator y * denominator x)
            (denominator x * denominator y).

Definition fr_mul (x y : Fraction) : Fraction :=
  normalize (numerator x * numerator y) (denominator x * denominator y).

(** [Fraction(x, y)] on two rationals: [x / y], raising on [y = 0]. *)
Definition fr_div (x y : Fraction) : result Fraction :=
  Fraction_new (numerator x * denominator y) (denominator x * numerator y).

(** [pairspq.index(x)], with [None] when [x in pairspq] is false. *)
Fixpoint index_of (x : Fraction * Fraction) (l : list (Fraction * Fraction))
  : option nat :=
  match l with
  | [] => None
  | y :: l' =>
      if Fraction_eqb (fst x) (fst y) && Fraction_eqb (snd x) (snd y)
      then Some 0%nat
      else option_map S (index_of x l')
  end.

(** [str(limit)] in decimal, as ['{0:d}'.format(limit)] prints it. *)
Definition decimal (z : Z) : string := NilZero.string_of_int (Z.to_int z).

(** *** Floating point

    [irrational_continous_frac] goes through Python's [float] for the
    square root and for every partial quotient.  The operations it uses
    form an interface, and every one of them may raise; [binary64] below
    implements the interface with IEEE 754 double precision, which is what
    CPython's [float] is. *)
Record PyFloat : Type := mkPyFloat {
  pyfloat : Type;
  float_of_int : Z -> result pyfloat;
  float_of_Fraction : Fraction -> result pyfloat;
  math_sqrt : pyfloat -> result pyfloat;
  float_add : pyfloat -> pyfloat -> pyfloat;
  float_truediv : pyfloat -> pyfloat -> result pyfloat;
  int_of_float : pyfloat -> result Z
}.

(** [n / d] on two [int]s: the quotient rounded to the nearest double, ties
    to even, with gradual underflow; a quotient that rounds to [2^1024] or
    beyond raises [OverflowError].  [e] is the binary exponent of the exact
    quotient and [2^u] the spacing of the doubles around it. *)
Definition true_divide (n d : Z) : result PrimFloat.float :=
  if d =? 0 then Raise ZeroDivisionError
  else
    let negate := xorb (n <? 0) (d <? 0) in
    let a := Z.abs n in
    let b := Z.abs d in
    if a =? 0 then Ok (if negate then PrimFloat.neg_zero else PrimFloat.zero)
    else
      let e0 := Z.log2 a - Z.log2 b in
      let e := if b * 2 ^ Z.max 0 e0 <=? a * 2 ^ Z.max 0 (- e0)
               then e0 else e0 - 1 in
      let u := Z.max e (-1022) - 52 in
      let num := a * 2 ^ Z.max 0 (- u) in
      let den := b * 2 ^ Z.max 0 u in
      let q := num / den in
      let r := num mod den in
      let m := if (den <? 2 * r) || ((den =? 2 * r) && Z.odd q)
               then q + 1 else q in
      if 2 ^ 1024 <=? m * 2 ^ Z.max 0 u then Raise OverflowError
      else if m =? 0
      then Ok (if negate then PrimFloat.neg_zero else PrimFloat.zero)
      else Ok (FloatOps.SF2Prim (SpecFloat.S754_finite negate (Z.to_pos m) u)).

(** [int(x)] on a [float]: truncation towards zero. *)
Definition b64_int (x : PrimFloat.float) : result Z :=
  match FloatOps.Prim2SF x with
  | SpecFloat.S754_zero _ => Ok 0
  | SpecFloat.S754_infinity _ => Raise OverflowError
  | SpecFloat.S754_nan =>
      Raise (ValueError "cannot convert float NaN to integer")
  | SpecFloat.S754_finite s m e =>
      let v := if 0 <=? e then Z.pos m * 2 ^ e else Z.pos m / 2 ^ (- e) in
      Ok (if s then - v else v)
  end.

(** [math.sqrt(x)] on a [float] *)
Definition b64_sqrt (x : PrimFloat.float) : result PrimFloat.float :=
  if PrimFloat.ltb x PrimFloat.zero
  then Raise (ValueError "math domain error")
  else Ok (PrimFloat.sqrt x).

(** [x / y] on two [float]s *)
Definition b64_truediv (x y : PrimFloat.float) : result PrimFloat.float :=
  if PrimFloat.eqb y PrimFloat.zero then Raise ZeroDivisionError
  else Ok (PrimFloat.div x y).

(** CPython's [float].  [float(n)] of an [int] is the correctly rounded
    value, which is [n / 1]. *)
Definition binary64 : PyFloat := {|
  pyfloat := PrimFloat.float;
  float_of_int := fun n => true_divide n 1;
  float_of_Fraction := fun f => true_divide (numerator f) (denominator f);
  math_sqrt := b64_sqrt;
  float_add := PrimFloat.add;
  float_truediv := b64_truediv;
  int_of_float := b64_int
|}.

Section IrrationalDef.

Variable fl : PyFloat.

(** [sqrt(d)] with [d] an [int]: [math.sqrt] converts its argument to a
    [float] first. *)
Definition sqrt_int (d : Z) : result (pyfloat fl) :=
  x <- float_of_int fl d ;;
  math_sqrt fl x.

(** [int((p + sd) / q)] with [p] and [q] of type [int], as before the
    loop: both are converted to [float]. *)
Definition quotient_int (sd : pyfloat fl) (p q : Z) : result Z :=
  fp <- float_of_int fl p ;;
  fq <- float_of_int fl q ;;
  r <- float_truediv fl (float_add fl fp sd) fq ;;
  int_of_float fl r.

(** [int((p + sd) / q)] with [p] and [q] of type [Fraction], as inside the
    loop: [Fraction.__add__] and [Fraction.__rtruediv__] fall back to
    [float(p) + sd] and [x / float(q)]. *)
Definition quotient (sd : pyfloat fl) (p q : Fraction) : result Z :=
  fp <- float_of_Fraction fl p ;;
  fq <- float_of_Fraction fl q ;;
  r <- float_truediv fl (float_add fl fp sd) fq ;;
  int_of_float fl r.

(** The [for _ in range(limit)] loop of [irrational_continous_frac], with
    [k] rounds left; [Some] is the [return] inside the loop, [None] is
    falling out of it. *)
Fixpoint irrational_loop (k : nat) (d : Z) (sd : pyfloat fl)
    (p q : Fraction) (a : Z)
    (repetend : list Z) (pairspq : list (Fraction * Fraction))
  : result (option (list Z * list Z)) :=
  match k with
  | O => Ok None
  | S k' =>
      p <- fr_div (fr_sub (fr_mul (fr_of_Z a) q) p) (fr_of_Z 1) ;;
      q <- fr_div (fr_sub (fr_of_Z d) (fr_mul p p)) q ;;
      a <- quotient sd p q ;;
      match index_of (p, q) pairspq with
      | Some i =>
          Ok (Some (firstn (i + 1) repetend, skipn (i + 1) repetend))
      | None =>
          irrational_loop k' d sd p q a (repetend ++ [a]) (pairspq ++ [(p, q)])
      end
  end.

(** The result [(a0, ..., ai, (ai+1, ..., an))] is the pair of the
    non-repeating terms and the period. *)
Definition irrational_continous_frac (d p q limit : Z)
  : result (list Z * list Z) :=
  sd <- sqrt_int d ;;
  isd <- int_of_float fl sd ;;
  if isd * isd =? d then Raise (ValueError "D is perfect square!")
  else
    a <- quotient_int sd p q ;;
    r <- irrational_loop (Z.to_nat limit) d sd (fr_of_Z p) (fr_of_Z q) a [a] [] ;;
    match r with
    | Some t => Ok t
    | None =>
        Raise (ValueError ("Repetend is longer than " ++ decimal limit
                           ++ ", please try higher limit!"))
    end.

(** The recurrence alone: the pairs [(p, q)] and the terms [a] of the first
    [k] rounds, with no look-up of the pairs seen before. *)
Fixpoint orbit (k : nat) (d : Z) (sd : pyfloat fl) (p q : Fraction) (a : Z)
  : result (list (Fraction * Fraction * Z)) :=
  match k with
  | O => Ok []
  | S k' =>
      p <- fr_div (fr_sub (fr_mul (fr_of_Z a) q) p) (fr_of_Z 1) ;;
      q <- fr_div (fr_sub (fr_of_Z d) (fr_mul p p)) q ;;
      a <- quotient sd p q ;;
      rest <- orbit k' d sd p q a ;;
      Ok ((p, q, a) :: rest)
  end.

End IrrationalDef.

(** Whether the test [int(sd) * int(sd) == d] of [irrational_continous_frac]
    finds the square [d = r * r], in double precision. *)
Definition square_found (r : Z) : bool :=
  match sqrt_int binary64 (r * r) with
  | Ok sd =>
      match int_of_float binary64 sd with
      | Ok isd => isd * isd =? r * r
      | Raise _ => false
      end
  | Raise _ => false
  end.

(** ** [sum_floor] *)

(** [gmpy2.isqrt]: the exact integer square root, refused on a negative
    argument. *)
Definition isqrt (n : Z) : result Z :=
  if n <? 0 then Raise (ValueError "isqrt() of negative number")
  else Ok (Z.sqrt n).

(** The variables the loops of [sum_floor] update; [sf_x] is the loop
    variable, unbound until the first round. *)
Record sf_state : Type := mkSf {
  sf_x : option Z; sf_a0 : Z; sf_a1 : Z; sf_res : Z
}.

(** Body of the loop of the first regime: [res += n // x]. *)
Definition sf_direct_body (n : Z) (res x : Z) : result Z :=
  t <- floordiv n x ;; Ok (res + t).

(** Body of the loop of the second regime ([xmin >= nrt]). *)
Definition sf_inverted_body (n xmin xmax : Z) (st : sf_state) (x : Z)
  : result sf_state :=
  let a0 := sf_a1 st in
  a1 <- floordiv n (x + 1) ;;
  let ub := if a0 <? xmax then a0 else xmax in
  let lb := if xmin - 1 <=? a1 then a1 else xmin - 1 in
  Ok (mkSf (Some x) a0 a1 (sf_res st + (ub - lb) * x)).

(** Body of the loop of the third regime (the range straddles [nrt]). *)
Definition sf_straddle_body (n xmin xmax : Z) (st : sf_state) (x : Z)
  : result sf_state :=
  let a0 := sf_a1 st in
  a1 <- floordiv n (x + 1) ;;
  let res := sf_res st in
  let res := if xmin <=? x then res + a0 else res in
  let res :=
    if a1 <? xmax then
      let ub := if a0 <? xmax then a0 else xmax in
      res + (ub - a1) * x
    else res in
  Ok (mkSf (Some x) a0 a1 res).

Definition sum_floor (n xmin xmax : Z) : result Z :=
  nrt <- isqrt n ;;
  let res := 0 in
  if n <? xmin then Ok 0
  else
    let xmax := if n <? xmax then n else xmax in
    if xmax <=? nrt then
      for_each (sf_direct_body n) (range xmin (xmax + 1)) res
    else if nrt <=? xmin then
      real_xmin <- floordiv n xmax ;;
      real_xmax <- floordiv n xmin ;;
      let a0 := 0 in
      a1 <- floordiv n real_xmin ;;
      st <- for_each (sf_inverted_body n xmin xmax)
                     (range real_xmin (real_xmax + 1))
                     (mkSf None a0 a1 res) ;;
      Ok (sf_res st)
    else
      real_xmin <- floordiv n xmax ;;
      let real_xmin := if xmin <? real_xmin then xmin else real_xmin in
      let a0 := 0 in
      a1 <- floordiv n real_xmin ;;
      st <- for_each (sf_straddle_body n xmin xmax)
                     (range real_xmin (nrt + 1))
                     (mkSf None a0 a1 res) ;;
      match sf_x st with
      | None => Raise UnboundLocalError
      | Some x =>
          t <- floordiv n x ;;
          Ok (if x =? t then sf_res st - x else sf_res st)
      end.

(** The naive summation of [n // x] for [x] from [xmin] to [xmax]. *)
Definition naive_sum_floor (n xmin xmax : Z) : Z :=
  zsum (map (fun x => n / x) (range xmin (xmax + 1))).

(** How many [t] of the list [ts] have [g t = x]. *)
Definition count_value (g : Z -> Z) (ts : list Z) (x : Z) : Z :=
  Z.of_nat (List.length (filter (fun t => g t =? x) ts)).


(** ** The other functions of [formula.py] *)

(** [_factorial], the fall-back for [fac]. *)
Definition _factorial (n : Z) : result Z :=
  if n <? 0 then Raise (ValueError "n in n! must be positive!")
  else if (n =? 0) || (n =? 1) then Ok 1
  else Ok (fold_left (fun output i => output * i) (range 2 (n + 1)) 1).

(** [cprod]: the product of a sequence, 1 on the empty one. *)
Definition cprod (seq : list Z) : Z :=
  fold_left (fun output i => output * i) seq 1.

(** The [for n in seq[:-2]] loop of [ggcd], which returns 1 as soon as the
    running gcd is 1. *)
Fixpoint ggcd_loop (g : Z) (l : list Z) : Z :=
  match l with
  | [] => g
  | n :: l' =>
      let g := Z.gcd g n in
      if g =? 1 then 1 else ggcd_loop g l'
  end.

(** [ggcd], with [math.gcd] as [Z.gcd]; [seq[-2]] and [seq[-1]] are read
    from the reversed list. *)
Definition ggcd (seq : list Z) : result Z :=
  match rev seq with
  | [] | [_] => Raise (ValueError "There should be at least 2 integers!")
  | [s1; s0] => Ok (Z.gcd s0 s1)
  | last :: before_last :: front =>
      let g := Z.gcd before_last last in
      if g =? 1 then Ok g else Ok (ggcd_loop g (rev front))
  end.

(** The fall-back [_sum_mod]: the [takewhile] over [count(1)] is a loop on
    [i] that is given fuel; it keeps the last [i] that passed the test. *)
Fixpoint sum_mod_loop (fuel : nat) (n x i sm : Z) : option (result (Z * Z)) :=
  match fuel with
  | O => None
  | S fuel' =>
      match (q0 <- floordiv n x ;; q1 <- floordiv n (x + 1) ;; Ok (4 <? q0 - q1)) with
      | Raise e => Some (Raise e)
      | Ok false => Some (Ok (i, sm))
      | Ok true =>
          let i := x in
          match (q1 <- floordiv n (i + 1) ;;
                 a <- pymod n (q1 + 1) ;;
                 b <- (if 1 <? i then (q0 <- floordiv n i ;; pymod n q0) else Ok 1) ;;
                 t <- floordiv (a - b) i ;;
                 let c := t + 1 in
                 h <- floordiv (i * (c - 1) * c) 2 ;;
                 Ok (sm + (b * c + h))) with
          | Raise e => Some (Raise e)
          | Ok sm' => sum_mod_loop fuel' n (x + 1) i sm'
          end
      end
  end.

Definition _sum_mod (fuel : nat) (n : Z) : option (result Z) :=
  match sum_mod_loop fuel n 1 0 0 with
  | None => None
  | Some (Raise e) => Some (Raise e)
  | Some (Ok (i, sm)) =>
      Some (q <- floordiv n (i + 1) ;;
            tail <- for_each (fun acc j => r <- pymod n j ;; Ok (acc + r))
                             (range 2 (q + 1)) 0 ;;
            Ok (sm + tail))
  end.

(** The sum [n % 2 + n % 3 + ... + n % (n - 1)] of the docstring. *)
Definition naive_sum_mod (n : Z) : Z :=
  zsum (map (fun j => n mod j) (range 2 n)).

Section LegendreDef.

(** [pow(b, e, m)] with a negative exponent depends on the Python version
    (an error, or a modular inverse): it is left as a parameter. *)
Variable pow_negative : Z -> Z -> Z -> result Z.

(** The built-in [pow(b, e, m)] for a non-zero modulus. *)
Definition pow3 (b e m : Z) : result Z :=
  if m =? 0 then Raise (ValueError "pow() 3rd argument cannot be 0")
  else if e <? 0 then pow_negative b e m
  else Ok (b ^ e mod m).

Definition legendre_symbol (a p : Z) : result Z :=
  if p =? 2 then Ok 1
  else
    r <- pymod a p ;;
    if r =? 0 then Ok 1
    else
      ls <- pow3 r (Z.shiftr (p - 1) 1) p ;;
      if ls =? p - 1 then Ok (-1) else Ok ls.

End LegendreDef.

(** ** Tree generators *)

Definition triple : Type := (Z * Z * Z)%type.

(** What [pythag_triple_tree] returns: the three children, or the parent. *)
Inductive pythag_value : Type :=
| Children (t1 t2 t3 : triple)
| Parent (t : triple).

Definition triple_eqb (s t : triple) : bool :=
  let '(a, b, c) := s in
  let '(a', b', c') := t in
  (a =? a') && (b =? b') && (c =? c').

Definition pythag_triple_tree (t : triple) (forward trust : bool)
  : result pythag_value :=
  let '(a, b, c) := t in
  check <-
    (if negb trust then
       if negb (a ^ 2 + b ^ 2 =? c ^ 2)
       then Raise (ValueError "Invalid Primitive Pythagorean Triple")
       else if negb (Z.gcd a b * Z.gcd a c * Z.gcd b c =? 1)
       then Raise (ValueError "Invalid Primitive Pythagorean Triple")
       else Ok tt
     else Ok tt) ;;
  if forward then
    Ok (Children (a - 2 * b + 2 * c, 2 * a - b + 2 * c, 2 * a - 2 * b + 3 * c)
                 (a + 2 * b + 2 * c, 2 * a + b + 2 * c, 2 * a + 2 * b + 3 * c)
                 (- a + 2 * b + 2 * c, - 2 * a + b + 2 * c, - 2 * a + 2 * b + 3 * c))
  else if triple_eqb t (3, 4, 5) then Ok (Parent t)
  else Ok (Parent (Z.abs (- a - 2 * b + 2 * c), Z.abs (- 2 * a - b + 2 * c),
                   - 2 * a - 2 * b + 3 * c)).

Definition co_prime_tree (pair : Z * Z) (trust : bool) : result (list (Z * Z)) :=
  let '(a, b) := pair in
  if (a =? 0) && (b =? 0) then Ok [(2, 1); (3, 1)]
  else
    check <-
      (if negb trust then
         if negb (Z.gcd a b =? 1) then Raise (ValueError "Invalid co-prime pair!")
         else Ok tt
       else Ok tt) ;;
    Ok [(2 * a - b, a); (2 * a + b, a); (a + 2 * b, b)].

(** [sbt[i]] on the deque, for an index [i >= 0]. *)
Definition deque_get (sbt : list Z) (i : nat) : result Z :=
  match nth_error sbt i with
  | Some v => Ok v
  | None => Raise IndexError
  end.

(** One round of the [while True] loop of [stern_brocot_tree]: the two
    [+=], then the two [popleft] of the [yield]. *)
Definition stern_brocot_step (sbt : list Z) : result ((Z * Z) * list Z) :=
  s0 <- deque_get sbt 0 ;;
  s1 <- deque_get sbt 1 ;;
  let sbt := sbt ++ [s0 + s1; s1] in
  s1 <- deque_get sbt 1 ;;
  s2 <- deque_get sbt 2 ;;
  let sbt := sbt ++ [s1 + s2; s2] in
  match sbt with
  | x :: y :: rest => Ok ((x, y), rest)
  | _ => Raise IndexError
  end.

(** The first [k] pairs the generator yields, and the deque left. *)
Fixpoint stern_brocot_run (k : nat) (sbt : list Z)
  : result (list (Z * Z) * list Z) :=
  match k with
  | O => Ok ([], sbt)
  | S k' =>
      st <- stern_brocot_step sbt ;;
      let '(yielded, sbt') := st in
      r <- stern_brocot_run k' sbt' ;;
      let '(pairs, final) := r in
      Ok (yielded :: pairs, final)
  end.

Definition stern_brocot_tree (k : nat) : result (list (Z * Z)) :=
  r <- stern_brocot_run k [1; 1] ;; Ok (fst r).

(** ** Reading back the digits of [padic] *)

(** The position of a character in [base], the value of that digit. *)
Fixpoint index_in (c : ascii) (s : string) : option Z :=
  match s with
  | EmptyString => None
  | String c' s' =>
      if Ascii.eqb c c' then Some 0
      else option_map Z.succ (index_in c s')
  end.

(** The number a string of digits of [base] denotes in base [p], most
    significant digit first. *)
Fixpoint digits_value (p : Z) (acc : Z) (s : string) : option Z :=
  match s with
  | EmptyString => Some acc
  | String c s' =>
      match index_in c base with
      | Some v => digits_value p (p * acc + v) s'
      | None => None
      end
  end.


(** Consecutive elements of a deque are positive and coprime. *)
Fixpoint coprime_chain (l : list Z) : Prop :=
  match l with
  | [] => True
  | x :: l' =>
      0 < x
      /\ match l' with
         | [] => True
         | y :: _ => Z.gcd x y = 1
         end
      /\ coprime_chain l'
  end.

(** What the loop of [stern_brocot_tree] keeps true of its deque: it starts
    and ends with the same number and is a chain of coprime neighbours. *)
Definition stern_brocot_inv (sbt : list Z) : Prop :=
  exists x0 l, sbt = x0 :: l ++ [x0] /\ coprime_chain sbt.


(** The number of positive divisors of [k]. *)
Definition divisor_count (k : Z) : Z :=
  Z.of_nat (List.length (filter (fun d => k mod d =? 0) (range 1 (k + 1)))).


(** ** Theorems *)

Section MaxSubarray.

Lemma zsum_app l1 l2 : zsum (l1 ++ l2) = zsum l1 + zsum l2.
Proof. induction l1 as [|a l1 IH]; simpl; lia. Qed.

(** A contiguous subrange that reaches the end of [l ++ [x]] is empty or
    extends a subrange reaching the end of [l]; any other one lies in [l]. *)
Lemma segment_snoc (pre seg post l : list Z) (x : Z) :
  l ++ [x] = pre ++ seg ++ post ->
  (post = [] /\ (seg = [] \/ exists seg', seg = seg' ++ [x] /\ l = pre ++ seg'))
  \/ (exists post', post = post' ++ [x] /\ l = pre ++ seg ++ post').
Proof.
  intros H. symmetry in H.
  destruct post as [|y post' _] using rev_ind.
  - left. split; [reflexivity|].
    rewrite app_nil_r in H.
    destruct seg as [|s seg' _] using rev_ind; [now left | right].
    exists seg'. rewrite app_assoc in H.
    apply app_inj_tail in H. destruct H as [H1 H2]. subst. auto.
  - right. exists post'. rewrite !app_assoc in H. apply app_inj_tail in H.
    destruct H as [H1 H2]. subst. rewrite <- app_assoc. auto.
Qed.

Lemma kadane_inv_nil : kadane_inv [] (0, 0).
Proof.
  unfold kadane_inv. repeat split.
  - intros pre suf H. symmetry in H. apply app_eq_nil in H.
    destruct H as [_ ->]. simpl. lia.
  - exists [], []. auto.
  - intros pre seg post H. symmetry in H. apply app_eq_nil in H.
    destruct H as [_ H]. apply app_eq_nil in H. destruct H as [-> _].
    simpl. lia.
  - exists [], [], []. auto.
Qed.

Lemma kadane_inv_step l st x :
  kadane_inv l st -> kadane_inv (l ++ [x]) (kadane_step st x).
Proof.
  destruct st as [msf meh]. unfold kadane_inv, kadane_step.
  intros (Hsuf & (pre0 & suf0 & Hl0 & Hs0) & Hseg & (pre1 & seg1 & post1 & Hl1 & Hs1)).
  assert (Hsuf' : forall pre suf, l ++ [x] = pre ++ suf ->
                  zsum suf <= Z.max 0 (meh + x)).
  { intros pre suf H.
    destruct (segment_snoc pre suf [] l x) as [[_ [-> | (s' & -> & Hl)]] | (post' & Hp & _)];
      [rewrite app_nil_r; exact H | | | ].
    - simpl. lia.
    - rewrite zsum_app. simpl. specialize (Hsuf _ _ Hl). lia.
    - destruct post'; discriminate. }
  repeat split.
  - exact Hsuf'.
  - destruct (Z.max_spec 0 (meh + x)) as [[_ ->] | [_ ->]].
    + exists pre0, (suf0 ++ [x]). rewrite app_assoc, <- Hl0.
      split; [reflexivity|]. rewrite zsum_app. simpl. lia.
    + exists (l ++ [x]), []. rewrite app_nil_r. auto.
  - intros pre seg post H.
    destruct (segment_snoc pre seg post l x H) as [[-> Hc] | (post' & -> & Hl)].
    + rewrite app_nil_r in H. specialize (Hsuf' _ _ H). lia.
    + specialize (Hseg _ _ _ Hl). lia.
  - destruct (Z.max_spec msf (Z.max 0 (meh + x))) as [[_ ->] | [_ ->]].
    + destruct (Z.max_spec 0 (meh + x)) as [[_ ->] | [_ ->]].
      * exists pre0, (suf0 ++ [x]), []. rewrite app_nil_r, app_assoc, <- Hl0.
        split; [reflexivity|]. rewrite zsum_app. simpl. lia.
      * exists (l ++ [x]), [], []. rewrite app_nil_r. auto.
    + exists pre1, seg1, (post1 ++ [x]).
      split; [|exact Hs1]. rewrite Hl1, <- !app_assoc. reflexivity.
Qed.

Lemma kadane_inv_scan l : kadane_inv l (fold_left kadane_step l (0, 0)).
Proof.
  induction l as [|x l IH] using rev_ind.
  - apply kadane_inv_nil.
  - rewrite fold_left_app. simpl. apply kadane_inv_step, IH.
Qed.

(** C9, as amended: [max_subarray] returns the largest sum of a contiguous
    subrange of the array, the empty subrange included: some subrange has
    that sum, no subrange has a larger one, and the result is never
    negative.  On the three arrays of the specification it returns 0, 0
    and 5. *)
Theorem max_subarray_spec :
  (forall array : list Z,
      (exists pre seg post, array = pre ++ seg ++ post
                            /\ zsum seg = max_subarray array)
      /\ (forall pre seg post, array = pre ++ seg ++ post ->
                               zsum seg <= max_subarray array)
      /\ 0 <= max_subarray array)
  /\ max_subarray [] = 0
  /\ max_subarray [-1; -2; -3] = 0
  /\ max_subarray [2; -1; 3; -4; 5] = 5.
Proof.
  split; [|repeat apply conj; vm_compute; reflexivity].
  intros array. pose proof (kadane_inv_scan array) as H.
  unfold max_subarray. destruct (fold_left kadane_step array (0, 0)) as [msf meh].
  destruct H as (_ & _ & Hub & Hex). simpl. repeat split.
  - exact Hex.
  - exact Hub.
  - apply (Hub array [] []). rewrite app_nil_r. reflexivity.
Qed.

(** C9, as stated, fails on its third example: the scan of
    [[2; -1; 3; -4; 5]] ends with 5 (the subrange [[5]], or the whole array),
    and no contiguous subrange of that array sums to 6. *)
Lemma max_subarray_example_not_6 : max_subarray [2; -1; 3; -4; 5] <> 6.
Proof. vm_compute. discriminate. Qed.

End MaxSubarray.

Section Padic.

(** C10: on the input [n = 0] the loop of [padic] does not run, so no digit
    is produced: mode ['s'] gives the empty string, mode ['l'] the empty
    list, and mode ['n'] raises, because [int('')] is a [ValueError]. *)
Theorem padic_zero (p : Z) (fuel : nat) :
  2 <= p ->
  padic fuel 0 p "s" = Some (Ok (PStr ""))
  /\ padic fuel 0 p "l" = Some (Ok (PList []))
  /\ padic fuel 0 p "n"
     = Some (Raise (ValueError "invalid literal for int() with base 10: ''")).
Proof.
  intros _. destruct fuel; repeat apply conj; reflexivity.
Qed.

Lemma padic_zero_witness :
  2 <= 7
  /\ padic 0 0 7 "s" = Some (Ok (PStr ""))
  /\ padic 0 0 7 "l" = Some (Ok (PList []))
  /\ padic 0 0 7 "n"
     = Some (Raise (ValueError "invalid literal for int() with base 10: ''")).
Proof.
  split; [lia | apply (padic_zero 7 0); lia].
Defined.

(** The digits come out most significant first on other inputs. *)
Example padic_255_16 : padic 8 255 16 "s" = Some (Ok (PStr "FF")).
Proof. reflexivity. Qed.

Example padic_10_2_n : padic 8 10 2 "n" = Some (Ok (PInt 1010)).
Proof. reflexivity. Qed.

End Padic.

Section InvMod.

(** The loop of [inv_mod] keeps [x0 * N = m] and [x1 * N = n] modulo [M]
    and ends with the greatest common divisor in [m]. *)
Lemma inv_mod_loop_spec (N M m n x0 x1 : Z) :
  0 <= m -> 0 <= n ->
  (x0 * N) mod M = m mod M ->
  (x1 * N) mod M = n mod M ->
  fst (inv_mod_loop m n x0 x1) = Z.gcd m n
  /\ (snd (inv_mod_loop m n x0 x1) * N) mod M = Z.gcd m n mod M.
Proof.
  funelim (inv_mod_loop m n x0 x1); intros Hm Hn H0 H1.
  - subst n. simpl. rewrite Z.gcd_0_r, Z.abs_eq by lia. auto.
  - assert (Hr : 0 <= m mod n < n) by (apply Z.mod_pos_bound; lia).
    assert (Hg : Z.gcd n (m mod n) = Z.gcd m n).
    { rewrite (Z.gcd_comm n), Z.gcd_mod by lia. apply Z.gcd_comm. }
    rewrite <- Hg. apply H; try lia.
    replace ((x0 - m / n * x1) * N) with (x0 * N - m / n * (x1 * N)) by ring.
    rewrite Zminus_mod, H0, <- (Zmult_mod_idemp_r (x1 * N)), H1.
    rewrite Zmult_mod_idemp_r, <- Zminus_mod.
    f_equal. rewrite Z.mod_eq by lia. ring.
Qed.

(** C5: for a modulus [m > 0], [inv_mod n m] returns a value [v] in
    [0 <= v < m] with [n * v = 1] modulo [m] when [gcd n m = 1], whatever
    the sign or size of [n], and returns 0 when [gcd n m <> 1]; and
    [inv_mod 3 7 = 5], [inv_mod 2 4 = 0]. *)
Theorem inv_mod_spec (n m : Z) :
  0 < m ->
  (exists v, inv_mod n m = Ok v
     /\ 0 <= v < m
     /\ (Z.gcd n m = 1 -> (n * v) mod m = 1 mod m)
     /\ (Z.gcd n m <> 1 -> v = 0))
  /\ inv_mod 3 7 = Ok 5
  /\ inv_mod 2 4 = Ok 0.
Proof.
  intros Hm. split; [|split; vm_compute; reflexivity].
  unfold inv_mod, pymod.
  destruct (Z.eqb_spec m 0) as [?|_]; [lia|]. simpl.
  assert (Hr : 0 <= n mod m < m) by (apply Z.mod_pos_bound; lia).
  assert (Hg : Z.gcd (n mod m) m = Z.gcd n m).
  { rewrite Z.gcd_mod by lia. apply Z.gcd_comm. }
  destruct (Z.eqb_spec (n mod m) 0) as [Hz|Hz]; simpl.
  - exists 0. split; [reflexivity|]. split; [lia|]. split; [|reflexivity].
    intros H1. rewrite Hz, Z.gcd_0_l in Hg.
    assert (m = 1) by lia. subst m. rewrite !Z.mod_1_r. reflexivity.
  - destruct (Z.leb_spec m 0) as [?|_]; [lia|].
    destruct (inv_mod_loop_spec (n mod m) m m (n mod m) 0 1) as [Hf Hs];
      try lia.
    { rewrite Z.mul_0_l, Z.mod_0_l, Z.mod_same by lia. reflexivity. }
    { rewrite Z.mul_1_l. reflexivity. }
    destruct (inv_mod_loop m (n mod m) 0 1) as [g x0]. simpl in Hf, Hs.
    rewrite (Z.gcd_comm m), Hg in Hf, Hs. subst g.
    destruct (Z.eqb_spec (Z.gcd n m) 1) as [H1|H1].
    + destruct (Z.eqb_spec m 0) as [?|_]; [lia|].
      exists (x0 mod m). split; [reflexivity|].
      split; [apply Z.mod_pos_bound; lia|]. split; [|congruence].
      intros _. rewrite H1 in Hs. rewrite <- Hs.
      rewrite Z.mul_mod_idemp_r by lia.
      rewrite (Z.mul_comm x0), <- Z.mul_mod_idemp_l by lia.
      rewrite Z.mul_comm. reflexivity.
    + exists 0. split; [reflexivity|]. split; [lia|]. split; [congruence|reflexivity].
Qed.

Lemma inv_mod_spec_witness :
  0 < 7
  /\ (exists v, inv_mod (-4) 7 = Ok v
        /\ 0 <= v < 7
        /\ (Z.gcd (-4) 7 = 1 -> (-4 * v) mod 7 = 1 mod 7)
        /\ (Z.gcd (-4) 7 <> 1 -> v = 0))
  /\ inv_mod 3 7 = Ok 5
  /\ inv_mod 2 4 = Ok 0.
Proof.
  split; [lia | apply (inv_mod_spec (-4) 7); lia].
Defined.

End InvMod.

Section Ranges.

Lemma range_nil lo hi : hi <= lo -> range lo hi = [].
Proof.
  intros H. unfold range. replace (Z.to_nat (hi - lo)) with 0%nat by lia.
  reflexivity.
Qed.

Lemma range_cons lo hi : lo < hi -> range lo hi = lo :: range (lo + 1) hi.
Proof.
  intros H. unfold range.
  replace (Z.to_nat (hi - lo)) with (S (Z.to_nat (hi - (lo + 1)))) by lia.
  simpl. f_equal; [lia|].
  rewrite <- seq_shift, map_map. apply map_ext. intros i. lia.
Qed.

Lemma range_snoc lo hi : lo <= hi -> range lo (hi + 1) = range lo hi ++ [hi].
Proof.
  intros H. unfold range.
  replace (Z.to_nat (hi + 1 - lo)) with (Z.to_nat (hi - lo) + 1)%nat by lia.
  rewrite seq_app, map_app. simpl. do 2 f_equal. lia.
Qed.

Lemma range_app lo mid hi :
  lo <= mid <= hi -> range lo hi = range lo mid ++ range mid hi.
Proof.
  intros H. unfold range.
  replace (Z.to_nat (hi - lo))
    with (Z.to_nat (mid - lo) + Z.to_nat (hi - mid))%nat by lia.
  rewrite seq_app, map_app. f_equal.
  assert (Hs : forall len s,
             map (fun i => lo + Z.of_nat i) (seq (s + Z.to_nat (mid - lo)) len)
             = map (fun i => mid + Z.of_nat i) (seq s len)).
  { induction len as [|len IH]; intros s; simpl; [reflexivity|].
    f_equal; [lia|]. apply (IH (S s)). }
  apply (Hs _ 0%nat).
Qed.

Lemma in_range x lo hi : In x (range lo hi) <-> lo <= x < hi.
Proof.
  unfold range. rewrite in_map_iff. split.
  - intros (i & <- & Hi). apply in_seq in Hi. lia.
  - intros H. exists (Z.to_nat (x - lo)). split; [lia|]. apply in_seq. lia.
Qed.

Lemma length_range lo hi : List.length (range lo hi) = Z.to_nat (hi - lo).
Proof. unfold range. rewrite length_map, length_seq. reflexivity. Qed.

Lemma for_each_app {S X : Type} (body : S -> X -> result S) xs ys s :
  for_each body (xs ++ ys) s = bind (for_each body xs s) (for_each body ys).
Proof.
  revert s. induction xs as [|x xs IH]; intros s; simpl; [reflexivity|].
  destruct (body s x); simpl; auto.
Qed.

End Ranges.

Section FacMod.

Lemma zfact_succ n : 1 <= n -> zfact n = zfact (n - 1) * n.
Proof.
  intros H. unfold zfact. replace (n - 1 + 1) with n by lia.
  rewrite range_snoc by lia.
  generalize (range 1 n). intros l.
  induction l as [|a l IH]; cbn [fold_right app]; [ring|]. rewrite IH. ring.
Qed.

(** The loop of [fac_mod] up to [k] leaves [k! mod m] in [output]. *)
Lemma fac_mod_loop (m : Z) (k : nat) :
  0 < m ->
  for_each (fun output i => pymod (output * i) m)
           (range 2 (Z.of_nat k + 2)) 1
  = Ok (if (k =? 0)%nat then 1 else zfact (Z.of_nat k + 1) mod m).
Proof.
  intros Hm. induction k as [|k IH].
  - reflexivity.
  - replace (Z.of_nat (S k) + 2) with (Z.of_nat k + 2 + 1) by lia.
    rewrite range_snoc, for_each_app, IH by lia.
    cbn [bind for_each Nat.eqb].
    unfold pymod. destruct (Z.eqb_spec m 0) as [?|_]; [lia|]. f_equal.
    rewrite (zfact_succ (Z.of_nat (S k) + 1)) by lia.
    replace (Z.of_nat (S k) + 1 - 1) with (Z.of_nat k + 1) by lia.
    replace (Z.of_nat (S k) + 1) with (Z.of_nat k + 2) by lia.
    destruct k as [|k].
    + reflexivity.
    + cbn [Nat.eqb]. rewrite Z.mul_mod_idemp_l by lia. reflexivity.
Qed.

(** [fac_mod] raises [ValueError] exactly on a negative [n]: with a modulus
    [m > 0] every other call returns. *)
Lemma fac_mod_raises (n m : Z) :
  0 < m ->
  (n < 0 <-> exists msg, fac_mod n m = Raise (ValueError msg)).
Proof.
  intros Hm. unfold fac_mod. destruct (Z.ltb_spec n 0) as [Hn|Hn].
  - split; [eauto | auto].
  - split; [lia|]. intros [msg H].
    destruct (Z.eqb_spec n 0); [discriminate|].
    destruct (Z.eqb_spec n 1); [discriminate|]. simpl in H.
    replace (n + 1) with (Z.of_nat (Z.to_nat (n - 1)) + 2) in H by lia.
    rewrite fac_mod_loop in H by lia. discriminate.
Qed.

(** Away from the early return the result is [n! mod m]. *)
Lemma fac_mod_value (n m : Z) :
  0 <= n -> 0 < m -> 2 <= n \/ 2 <= m ->
  fac_mod n m = Ok (zfact n mod m).
Proof.
  intros Hn Hm Hc. unfold fac_mod.
  destruct (Z.ltb_spec n 0) as [?|_]; [lia|].
  destruct (Z.eqb_spec n 0) as [-> | H0]; simpl.
  { f_equal. symmetry. apply Z.mod_small. vm_compute zfact. lia. }
  destruct (Z.eqb_spec n 1) as [-> | H1]; simpl.
  { f_equal. symmetry. apply Z.mod_small. vm_compute zfact. lia. }
  replace (n + 1) with (Z.of_nat (Z.to_nat (n - 1)) + 2) by lia.
  rewrite fac_mod_loop by lia.
  destruct (Nat.eqb_spec (Z.to_nat (n - 1)) 0) as [?|_]; [lia|].
  do 3 f_equal. lia.
Qed.

(** C7, failing input: [fac_mod 0 1] takes the early return and answers 1,
    while [0! mod 1] is 0 (and so does [fac_mod 1 1]). *)
Theorem fac_mod_early_return :
  fac_mod 0 1 = Ok 1 /\ zfact 0 mod 1 = 0
  /\ fac_mod 1 1 = Ok 1 /\ zfact 1 mod 1 = 0.
Proof. repeat apply conj; vm_compute; reflexivity. Qed.

End FacMod.

Section IterAssociate.

Context {A : Type} (f : A -> A -> A).
Hypothesis f_assoc : forall a b c, f a (f b c) = f (f a b) c.

Lemma lpow_succ x k : left_power f x (S k) = f (left_power f x k) x.
Proof.
  unfold left_power. cbn [repeat]. rewrite repeat_cons, fold_left_app. reflexivity.
Qed.

Lemma lpow_add x a b : f (left_power f x a) (left_power f x b) = left_power f x (a + b + 1).
Proof.
  induction b as [|b IH].
  - rewrite Nat.add_0_r, Nat.add_1_r, lpow_succ. reflexivity.
  - replace (a + S b + 1)%nat with (S (a + b + 1)) by lia.
    rewrite !lpow_succ, f_assoc, IH. reflexivity.
Qed.

(** With [x] holding [b + 1] copies and [r] holding [c + 1] copies, the loop
    ends with [c + 1 + (b + 1) * n] copies. *)
Lemma iter_associate_loop_spec (x : A) (fuel : nat) :
  forall (n : Z) (b c : nat),
    0 <= n -> (Z.to_nat n <= fuel)%nat ->
    iter_associate_loop f fuel n (left_power f x b) (left_power f x c)
    = Some (left_power f x (c + (b + 1) * Z.to_nat n)).
Proof.
  induction fuel as [|fuel IH]; intros n b c Hn Hf.
  - assert (n = 0) by lia. subst n. simpl. do 2 f_equal. lia.
  - cbn [iter_associate_loop].
    destruct (Z.eqb_spec n 0) as [-> | Hz]; [simpl; do 2 f_equal; lia|].
    rewrite Z.shiftr_div_pow2 by lia. change (2 ^ 1) with 2.
    pose proof (Z.div_mod n 2 ltac:(lia)) as Hdm.
    pose proof (Z.mod_pos_bound n 2 ltac:(lia)) as Hmb.
    rewrite !lpow_add.
    destruct (Z.eqb_spec (n mod 2) 0) as [He | Ho].
    + rewrite IH by lia. do 2 f_equal.
      replace (Z.to_nat n) with (2 * Z.to_nat (n / 2))%nat by lia. lia.
    + rewrite IH by lia. do 2 f_equal.
      replace (Z.to_nat n) with (2 * Z.to_nat (n / 2) + 1)%nat by lia. lia.
Qed.

(** C6: for an associative [f] and [n >= 1], binary exponentiation gives
    the naive left fold of [n] copies of [x], as soon as the loop is given
    [n] rounds of fuel; for [n = 1] that is [x] itself. *)
Theorem iter_associate_spec (x : A) (n : Z) (fuel : nat) :
  1 <= n -> (Z.to_nat n <= fuel)%nat ->
  iter_associate f fuel x n = Some (naive_iterate f x n)
  /\ naive_iterate f x 1 = x.
Proof.
  intros Hn Hf. split; [|reflexivity].
  unfold iter_associate, naive_iterate.
  change x with (left_power f x 0) at 1 2.
  rewrite iter_associate_loop_spec by lia.
  do 2 f_equal. lia.
Qed.

End IterAssociate.

Lemma iter_associate_spec_witness :
  1 <= 5 /\ (Z.to_nat 5 <= 5)%nat
  /\ iter_associate String.append 5 "ab"%string 5
     = Some (naive_iterate String.append "ab"%string 5)
  /\ naive_iterate String.append "ab"%string 1 = "ab"%string.
Proof.
  split; [lia|]. split; [vm_compute; lia|].
  apply (iter_associate_spec String.append).
  - intros a b c. induction a as [|ch a IH]; simpl; [reflexivity|].
    rewrite IH. reflexivity.
  - lia.
  - vm_compute. lia.
Defined.

Section SumPowerSeriesMod.

Lemma power_sum_succ (i n : Z) :
  0 <= n -> power_sum i (n + 1) = power_sum i n + (n + 1) ^ i.
Proof.
  intros H. unfold power_sum. rewrite (range_snoc 1 (n + 1)) by lia.
  rewrite map_app, zsum_app. simpl. lia.
Qed.

(** The closed forms of Faulhaber for the degrees 1, 2 and 3. *)
Lemma power_sum_closed (n : Z) :
  0 <= n ->
  2 * power_sum 1 n = n * (n + 1)
  /\ 6 * power_sum 2 n = n * (n + 1) * (2 * n + 1)
  /\ 4 * power_sum 3 n = (n * (n + 1)) * (n * (n + 1)).
Proof.
  intros H. rewrite <- (Z2Nat.id n H). generalize (Z.to_nat n). clear.
  intros k. induction k as [|k (IH1 & IH2 & IH3)].
  - repeat split; reflexivity.
  - replace (Z.of_nat (S k)) with (Z.of_nat k + 1) by lia.
    rewrite !power_sum_succ by lia.
    change ((Z.of_nat k + 1) ^ 1) with (Z.pow_pos (Z.of_nat k + 1) 1).
    change ((Z.of_nat k + 1) ^ 2) with (Z.pow_pos (Z.of_nat k + 1) 2).
    change ((Z.of_nat k + 1) ^ 3) with (Z.pow_pos (Z.of_nat k + 1) 3).
    cbn [Z.pow_pos Pos.iter].
    repeat split; nia.
Qed.

(** The triangular number of a residue modulo [2 * m] is the triangular
    number of [n] modulo [m]. *)
Lemma triangular_mod (n m : Z) :
  0 <= n -> 0 < m ->
  Z.shiftr (n mod (2 * m) * (n mod (2 * m) + 1)) 1 mod m = power_sum 1 n mod m.
Proof.
  intros Hn Hm.
  pose proof (Z.mod_pos_bound n (2 * m) ltac:(lia)) as Hb.
  pose proof (Z.div_mod n (2 * m) ltac:(lia)) as Hdm.
  destruct (power_sum_closed n Hn) as (Cn & _).
  destruct (power_sum_closed (n mod (2 * m)) ltac:(lia)) as (Cr & _).
  set (r := n mod (2 * m)) in *. set (k := n / (2 * m)) in *.
  rewrite Z.shiftr_div_pow2 by lia. change (2 ^ 1) with 2.
  rewrite <- Cr, Z.mul_comm, Z.div_mul by lia.
  assert (E : power_sum 1 n = power_sum 1 r + (k * (2 * r + 1) + 2 * m * k * k) * m)
    by nia.
  rewrite E. apply eq_sym, Z_mod_plus_full.
Qed.

(** Away from [i = 0] the closed forms are right: degrees 1, 2 and 3 give
    the power sum modulo [m], every other degree gives 0. *)
Lemma sum_power_series_mod_value (i n m : Z) :
  0 <= n -> 0 < m ->
  (1 <= i <= 3 -> sum_power_series_mod i n m = Ok (power_sum i n mod m))
  /\ (i < 0 \/ 3 < i -> sum_power_series_mod i n m = Ok 0).
Proof.
  intros Hn Hm. split.
  - intros Hi. assert (Hc : i = 1 \/ i = 2 \/ i = 3) by lia.
    destruct Hc as [-> | [-> | ->]]; unfold sum_power_series_mod, pymod, floordiv;
      cbn [Z.eqb Pos.eqb bind];
      try (destruct (Z.eqb_spec (2 * m) 0) as [?|_]; [lia|]);
      try (destruct (Z.eqb_spec (6 * m) 0) as [?|_]; [lia|]);
      try (destruct (Z.eqb_spec (3 * m) 0) as [?|_]; [lia|]);
      try (destruct (Z.eqb_spec m 0) as [?|_]; [lia|]);
      cbn [Z.eqb Pos.eqb bind]; f_equal.
    + apply triangular_mod; assumption.
    + pose proof (Z.mod_pos_bound n (6 * m) ltac:(lia)) as Hb.
      pose proof (Z.div_mod n (6 * m) ltac:(lia)) as Hdm.
      destruct (power_sum_closed n Hn) as (_ & Cn & _).
      destruct (power_sum_closed (n mod (6 * m)) ltac:(lia)) as (Cr1 & Cr & _).
      set (r := n mod (6 * m)) in *. set (k := n / (6 * m)) in *.
      rewrite Z.shiftr_div_pow2 by lia. change (2 ^ 1) with 2.
      rewrite <- Cr1, (Z.mul_comm 2), Z.div_mul by lia.
      rewrite <- Z.mul_mod by lia.
      replace (power_sum 1 r * (2 * r + 1)) with (3 * power_sum 2 r) by nia.
      rewrite Z.mul_mod_distr_l by lia.
      rewrite (Z.mul_comm 3), Z.div_mul by lia.
      assert (E : power_sum 2 n
                  = power_sum 2 r
                    + (k * (6 * r * r + 6 * r * (6 * m * k)
                            + 2 * (6 * m * k) * (6 * m * k)
                            + 6 * r + 3 * (6 * m * k) + 1)) * m) by nia.
      rewrite E. apply eq_sym, Z_mod_plus_full.
    + rewrite <- Z.mul_mod by lia.
      rewrite Z.mul_mod, triangular_mod, <- Z.mul_mod by lia.
      destruct (power_sum_closed n Hn) as (C1 & _ & C3).
      f_equal. nia.
  - intros Hi. unfold sum_power_series_mod.
    destruct (Z.eqb_spec i 0); [lia|]. destruct (Z.eqb_spec i 1); [lia|].
    destruct (Z.eqb_spec i 2); [lia|]. destruct (Z.eqb_spec i 3); [lia|].
    reflexivity.
Qed.

(** C2, failing input: with [i = 0] the argument [n] comes back unreduced,
    so [sum_power_series_mod 0 5 3] is 5 while [1 + 1 + 1 + 1 + 1] modulo 3
    is 2. *)
Theorem sum_power_series_mod_degree_0 :
  sum_power_series_mod 0 5 3 = Ok 5 /\ power_sum 0 5 mod 3 = 2.
Proof. split; vm_compute; reflexivity. Qed.

End SumPowerSeriesMod.

Section ContinuedFractions.

Lemma normalize_lowest (n d : Z) :
  Z.gcd n d = 1 -> 0 < d -> normalize n d = mkFraction n d.
Proof.
  intros Hg Hd. unfold normalize. rewrite Hg.
  destruct (Z.ltb_spec d 0) as [?|_]; [lia|]. rewrite !Z.div_1_r. reflexivity.
Qed.

Lemma Fraction_new_lowest (n d : Z) :
  Z.gcd n d = 1 -> 0 < d -> Fraction_new n d = Ok (mkFraction n d).
Proof.
  intros Hg Hd. unfold Fraction_new.
  destruct (Z.eqb_spec d 0) as [?|_]; [lia|]. rewrite normalize_lowest; auto.
Qed.

(** Two consecutive convergents have determinant 1 or -1, which makes each
    of them a fraction in lowest terms. *)
Lemma det_coprime (a b c d : Z) :
  a * d - b * c = 1 \/ a * d - b * c = -1 -> Z.gcd a c = 1.
Proof.
  intros H.
  assert (Hd : (Z.gcd a c | a * d - b * c)).
  { apply Z.divide_sub_r.
    - apply Z.divide_mul_l, Z.gcd_divide_l.
    - apply Z.divide_mul_r, Z.gcd_divide_r. }
  apply Z.divide_1_r_nonneg; [apply Z.gcd_nonneg|].
  destruct H as [H | H]; rewrite H in Hd; [exact Hd|].
  apply Z.divide_opp_r in Hd. exact Hd.
Qed.

(** The forward recurrence of the numerators and denominators, on the
    backward definition [cf_value]. *)
Lemma cf_value_snoc (l0 : list Z) (b a : Z) :
  cf_value (l0 ++ [b] ++ [a])
  = (a * fst (cf_value (l0 ++ [b])) + fst (cf_value l0),
     a * snd (cf_value (l0 ++ [b])) + snd (cf_value l0)).
Proof.
  induction l0 as [|x l0 IH].
  - simpl. f_equal; ring.
  - cbn [app cf_value] in *. rewrite IH.
    destruct (cf_value (l0 ++ [b])) as [n1 d1].
    destruct (cf_value l0) as [n0 d0]. simpl. f_equal; ring.
Qed.

Lemma cvg_pairs_length rest p0 p1 q0 q1 :
  List.length (cvg_pairs rest p0 p1 q0 q1) = List.length rest.
Proof.
  revert p0 p1 q0 q1. induction rest as [|a rest IH]; intros; simpl; auto.
Qed.

(** Each pair of the loop is the value of the matching prefix. *)
Lemma cvg_pairs_value (rest l0 : list Z) (b : Z) :
  forall k pq,
    nth_error (cvg_pairs rest (fst (cf_value l0)) (fst (cf_value (l0 ++ [b])))
                              (snd (cf_value l0)) (snd (cf_value (l0 ++ [b])))) k
    = Some pq ->
    pq = cf_value (l0 ++ [b] ++ firstn (S k) rest).
Proof.
  revert l0 b. induction rest as [|a rest IH]; intros l0 b k pq H.
  - destruct k; discriminate.
  - cbn [cvg_pairs] in H. destruct k as [|k].
    + cbn in H. injection H as <-. cbn [firstn]. rewrite cf_value_snoc.
      reflexivity.
    + cbn [nth_error] in H.
      pose proof (cf_value_snoc l0 b a) as Hs.
      specialize (IH (l0 ++ [b]) a k pq).
      rewrite <- !app_assoc in IH. rewrite Hs in IH. cbn [fst snd] in IH.
      specialize (IH H). rewrite IH. cbn [firstn app]. reflexivity.
Qed.

(** With positive terms the denominators stay positive and the determinant
    stays 1 or -1, so every pair is in lowest terms. *)
Lemma cvg_pairs_lowest (rest : list Z) :
  forall p0 p1 q0 q1,
    0 < q0 -> 0 < q1 ->
    p1 * q0 - p0 * q1 = 1 \/ p1 * q0 - p0 * q1 = -1 ->
    Forall (fun a => 1 <= a) rest ->
    Forall (fun pq => Z.gcd (fst pq) (snd pq) = 1 /\ 0 < snd pq)
           (cvg_pairs rest p0 p1 q0 q1).
Proof.
  induction rest as [|a rest IH]; intros p0 p1 q0 q1 H0 H1 Hd Hpos; simpl.
  - constructor.
  - inversion Hpos as [|? ? Ha Hrest]; subst.
    assert (Hd' : (a * p1 + p0) * q1 - p1 * (a * q1 + q0) = 1
                  \/ (a * p1 + p0) * q1 - p1 * (a * q1 + q0) = -1) by lia.
    assert (Hq : 0 < a * q1 + q0) by nia.
    constructor.
    + simpl. split; [|exact Hq].
      apply (det_coprime _ p1 _ q1). lia.
    + apply IH; auto.
Qed.

(** The recurrence, read on three consecutive positions. *)
Lemma cvg_pairs_recurrence (rest : list Z) :
  forall p0 p1 q0 q1 t0 t1 k a x y z,
    nth_error (t0 :: t1 :: rest) (k + 2) = Some a ->
    nth_error ((p0, q0) :: (p1, q1) :: cvg_pairs rest p0 p1 q0 q1) k = Some x ->
    nth_error ((p0, q0) :: (p1, q1) :: cvg_pairs rest p0 p1 q0 q1) (k + 1) = Some y ->
    nth_error ((p0, q0) :: (p1, q1) :: cvg_pairs rest p0 p1 q0 q1) (k + 2) = Some z ->
    z = (a * fst y + fst x, a * snd y + snd x).
Proof.
  induction rest as [|a' rest IH]; intros p0 p1 q0 q1 t0 t1 k a x y z Ha Hx Hy Hz.
  - replace (k + 2)%nat with (S (S k)) in Ha by lia. simpl in Ha.
    destruct k; discriminate.
  - destruct k as [|k].
    + simpl in *. injection Ha as <-. injection Hx as <-. injection Hy as <-.
      injection Hz as <-. reflexivity.
    + cbn [cvg_pairs] in *.
      change (S k + 2)%nat with (S (k + 2)) in *.
      change (S k + 1)%nat with (S (k + 1)) in *.
      cbn [nth_error] in Ha, Hx, Hy, Hz.
      eapply (IH p1 (a' * p1 + p0) q1 (a' * q1 + q0) t1 a' k); eauto.
Qed.

(** The loop of [continous_frac_convergent] never raises on positive terms
    and appends the pairs of [cvg_pairs] unchanged. *)
Lemma cvg_loop_spec (rest : list Z) :
  forall st,
    0 < cs_q0 st -> 0 < cs_q1 st ->
    cs_p1 st * cs_q0 st - cs_p0 st * cs_q1 st = 1
    \/ cs_p1 st * cs_q0 st - cs_p0 st * cs_q1 st = -1 ->
    Forall (fun a => 1 <= a) rest ->
    exists st',
      for_each cvg_body rest st = Ok st'
      /\ cs_cvg st'
         = cs_cvg st ++ map frac_of_pair
             (cvg_pairs rest (cs_p0 st) (cs_p1 st) (cs_q0 st) (cs_q1 st)).
Proof.
  induction rest as [|a rest IH]; intros st H0 H1 Hd Hpos.
  - exists st. simpl. rewrite app_nil_r. auto.
  - inversion Hpos as [|? ? Ha Hrest]; subst.
    destruct st as [p0 p1 q0 q1 cvg]. cbn [cs_p0 cs_p1 cs_q0 cs_q1 cs_cvg] in *.
    assert (Hd' : (a * p1 + p0) * q1 - p1 * (a * q1 + q0) = 1
                  \/ (a * p1 + p0) * q1 - p1 * (a * q1 + q0) = -1) by lia.
    assert (Hq : 0 < a * q1 + q0) by nia.
    cbn [for_each]. unfold cvg_body at 1.
    cbn [cs_p0 cs_p1 cs_q0 cs_q1 cs_cvg].
    rewrite Fraction_new_lowest;
      [| apply (det_coprime _ p1 _ q1); lia | exact Hq].
    cbn [bind].
    destruct (IH (mkCvg p1 (a * p1 + p0) q1 (a * q1 + q0)
                        (cvg ++ [mkFraction (a * p1 + p0) (a * q1 + q0)])))
      as (st' & Hrun & Hcvg); auto.
    exists st'. split; [exact Hrun|].
    rewrite Hcvg. cbn [cs_p0 cs_p1 cs_q0 cs_q1 cs_cvg cvg_pairs map].
    rewrite <- app_assoc. reflexivity.
Qed.

(** On at least two terms, positive after the first, the convergents are
    the values of the prefixes, in lowest terms, and obey the recurrence. *)
Lemma convergents_of_positive_terms (cfrac : list Z) :
  (2 <= List.length cfrac)%nat ->
  Forall (fun a => 1 <= a) (tl cfrac) ->
  exists cvg,
    continous_frac_convergent cfrac = Ok cvg
    /\ List.length cvg = List.length cfrac
    /\ (forall k fr, nth_error cvg k = Some fr ->
          (numerator fr, denominator fr) = cf_value (firstn (S k) cfrac)
          /\ Z.gcd (numerator fr) (denominator fr) = 1
          /\ 0 < denominator fr)
    /\ (forall k a f0 f1 f2,
          nth_error cfrac (k + 2) = Some a ->
          nth_error cvg k = Some f0 ->
          nth_error cvg (k + 1) = Some f1 ->
          nth_error cvg (k + 2) = Some f2 ->
          numerator f2 = a * numerator f1 + numerator f0
          /\ denominator f2 = a * denominator f1 + denominator f0).
Proof.
  intros Hlen Hpos.
  destruct cfrac as [|a0 [|a1 rest]]; simpl in Hlen; try lia.
  cbn [tl] in Hpos. inversion Hpos as [|? ? Ha1 Hrest]; subst.
  assert (Hdet : (a0 * a1 + 1) * 1 - a0 * a1 = 1
                 \/ (a0 * a1 + 1) * 1 - a0 * a1 = -1) by lia.
  destruct (cvg_loop_spec rest
              (mkCvg a0 (a0 * a1 + 1) 1 a1
                     [mkFraction a0 1; mkFraction (a0 * a1 + 1) a1]))
    as (st' & Hrun & Hcvg); cbn [cs_p0 cs_p1 cs_q0 cs_q1 cs_cvg]; auto; try lia.
  cbn [cs_p0 cs_p1 cs_q0 cs_q1 cs_cvg] in Hcvg.
  set (pairs := cvg_pairs rest a0 (a0 * a1 + 1) 1 a1) in *.
  assert (Hall : cs_cvg st'
                 = map frac_of_pair ((a0, 1) :: (a0 * a1 + 1, a1) :: pairs))
    by (rewrite Hcvg; reflexivity).
  exists (cs_cvg st'). split; [|split; [|split]].
  - unfold continous_frac_convergent.
    rewrite (Fraction_new_lowest a0 1); [| apply Z.gcd_1_r | lia].
    rewrite (Fraction_new_lowest (a0 * a1 + 1) a1);
      [| apply (det_coprime _ a0 _ 1); lia | lia].
    cbn [bind]. rewrite Hrun. reflexivity.
  - rewrite Hall, length_map. simpl. unfold pairs.
    rewrite cvg_pairs_length. reflexivity.
  - intros k fr Hk. rewrite Hall, nth_error_map in Hk.
    destruct (nth_error ((a0, 1) :: (a0 * a1 + 1, a1) :: pairs) k)
      as [pq|] eqn:Hpq; [|discriminate].
    injection Hk as <-. cbn [frac_of_pair numerator denominator].
    destruct k as [|[|k]].
    + injection Hpq as <-. simpl. repeat split; try lia;
        [f_equal; ring | apply Z.gcd_1_r].
    + injection Hpq as <-. simpl. repeat split; try lia;
        [f_equal; ring | apply (det_coprime _ a0 _ 1); lia].
    + cbn [nth_error] in Hpq. split.
      * rewrite <- surjective_pairing.
         assert (E0 : cf_value [a0] = (a0, 1)) by (simpl; f_equal; ring).
         assert (E1 : cf_value ([a0] ++ [a1]) = (a0 * a1 + 1, a1))
           by (simpl; f_equal; ring).
         pose proof (cvg_pairs_value rest [a0] a1 k pq) as Hv.
         rewrite E0, E1 in Hv. cbn [fst snd] in Hv.
         rewrite (Hv Hpq). reflexivity.
      * pose proof (cvg_pairs_lowest rest a0 (a0 * a1 + 1) 1 a1
                       ltac:(lia) ltac:(lia) Hdet Hrest) as Hlow.
         rewrite Forall_forall in Hlow.
         apply (Hlow pq). apply nth_error_In with (n := k). exact Hpq.
  - intros k a f0 f1 f2 Ha H0 H1 H2.
    rewrite Hall, nth_error_map in H0, H1, H2.
    destruct (nth_error _ k) as [x|] eqn:Hx in H0; [|discriminate].
    destruct (nth_error _ (k + 1)) as [y|] eqn:Hy in H1; [|discriminate].
    destruct (nth_error _ (k + 2)) as [z|] eqn:Hz in H2; [|discriminate].
    injection H0 as <-. injection H1 as <-. injection H2 as <-.
    pose proof (cvg_pairs_recurrence rest _ _ _ _ a0 a1 k a x y z Ha Hx Hy Hz)
      as ->.
    cbn [frac_of_pair numerator denominator fst snd]. auto.
Qed.

(** C8, as amended: a continued fraction with fewer than two terms is
    refused with [ValueError]; for one with at least two terms, whose terms
    after the first are positive, [continous_frac_convergent] returns one
    [Fraction] per prefix, the [k]-th being the value of the first [k + 1]
    terms, in lowest terms with a positive denominator, and the numerators
    and denominators of three consecutive convergents satisfy
    [p[k] = a[k] * p[k-1] + p[k-2]] and [q[k] = a[k] * q[k-1] + q[k-2]]. *)
Theorem continous_frac_convergent_spec (cfrac : list Z) :
  ((List.length cfrac < 2)%nat ->
   continous_frac_convergent cfrac
   = Raise (ValueError "Continued fraction must longer than 2!"))
  /\ ((2 <= List.length cfrac)%nat ->
      Forall (fun a => 1 <= a) (tl cfrac) ->
      exists cvg,
        continous_frac_convergent cfrac = Ok cvg
        /\ List.length cvg = List.length cfrac
        /\ (forall k fr, nth_error cvg k = Some fr ->
              (numerator fr, denominator fr) = cf_value (firstn (S k) cfrac)
              /\ Z.gcd (numerator fr) (denominator fr) = 1
              /\ 0 < denominator fr)
        /\ (forall k a f0 f1 f2,
              nth_error cfrac (k + 2) = Some a ->
              nth_error cvg k = Some f0 ->
              nth_error cvg (k + 1) = Some f1 ->
              nth_error cvg (k + 2) = Some f2 ->
              numerator f2 = a * numerator f1 + numerator f0
              /\ denominator f2 = a * denominator f1 + denominator f0)).
Proof.
  split.
  - intros Hlen. destruct cfrac as [|a0 [|a1 rest]]; simpl in *; auto; lia.
  - apply convergents_of_positive_terms.
Qed.

Lemma continous_frac_convergent_spec_witness :
  (List.length [7] < 2)%nat
  /\ continous_frac_convergent [7]
     = Raise (ValueError "Continued fraction must longer than 2!")
  /\ (2 <= List.length [4; 2; 6; 7])%nat
  /\ Forall (fun a => 1 <= a) (tl [4; 2; 6; 7])
  /\ exists cvg,
       continous_frac_convergent [4; 2; 6; 7] = Ok cvg
       /\ List.length cvg = List.length [4; 2; 6; 7]
       /\ (forall k fr, nth_error cvg k = Some fr ->
             (numerator fr, denominator fr)
             = cf_value (firstn (S k) [4; 2; 6; 7])
             /\ Z.gcd (numerator fr) (denominator fr) = 1
             /\ 0 < denominator fr)
       /\ (forall k a f0 f1 f2,
             nth_error [4; 2; 6; 7] (k + 2) = Some a ->
             nth_error cvg k = Some f0 ->
             nth_error cvg (k + 1) = Some f1 ->
             nth_error cvg (k + 2) = Some f2 ->
             numerator f2 = a * numerator f1 + numerator f0
             /\ denominator f2 = a * denominator f1 + denominator f0).
Proof.
  assert (H1 : (List.length [7] < 2)%nat) by (simpl; lia).
  assert (H2 : (2 <= List.length [4; 2; 6; 7])%nat) by (simpl; lia).
  assert (H3 : Forall (fun a => 1 <= a) (tl [4; 2; 6; 7]))
    by (simpl; repeat constructor; lia).
  split; [exact H1|].
  split; [exact (proj1 (continous_frac_convergent_spec [7]) H1)|].
  split; [exact H2|]. split; [exact H3|].
  exact (proj2 (continous_frac_convergent_spec [4; 2; 6; 7]) H2 H3).
Defined.

(** C8, as stated, fails on a zero term: [Fraction(1, 0)] raises
    [ZeroDivisionError], so no convergent at all is returned for [[1; 0]]. *)
Lemma continous_frac_convergent_zero_term :
  (2 <= List.length [1; 0])%nat
  /\ continous_frac_convergent [1; 0] = Raise ZeroDivisionError.
Proof. split; [simpl; lia | reflexivity]. Qed.

(** The terms of a continued fraction [-3 + 1/(1 + 1/(-2))] with a
    negative term: the normalised convergents -3, -2, -1 do not obey the
    recurrence ([-2 * -2 + -3 = 1], not -1). *)
Example continous_frac_convergent_negative_term :
  continous_frac_convergent [-3; 1; -2]
  = Ok [mkFraction (-3) 1; mkFraction (-2) 1; mkFraction (-1) 1].
Proof. reflexivity. Qed.

(** The Euclidean loop on a fraction in lowest terms with a positive
    denominator: it ends with [q = 1], the terms read back to [(p, q)], and
    every term after the first is positive. *)
Lemma rational_loop_spec (p q : Z) (acc : list Z) :
  0 < q -> Z.gcd p q = 1 ->
  exists pf l,
    rational_loop p q acc = Ok (pf, 1, acc ++ l)
    /\ cf_value (l ++ [pf]) = (p, q)
    /\ Forall (fun a => 1 <= a) (tl (l ++ [pf]))
    /\ (q < p -> Forall (fun a => 1 <= a) (l ++ [pf]))
    /\ (1 < q -> l <> []).
Proof.
  funelim (rational_loop p q acc); intros Hq Hg.
  - lia.
  - assert (q = 1).
    { assert (Hdiv : (q | p)).
      { match goal with E : p mod q = 0 |- _ =>
          exists (p / q); rewrite (Z.div_mod p q) at 1 by lia; rewrite E; ring
        end. }
      apply Z.divide_gcd_iff in Hdiv; [|lia]. rewrite Z.gcd_comm in Hdiv. lia. }
    subst q. exists p, []. rewrite app_nil_r. simpl.
    repeat split; try constructor; try lia; try constructor.
    f_equal; ring.
  - assert (Hr : 0 <= p mod q < q) by (apply Z.mod_pos_bound; lia).
    assert (Hg' : Z.gcd q (p mod q) = 1).
    { rewrite Z.gcd_comm, Z.gcd_mod by lia. rewrite Z.gcd_comm. exact Hg. }
    match goal with
    | IH : 0 < p mod q -> _ |- _ =>
        destruct (IH ltac:(lia) Hg') as (pf & l & Hrun & Hval & Htl & Hall & Hne)
    end.
    exists pf, (p / q :: l). rewrite <- app_assoc in Hrun.
    split; [exact Hrun|]. cbn [app cf_value tl]. rewrite Hval.
    split; [|split; [|split]].
    + f_equal. rewrite (Z.div_mod p q) at 3 by lia. ring.
    + apply Hall. lia.
    + intros Hlt. constructor; [|apply Hall; lia].
      apply Z.div_le_lower_bound; lia.
    + discriminate.
Qed.

(** A continued fraction read back in full is its last convergent. *)
Lemma last_convergent (cfrac : list Z) (cvg : list Fraction) :
  (2 <= List.length cfrac)%nat ->
  Forall (fun a => 1 <= a) (tl cfrac) ->
  continous_frac_convergent cfrac = Ok cvg ->
  nth_error cvg (List.length cvg - 1)
  = Some (frac_of_pair (cf_value cfrac)).
Proof.
  intros Hlen Hpos Hrun.
  destruct (convergents_of_positive_terms cfrac Hlen Hpos)
    as (cvg' & Hrun' & Hl & Hval & _).
  rewrite Hrun in Hrun'. injection Hrun' as <-.
  destruct (nth_error cvg (List.length cvg - 1)) as [fr|] eqn:Hfr.
  - destruct (Hval _ _ Hfr) as (Hv & _).
    replace (S (List.length cvg - 1)) with (List.length cfrac) in Hv by lia.
    rewrite firstn_all in Hv. rewrite <- Hv. destruct fr. reflexivity.
  - apply nth_error_None in Hfr. lia.
Qed.

(** C3, as amended: for [p / q] in lowest terms with [q > 1], expanding
    with [rational_continous_frac] and taking the last term of
    [continous_frac_convergent] gives back [Fraction(p, q)], which is
    [p / q] itself. *)
Theorem rational_round_trip (p q : Z) :
  1 < q -> Z.gcd p q = 1 ->
  exists cfrac cvg,
    rational_continous_frac p q = Ok cfrac
    /\ continous_frac_convergent cfrac = Ok cvg
    /\ nth_error cvg (List.length cvg - 1) = Some (mkFraction p q)
    /\ Fraction_new p q = Ok (mkFraction p q).
Proof.
  intros Hq Hg.
  destruct (rational_loop_spec p q [] ltac:(lia) Hg)
    as (pf & l & Hrun & Hval & Htl & _ & Hne).
  assert (Hlen : (2 <= List.length (l ++ [pf]))%nat).
  { rewrite length_app. simpl. destruct l; [exfalso; apply Hne; auto; lia|].
    simpl. lia. }
  destruct (convergents_of_positive_terms _ Hlen Htl) as (cvg & Hcvg & _).
  exists (l ++ [pf]), cvg. split; [|split; [exact Hcvg|split]].
  - unfold rational_continous_frac. rewrite Hrun. reflexivity.
  - rewrite (last_convergent _ _ Hlen Htl Hcvg), Hval. reflexivity.
  - apply Fraction_new_lowest; [exact Hg | lia].
Qed.

Lemma rational_round_trip_witness :
  1 < 93 /\ Z.gcd 415 93 = 1
  /\ exists cfrac cvg,
       rational_continous_frac 415 93 = Ok cfrac
       /\ continous_frac_convergent cfrac = Ok cvg
       /\ nth_error cvg (List.length cvg - 1) = Some (mkFraction 415 93)
       /\ Fraction_new 415 93 = Ok (mkFraction 415 93).
Proof.
  split; [lia|]. split; [reflexivity|].
  apply (rational_round_trip 415 93); [lia | reflexivity].
Defined.

(** C3, as stated, fails when [q] divides [p]: the expansion of [3 / 1] is
    the single term [[3]], which [continous_frac_convergent] refuses, so
    no final convergent exists. *)
Lemma rational_round_trip_integer :
  0 < 1
  /\ rational_continous_frac 3 1 = Ok [3]
  /\ continous_frac_convergent [3]
     = Raise (ValueError "Continued fraction must longer than 2!").
Proof. repeat apply conj; [lia | reflexivity | reflexivity]. Qed.

(** Outside lowest terms the last term appended is [p], not [p // q]:
    [6 / 4] expands to [[1; 4]], whose last convergent is [5 / 4], while
    [Fraction(6, 4)] is [3 / 2]. *)
Example rational_continous_frac_not_lowest :
  rational_continous_frac 6 4 = Ok [1; 4]
  /\ continous_frac_convergent [1; 4] = Ok [mkFraction 1 1; mkFraction 5 4]
  /\ Fraction_new 6 4 = Ok (mkFraction 3 2).
Proof. repeat apply conj; reflexivity. Qed.

End ContinuedFractions.

Section Irrational.

Lemma Fraction_eqb_eq (x y : Fraction) : Fraction_eqb x y = true -> x = y.
Proof.
  destruct x as [xn xd], y as [yn yd]. unfold Fraction_eqb.
  cbn [numerator denominator]. intros H.
  apply andb_true_iff in H. destruct H as [H1 H2].
  apply Z.eqb_eq in H1, H2. subst. reflexivity.
Qed.

(** [index_of] finds nothing exactly when [(p, q) in pairspq] is false. *)
Lemma index_of_not_in (x : Fraction * Fraction)
    (l : list (Fraction * Fraction)) :
  ~ In x l -> index_of x l = None.
Proof.
  induction l as [|y l IH]; intros H; cbn [index_of]; [reflexivity|].
  destruct (Fraction_eqb (fst x) (fst y) && Fraction_eqb (snd x) (snd y))
    eqn:E.
  - exfalso. apply H. left.
    apply andb_true_iff in E. destruct E as [E1 E2].
    apply Fraction_eqb_eq in E1, E2.
    destruct x as [x1 x2], y as [y1 y2]. cbn [fst snd] in E1, E2.
    subst. reflexivity.
  - rewrite IH; [reflexivity|]. intros Hin. apply H. right. exact Hin.
Qed.

(** The two failures carry different messages but are both [ValueError]. *)
Lemma failure_messages (limit : Z) :
  ValueError "D is perfect square!"
  <> ValueError ("Repetend is longer than " ++ decimal limit
                 ++ ", please try higher limit!")
  /\ class_of (ValueError "D is perfect square!")
     = class_of (ValueError ("Repetend is longer than " ++ decimal limit
                             ++ ", please try higher limit!")).
Proof. split; [discriminate | reflexivity]. Qed.

(** In double precision the test finds every perfect square up to
    [1024 * 1024]. *)
Lemma squares_found (r : Z) : 0 <= r <= 1024 -> square_found r = true.
Proof.
  intros Hr.
  assert (Hall : forallb square_found (range 0 1025) = true)
    by (vm_compute; reflexivity).
  rewrite forallb_forall in Hall. apply Hall. apply in_range. lia.
Qed.

Lemma small_square_refused (r p q limit : Z) :
  0 <= r <= 1024 ->
  irrational_continous_frac binary64 (r * r) p q limit
  = Raise (ValueError "D is perfect square!").
Proof.
  intros Hr. pose proof (squares_found r Hr) as H.
  unfold square_found in H. unfold irrational_continous_frac.
  destruct (sqrt_int binary64 (r * r)) as [sd|e]; [|discriminate].
  cbn [bind].
  destruct (int_of_float binary64 sd) as [isd|e]; [|discriminate].
  cbn [bind]. rewrite H. reflexivity.
Qed.

Section Failures.

Variable fl : PyFloat.

(** When the recurrence runs [k] rounds without a failure and without
    coming back to a pair seen before, the loop falls through. *)
Lemma irrational_loop_no_cycle (d : Z) (sd : pyfloat fl) (k : nat) :
  forall p q a repetend pairspq o,
    orbit fl k d sd p q a = Ok o ->
    NoDup (pairspq ++ map fst o) ->
    irrational_loop fl k d sd p q a repetend pairspq = Ok None.
Proof.
  induction k as [|k IH]; intros p q a rep pairs o Ho Hnd.
  - reflexivity.
  - cbn [orbit irrational_loop] in *.
    destruct (fr_div (fr_sub (fr_mul (fr_of_Z a) q) p) (fr_of_Z 1))
      as [p'|e]; cbn [bind] in *; [|discriminate].
    destruct (fr_div (fr_sub (fr_of_Z d) (fr_mul p' p')) q)
      as [q'|e]; cbn [bind] in *; [|discriminate].
    destruct (quotient fl sd p' q') as [a'|e]; cbn [bind] in *;
      [|discriminate].
    destruct (orbit fl k d sd p' q' a') as [rest|e] eqn:Er;
      cbn [bind] in Ho; [|discriminate].
    injection Ho as <-. cbn [map fst] in Hnd.
    rewrite index_of_not_in.
    + apply (IH p' q' a' (rep ++ [a']) (pairs ++ [(p', q')]) rest Er).
      rewrite <- app_assoc. exact Hnd.
    + apply NoDup_remove_2 in Hnd. intros Hin. apply Hnd.
      apply in_or_app. left. exact Hin.
Qed.

(** C4, as amended: with [sd = sqrt(d)] and [r = int(sd)] as the floating
    point computes them, a [d] with [r * r = d], which is a perfect square
    whose root the floating point finds, is refused with the [ValueError]
    "D is perfect square!"; in double precision that is the case of every
    perfect square up to [1024 * 1024].  Otherwise, when the first partial
    quotient and [limit] rounds of the recurrence raise nothing and no
    pair [(p, q)] comes back among them, the call raises the [ValueError]
    "Repetend is longer than <limit>, please try higher limit!".  Both
    failures are [ValueError]s: they have the same exception class and
    differ in their message only.  A raised exception carries no partial
    result. *)
Theorem irrational_continous_frac_failures (d p q limit : Z)
    (sd : pyfloat fl) (r : Z) :
  sqrt_int fl d = Ok sd -> int_of_float fl sd = Ok r ->
  (r * r = d ->
   irrational_continous_frac fl d p q limit
   = Raise (ValueError "D is perfect square!"))
  /\ (forall r0 p0 q0 limit0,
         0 <= r0 <= 1024 ->
         irrational_continous_frac binary64 (r0 * r0) p0 q0 limit0
         = Raise (ValueError "D is perfect square!"))
  /\ (r * r <> d ->
      forall a o,
        quotient_int fl sd p q = Ok a ->
        orbit fl (Z.to_nat limit) d sd (fr_of_Z p) (fr_of_Z q) a = Ok o ->
        NoDup (map fst o) ->
        irrational_continous_frac fl d p q limit
        = Raise (ValueError ("Repetend is longer than " ++ decimal limit
                             ++ ", please try higher limit!")))
  /\ ValueError "D is perfect square!"
     <> ValueError ("Repetend is longer than " ++ decimal limit
                    ++ ", please try higher limit!")
  /\ class_of (ValueError "D is perfect square!")
     = class_of (ValueError ("Repetend is longer than " ++ decimal limit
                             ++ ", please try higher limit!")).
Proof.
  intros Hsd Hr. split; [|split; [|split; [|apply failure_messages]]].
  - intros Hsq. unfold irrational_continous_frac.
    rewrite Hsd. cbn [bind]. rewrite Hr. cbn [bind].
    destruct (Z.eqb_spec (r * r) d) as [_|?]; [reflexivity | contradiction].
  - intros r0 p0 q0 limit0 Hr0. apply small_square_refused. exact Hr0.
  - intros Hns a o Ha Ho Hnd. unfold irrational_continous_frac.
    rewrite Hsd. cbn [bind]. rewrite Hr. cbn [bind].
    destruct (Z.eqb_spec (r * r) d) as [?|_]; [contradiction|].
    rewrite Ha. cbn [bind].
    rewrite (irrational_loop_no_cycle d sd (Z.to_nat limit)
               (fr_of_Z p) (fr_of_Z q) a [a] [] o Ho Hnd).
    reflexivity.
Qed.

End Failures.

Lemma irrational_continous_frac_failures_witness :
  (sqrt_int binary64 4 = Ok PrimFloat.two
   /\ int_of_float binary64 PrimFloat.two = Ok 2
   /\ 2 * 2 = 4
   /\ irrational_continous_frac binary64 4 0 1 1
      = Raise (ValueError "D is perfect square!"))
  /\ (0 <= 31 <= 1024
      /\ irrational_continous_frac binary64 (31 * 31) 0 1 100
         = Raise (ValueError "D is perfect square!"))
  /\ (sqrt_int binary64 2 = Ok (PrimFloat.sqrt PrimFloat.two)
      /\ int_of_float binary64 (PrimFloat.sqrt PrimFloat.two) = Ok 1
      /\ 1 * 1 <> 2
      /\ quotient_int binary64 (PrimFloat.sqrt PrimFloat.two) 0 1 = Ok 1
      /\ orbit binary64 (Z.to_nat 1) 2 (PrimFloat.sqrt PrimFloat.two)
           (fr_of_Z 0) (fr_of_Z 1) 1
         = Ok [(mkFraction 1 1, mkFraction 1 1, 2)]
      /\ NoDup (map fst [(mkFraction 1 1, mkFraction 1 1, 2)])
      /\ irrational_continous_frac binary64 2 0 1 1
         = Raise (ValueError ("Repetend is longer than " ++ decimal 1
                              ++ ", please try higher limit!"))).
Proof.
  assert (S4 : sqrt_int binary64 4 = Ok PrimFloat.two)
    by (vm_compute; reflexivity).
  assert (R4 : int_of_float binary64 PrimFloat.two = Ok 2)
    by (vm_compute; reflexivity).
  assert (E4 : 2 * 2 = 4) by reflexivity.
  assert (S2 : sqrt_int binary64 2 = Ok (PrimFloat.sqrt PrimFloat.two))
    by (vm_compute; reflexivity).
  assert (R2 : int_of_float binary64 (PrimFloat.sqrt PrimFloat.two) = Ok 1)
    by (vm_compute; reflexivity).
  assert (E2 : 1 * 1 <> 2) by discriminate.
  assert (A2 : quotient_int binary64 (PrimFloat.sqrt PrimFloat.two) 0 1
               = Ok 1) by (vm_compute; reflexivity).
  assert (O2 : orbit binary64 (Z.to_nat 1) 2 (PrimFloat.sqrt PrimFloat.two)
                 (fr_of_Z 0) (fr_of_Z 1) 1
               = Ok [(mkFraction 1 1, mkFraction 1 1, 2)])
    by (vm_compute; reflexivity).
  assert (N2 : NoDup (map fst [(mkFraction 1 1, mkFraction 1 1, 2)])).
  { cbn [map fst]. constructor; [intros [] | constructor]. }
  assert (B : 0 <= 31 <= 1024) by lia.
  split; [|split].
  - split; [exact S4|]. split; [exact R4|]. split; [exact E4|].
    exact (proj1 (irrational_continous_frac_failures binary64 4 0 1 1
                    PrimFloat.two 2 S4 R4) E4).
  - split; [exact B|].
    exact (proj1 (proj2 (irrational_continous_frac_failures binary64 4 0 1 1
                           PrimFloat.two 2 S4 R4)) 31 0 1 100 B).
  - split; [exact S2|]. split; [exact R2|]. split; [exact E2|].
    split; [exact A2|]. split; [exact O2|]. split; [exact N2|].
    exact (proj1 (proj2 (proj2
             (irrational_continous_frac_failures binary64 2 0 1 1
                (PrimFloat.sqrt PrimFloat.two) 1 S2 R2)))
             E2 1 [(mkFraction 1 1, mkFraction 1 1, 2)] A2 O2 N2).
Defined.

(** C4, as stated, fails on the kind of the second failure: running out of
    rounds on [sqrt 2] with [limit = 1] raises a [ValueError], the very
    exception class of the domain error raised for the perfect square 4. *)
Lemma irrational_limit_is_value_error :
  exists e_limit e_domain,
    irrational_continous_frac binary64 2 0 1 1 = Raise e_limit
    /\ irrational_continous_frac binary64 4 0 1 1 = Raise e_domain
    /\ class_of e_limit = class_of e_domain.
Proof.
  exists (ValueError "Repetend is longer than 1, please try higher limit!"),
         (ValueError "D is perfect square!").
  repeat apply conj; vm_compute; reflexivity.
Qed.

(** With one more round the same call returns: [sqrt 2 = [1; (2)]]. *)
Example irrational_sqrt2 :
  irrational_continous_frac binary64 2 0 1 2 = Ok ([1], [2]).
Proof. vm_compute. reflexivity. Qed.

Example irrational_sqrt7 :
  irrational_continous_frac binary64 7 0 1 10 = Ok ([2], [1; 1; 1; 4]).
Proof. vm_compute. reflexivity. Qed.

(** The test [int(sd) * int(sd) == d] is made on the rounded root: the
    perfect square [(10^20 + 3)^2] has [int(sd) = 10^20], passes the test
    and is expanded. *)
Example irrational_large_square :
  irrational_continous_frac binary64 ((10 ^ 20 + 3) ^ 2) 0 1 100
  = Ok ([10 ^ 20], [0; 0]).
Proof. vm_compute. reflexivity. Qed.

(** A [p] beyond the range of [float] makes [p + sd] raise. *)
Example irrational_overflow :
  irrational_continous_frac binary64 2 (10 ^ 400) 1 100 = Raise OverflowError.
Proof. vm_compute. reflexivity. Qed.

End Irrational.

Section SumFloor.

Lemma floordiv_ok (a b : Z) : b <> 0 -> floordiv a b = Ok (a / b).
Proof.
  intros H. unfold floordiv. destruct (Z.eqb_spec b 0); [contradiction|reflexivity].
Qed.

Lemma zsum_cons (x : Z) (l : list Z) : zsum (x :: l) = x + zsum l.
Proof. reflexivity. Qed.

Lemma zsum_map_ext (f g : Z -> Z) (l : list Z) :
  (forall x, In x l -> f x = g x) -> zsum (map f l) = zsum (map g l).
Proof. intros H. f_equal. apply map_ext_in. exact H. Qed.

Lemma zsum_map_add (f g : Z -> Z) (l : list Z) :
  zsum (map (fun x => f x + g x) l) = zsum (map f l) + zsum (map g l).
Proof. induction l as [|x l IH]; simpl; lia. Qed.

Lemma zsum_map_zero (f : Z -> Z) (l : list Z) :
  (forall x, In x l -> f x = 0) -> zsum (map f l) = 0.
Proof.
  induction l as [|x l IH]; intros H; simpl; [reflexivity|].
  rewrite (H x) by (left; reflexivity).
  rewrite IH by (intros; apply H; right; assumption). reflexivity.
Qed.

(** The sum of [x * [v = x]] over a range that contains [v] is [v]. *)
Lemma zsum_indicator (v lo hi : Z) :
  lo <= v < hi ->
  zsum (map (fun x => x * (if v =? x then 1 else 0)) (range lo hi)) = v.
Proof.
  intros H. rewrite (range_app lo v hi) by lia.
  rewrite (range_cons v hi) by lia.
  rewrite map_app, zsum_app. cbn [map zsum fold_right].
  rewrite Z.eqb_refl.
  rewrite !zsum_map_zero.
  - lia.
  - intros x Hx. apply in_range in Hx.
    destruct (Z.eqb_spec v x); lia.
  - intros x Hx. apply in_range in Hx.
    destruct (Z.eqb_spec v x); lia.
Qed.

(** Summing [g] over a list is summing each value times the number of
    times it is taken. *)
Lemma zsum_by_value (g : Z -> Z) (ts : list Z) (lo hi : Z) :
  (forall t, In t ts -> lo <= g t < hi) ->
  zsum (map g ts) = zsum (map (fun x => x * count_value g ts x) (range lo hi)).
Proof.
  induction ts as [|t ts IH]; intros H.
  - simpl. symmetry. apply zsum_map_zero. intros x _.
    unfold count_value. simpl. lia.
  - cbn [map zsum fold_right]. fold (zsum (map g ts)).
    rewrite IH by (intros; apply H; right; assumption).
    rewrite <- (zsum_indicator (g t) lo hi) at 1 by (apply H; left; reflexivity).
    rewrite <- zsum_map_add. apply zsum_map_ext. intros x _.
    unfold count_value. cbn [filter].
    destruct (Z.eqb_spec (g t) x); cbn [List.length]; lia.
Qed.

(** How many elements of [a .. b] lie in the half-open interval
    [(lo, hi]]. *)
Lemma count_interval (a lo hi : Z) (k : nat) :
  Z.of_nat (List.length (filter (fun t => (lo <? t) && (t <=? hi))
                                (range a (a + Z.of_nat k))))
  = Z.max 0 (Z.min hi (a + Z.of_nat k - 1) - Z.max lo (a - 1)).
Proof.
  induction k as [|k IH].
  - rewrite range_nil by lia. simpl. lia.
  - replace (a + Z.of_nat (S k)) with (a + Z.of_nat k + 1) by lia.
    rewrite range_snoc by lia.
    rewrite filter_app, length_app, Nat2Z.inj_add, IH. cbn [filter].
    destruct (Z.ltb_spec lo (a + Z.of_nat k));
      destruct (Z.leb_spec (a + Z.of_nat k) hi); cbn [andb List.length]; lia.
Qed.

(** For positive [t] and [x], [n // t = x] says that [t] lies in
    [(n // (x + 1), n // x]]. *)
Lemma div_eq_iff_interval (n t x : Z) :
  0 < t -> 0 < x ->
  (n / t =? x) = (n / (x + 1) <? t) && (t <=? n / x).
Proof.
  intros Ht Hx.
  pose proof (Z.mul_div_le n t Ht) as H1.
  pose proof (Z.mul_succ_div_gt n t Ht) as H2.
  pose proof (Z.mul_div_le n x Hx) as H3.
  pose proof (Z.mul_succ_div_gt n x Hx) as H4.
  pose proof (Z.mul_div_le n (x + 1) ltac:(lia)) as H5.
  pose proof (Z.mul_succ_div_gt n (x + 1) ltac:(lia)) as H6.
  destruct (Z.eqb_spec (n / t) x) as [E|E];
    destruct (Z.ltb_spec (n / (x + 1)) t) as [L|L];
    destruct (Z.leb_spec t (n / x)) as [U|U]; cbn [andb]; try reflexivity;
    exfalso; nia.
Qed.

(** The number of [t] in [a .. b] with [n // t = x]. *)
Lemma count_quotient (n a b x : Z) :
  0 < a -> a <= b + 1 -> 0 < x ->
  count_value (fun t => n / t) (range a (b + 1)) x
  = Z.max 0 (Z.min (n / x) b - Z.max (n / (x + 1)) (a - 1)).
Proof.
  intros Ha Hab Hx. unfold count_value.
  rewrite (filter_ext_in _ (fun t => (n / (x + 1) <? t) && (t <=? n / x))).
  - replace (b + 1) with (a + Z.of_nat (Z.to_nat (b + 1 - a))) by lia.
    rewrite count_interval. f_equal. lia.
  - intros t Ht. apply in_range in Ht. apply div_eq_iff_interval; lia.
Qed.

(** The hyperbola identity: the naive sum over [a .. b], regrouped by the
    value [x] of the quotient. *)
Lemma naive_by_quotient (n a b lo hi : Z) :
  0 < a -> a <= b + 1 -> 0 < lo ->
  (forall t, a <= t <= b -> lo <= n / t < hi) ->
  naive_sum_floor n a b
  = zsum (map (fun x => x * Z.max 0 (Z.min (n / x) b - Z.max (n / (x + 1)) (a - 1)))
              (range lo hi)).
Proof.
  intros Ha Hab Hlo Hval. unfold naive_sum_floor.
  rewrite (zsum_by_value (fun t => n / t) _ lo hi).
  - apply zsum_map_ext. intros x Hx. apply in_range in Hx.
    rewrite count_quotient by lia. reflexivity.
  - intros t Ht. apply in_range in Ht. apply Hval. lia.
Qed.

Lemma naive_sum_floor_split (n a m b : Z) :
  a <= m + 1 -> m <= b ->
  naive_sum_floor n a b = naive_sum_floor n a m + naive_sum_floor n (m + 1) b.
Proof.
  intros H1 H2. unfold naive_sum_floor.
  rewrite (range_app a (m + 1) (b + 1)) by lia.
  rewrite map_app, zsum_app. reflexivity.
Qed.

(** Beyond [n] every quotient is 0. *)
Lemma naive_sum_floor_tail (n a b : Z) :
  0 <= n < a -> naive_sum_floor n a b = 0.
Proof.
  intros H. unfold naive_sum_floor. apply zsum_map_zero.
  intros x Hx. apply in_range in Hx. apply Z.div_small. lia.
Qed.

Lemma direct_loop (n : Z) (l : list Z) :
  forall res,
    (forall x, In x l -> x <> 0) ->
    for_each (sf_direct_body n) l res
    = Ok (res + zsum (map (fun x => n / x) l)).
Proof.
  induction l as [|x l IH]; intros res H.
  - simpl. f_equal. lia.
  - cbn [for_each]. unfold sf_direct_body at 1.
    rewrite floordiv_ok by (apply H; left; reflexivity). cbn [bind].
    rewrite IH by (intros; apply H; right; assumption).
    f_equal. simpl. lia.
Qed.

(** The loop of the second regime adds, for each quotient [x], [x] times
    the number [min(n // x, xmax) - max(n // (x + 1), xmin - 1)]. *)
Lemma inverted_loop (n xmin xmax : Z) (k : nat) :
  forall lo st,
    0 < lo -> sf_a1 st = n / lo ->
    exists st',
      for_each (sf_inverted_body n xmin xmax) (range lo (lo + Z.of_nat k)) st
      = Ok st'
      /\ sf_res st'
         = sf_res st
           + zsum (map (fun x => (Z.min (n / x) xmax
                                  - Z.max (n / (x + 1)) (xmin - 1)) * x)
                       (range lo (lo + Z.of_nat k))).
Proof.
  induction k as [|k IH]; intros lo st Hlo Ha1.
  - rewrite range_nil by lia. exists st. simpl. split; [reflexivity | lia].
  - rewrite range_cons by lia. cbn [for_each].
    unfold sf_inverted_body at 1. rewrite floordiv_ok by lia. cbn [bind].
    match goal with |- context [for_each _ _ ?s] => set (st1 := s) end.
    destruct (IH (lo + 1) st1 ltac:(lia) eq_refl) as (st' & Hrun & Hres).
    replace (lo + 1 + Z.of_nat k) with (lo + Z.of_nat (S k)) in Hrun, Hres by lia.
    exists st'. split; [exact Hrun|]. rewrite Hres. subst st1.
    cbn [sf_res map]. rewrite !zsum_cons, Ha1.
    assert (E1 : (if n / lo <? xmax then n / lo else xmax) = Z.min (n / lo) xmax)
      by (destruct (Z.ltb_spec (n / lo) xmax); lia).
    assert (E2 : (if xmin - 1 <=? n / (lo + 1) then n / (lo + 1) else xmin - 1)
                 = Z.max (n / (lo + 1)) (xmin - 1))
      by (destruct (Z.leb_spec (xmin - 1) (n / (lo + 1))); lia).
    rewrite E1, E2. ring.
Qed.

(** The loop of the third regime adds [n // x] for [x >= xmin] and, when
    [n // (x + 1) < xmax], [x] times [min(n // x, xmax) - n // (x + 1)]. *)
Lemma straddle_loop (n xmin xmax : Z) (k : nat) :
  forall lo st,
    0 < lo -> sf_a1 st = n / lo ->
    exists st',
      for_each (sf_straddle_body n xmin xmax) (range lo (lo + Z.of_nat k)) st
      = Ok st'
      /\ sf_res st'
         = sf_res st
           + zsum (map (fun x => if xmin <=? x then n / x else 0)
                       (range lo (lo + Z.of_nat k)))
           + zsum (map (fun x => if n / (x + 1) <? xmax
                                 then (Z.min (n / x) xmax - n / (x + 1)) * x
                                 else 0)
                       (range lo (lo + Z.of_nat k)))
      /\ sf_x st' = match k with
                    | O => sf_x st
                    | S k' => Some (lo + Z.of_nat k')
                    end.
Proof.
  induction k as [|k IH]; intros lo st Hlo Ha1.
  - rewrite range_nil by lia. exists st. simpl. repeat split; lia.
  - rewrite range_cons by lia. cbn [for_each].
    unfold sf_straddle_body at 1. rewrite floordiv_ok by lia. cbn [bind].
    match goal with |- context [for_each _ _ ?s] => set (st1 := s) end.
    destruct (IH (lo + 1) st1 ltac:(lia) eq_refl) as (st' & Hrun & Hres & Hx).
    replace (lo + 1 + Z.of_nat k) with (lo + Z.of_nat (S k)) in Hrun, Hres by lia.
    exists st'. split; [exact Hrun|]. split.
    + rewrite Hres. subst st1.
      cbn [sf_res map]. rewrite !zsum_cons, Ha1.
      assert (E1 : (if n / lo <? xmax then n / lo else xmax) = Z.min (n / lo) xmax)
        by (destruct (Z.ltb_spec (n / lo) xmax); lia).
      rewrite E1.
      destruct (Z.leb_spec xmin lo);
        destruct (Z.ltb_spec (n / (lo + 1)) xmax); ring.
    + rewrite Hx. destruct k as [|k']; subst st1; cbn [sf_x]; f_equal; lia.
Qed.

(** Second regime: each quotient [x] between [n // xmax] and [n // xmin] is
    taken exactly [min(n // x, xmax) - max(n // (x + 1), xmin - 1)] times. *)
Lemma inverted_sum (n a b : Z) :
  0 < a -> a <= b -> b <= n ->
  zsum (map (fun x => (Z.min (n / x) b - Z.max (n / (x + 1)) (a - 1)) * x)
            (range (n / b) (n / a + 1)))
  = naive_sum_floor n a b.
Proof.
  intros Ha Hab Hbn.
  assert (Hlo : 0 < n / b) by (apply Z.div_str_pos; lia).
  rewrite (naive_by_quotient n a b (n / b) (n / a + 1)); try lia.
  - apply zsum_map_ext. intros x Hx. apply in_range in Hx.
    assert (H1 : a <= n / x).
    { apply Z.div_le_lower_bound; [lia|].
      pose proof (Z.mul_div_le n a Ha). nia. }
    assert (H2 : n / (x + 1) < b).
    { apply Z.div_lt_upper_bound; [lia|].
      pose proof (Z.mul_succ_div_gt n b ltac:(lia)). nia. }
    assert (H3 : n / (x + 1) <= n / x) by (apply Z.div_le_compat_l; lia).
    replace (Z.max 0 (Z.min (n / x) b - Z.max (n / (x + 1)) (a - 1)))
      with (Z.min (n / x) b - Z.max (n / (x + 1)) (a - 1)) by lia.
    ring.
  - intros t Ht.
    assert (n / b <= n / t) by (apply Z.div_le_compat_l; lia).
    assert (n / t <= n / a) by (apply Z.div_le_compat_l; lia).
    lia.
Qed.

(** Third regime, the terms [n // x] added for [x >= xmin]. *)
Lemma straddle_direct_sum (n a rx s : Z) :
  rx <= a -> a <= s + 1 ->
  zsum (map (fun x => if a <=? x then n / x else 0) (range rx (s + 1)))
  = naive_sum_floor n a s.
Proof.
  intros H1 H2. rewrite (range_app rx a (s + 1)) by lia.
  rewrite map_app, zsum_app, zsum_map_zero.
  - unfold naive_sum_floor. simpl. apply zsum_map_ext.
    intros x Hx. apply in_range in Hx.
    destruct (Z.leb_spec a x); [reflexivity | lia].
  - intros x Hx. apply in_range in Hx.
    destruct (Z.leb_spec a x); [lia | reflexivity].
Qed.

(** Third regime, the terms added for the quotients [x <= nrt]: they count
    the [t] above [nrt], and [t = nrt] once more exactly when
    [nrt = n // nrt], which the final subtraction takes back. *)
Lemma straddle_inverted_sum (n b rx : Z) :
  0 < n -> 0 < rx <= Z.sqrt n -> Z.sqrt n < b -> b <= n -> rx <= n / b ->
  zsum (map (fun x => if n / (x + 1) <? b
                      then (Z.min (n / x) b - n / (x + 1)) * x
                      else 0)
            (range rx (Z.sqrt n + 1)))
  - (if Z.sqrt n =? n / Z.sqrt n then Z.sqrt n else 0)
  = naive_sum_floor n (Z.sqrt n + 1) b.
Proof.
  intros Hn Hrx Hsb Hbn Hrxb.
  pose proof (Z.sqrt_spec n ltac:(lia)) as Hs. cbv zeta in Hs.
  set (s := Z.sqrt n) in *.
  rewrite (naive_by_quotient n (s + 1) b rx (s + 1)); try lia.
  - rewrite !range_snoc, !map_app, !zsum_app by lia.
    cbn [map]. rewrite !zsum_cons. cbn [zsum fold_right].
    replace (s + 1 - 1) with s by lia.
    rewrite (zsum_map_ext
               (fun x => if n / (x + 1) <? b
                         then (Z.min (n / x) b - n / (x + 1)) * x else 0)
               (fun x => x * Z.max 0 (Z.min (n / x) b - Z.max (n / (x + 1)) s))).
    + pose proof (Z.mul_div_le n s ltac:(lia)) as U1.
      pose proof (Z.mul_succ_div_gt n s ltac:(lia)) as U2.
      pose proof (Z.mul_div_le n (s + 1) ltac:(lia)) as W1.
      pose proof (Z.mul_succ_div_gt n (s + 1) ltac:(lia)) as W2.
      set (u := n / s) in *. set (w := n / (s + 1)) in *.
      destruct (Z.eqb_spec s u) as [E | E].
      * assert (Hw : w = s - 1) by nia.
        destruct (Z.ltb_spec w b); [|lia].
        replace (Z.min u b) with s by lia.
        replace (Z.max w s) with s by lia.
        rewrite Hw. replace (Z.max 0 (s - s)) with 0 by lia. ring.
      * assert (Hu : s + 1 <= u) by nia.
        assert (Hw : w = s) by nia.
        destruct (Z.ltb_spec w b); [|lia].
        replace (Z.max w s) with s by lia.
        replace (Z.max 0 (Z.min u b - s)) with (Z.min u b - s) by lia.
        rewrite Hw. ring.
    + intros x Hx. apply in_range in Hx.
      assert (H1 : s <= n / (x + 1)) by (apply Z.div_le_lower_bound; nia).
      assert (H2 : n / (x + 1) <= n / x) by (apply Z.div_le_compat_l; lia).
      replace (Z.max (n / (x + 1)) s) with (n / (x + 1)) by lia.
      destruct (Z.ltb_spec (n / (x + 1)) b).
      * replace (Z.max 0 (Z.min (n / x) b - n / (x + 1)))
          with (Z.min (n / x) b - n / (x + 1)) by lia.
        ring.
      * replace (Z.max 0 (Z.min (n / x) b - n / (x + 1))) with 0 by lia.
        ring.
  - intros t Ht.
    assert (n / b <= n / t) by (apply Z.div_le_compat_l; lia).
    assert (n / t <= n / (s + 1)) by (apply Z.div_le_compat_l; lia).
    assert (n / (s + 1) < s + 1) by (apply Z.div_lt_upper_bound; lia).
    lia.
Qed.

(** With [1 <= xmin <= xmax <= n] every regime gives the naive sum. *)
Lemma sum_floor_clamped (n xmin xmax : Z) :
  0 < n -> 1 <= xmin -> xmin <= xmax -> xmax <= n ->
  sum_floor n xmin xmax = Ok (naive_sum_floor n xmin xmax).
Proof.
  intros Hn Hmin Hle Hmax. unfold sum_floor, isqrt.
  destruct (Z.ltb_spec n 0) as [?|_]; [lia|]. cbn [bind].
  destruct (Z.ltb_spec n xmin) as [?|_]; [lia|].
  destruct (Z.ltb_spec n xmax) as [?|_]; [lia|].
  pose proof (Z.sqrt_spec n ltac:(lia)) as Hs. cbv zeta in Hs.
  pose proof (Z.sqrt_nonneg n) as Hs0.
  destruct (Z.leb_spec xmax (Z.sqrt n)) as [Hsmall | Hbig].
  - (* direct summation *)
    rewrite direct_loop; [reflexivity|].
    intros x Hx. apply in_range in Hx. lia.
  - assert (Hrx : 0 < n / xmax) by (apply Z.div_str_pos; lia).
    rewrite (floordiv_ok n xmax) by lia. cbn [bind].
    destruct (Z.leb_spec (Z.sqrt n) xmin) as [Hhigh | Hlow].
    + (* inverted range *)
      rewrite (floordiv_ok n xmin), (floordiv_ok n (n / xmax)) by lia.
      cbn [bind].
      assert (Hord : n / xmax <= n / xmin) by (apply Z.div_le_compat_l; lia).
      replace (n / xmin + 1)
        with (n / xmax + Z.of_nat (Z.to_nat (n / xmin + 1 - n / xmax))) by lia.
      destruct (inverted_loop n xmin xmax
                  (Z.to_nat (n / xmin + 1 - n / xmax)) (n / xmax)
                  (mkSf None 0 (n / (n / xmax)) 0) Hrx eq_refl)
        as (st' & Hrun & Hres).
      rewrite Hrun. cbn [bind]. f_equal. rewrite Hres. cbn [sf_res].
      replace (n / xmax + Z.of_nat (Z.to_nat (n / xmin + 1 - n / xmax)))
        with (n / xmin + 1) by lia.
      rewrite inverted_sum by lia. lia.
    + (* the range straddles the square root *)
      set (rx := if xmin <? n / xmax then xmin else n / xmax).
      assert (Hrx' : 0 < rx /\ rx <= xmin /\ rx <= n / xmax)
        by (unfold rx; destruct (Z.ltb_spec xmin (n / xmax)); lia).
      rewrite (floordiv_ok n rx) by lia. cbn [bind].
      replace (Z.sqrt n + 1)
        with (rx + Z.of_nat (S (Z.to_nat (Z.sqrt n - rx)))) at 1 by lia.
      destruct (straddle_loop n xmin xmax (S (Z.to_nat (Z.sqrt n - rx))) rx
                  (mkSf None 0 (n / rx) 0) ltac:(lia) eq_refl)
        as (st' & Hrun & Hres & Hx).
      rewrite Hrun. cbn [bind]. rewrite Hx.
      replace (rx + Z.of_nat (Z.to_nat (Z.sqrt n - rx))) with (Z.sqrt n) by lia.
      rewrite (floordiv_ok n (Z.sqrt n)) by lia. cbn [bind]. f_equal.
      replace (rx + Z.of_nat (S (Z.to_nat (Z.sqrt n - rx))))
        with (Z.sqrt n + 1) in Hres by lia.
      rewrite straddle_direct_sum in Hres by lia.
      pose proof (straddle_inverted_sum n xmax rx Hn ltac:(lia) Hbig Hmax
                    ltac:(lia)) as Hinv.
      rewrite (naive_sum_floor_split n xmin (Z.sqrt n) xmax) by lia.
      rewrite <- Hinv. cbn [sf_res] in Hres.
      destruct (Z.eqb_spec (Z.sqrt n) (n / Z.sqrt n)); lia.
Qed.

(** C1, as amended: for a positive [n] and [1 <= xmin <= xmax],
    [sum_floor] returns the naive sum of [n // x] for [x] from [xmin] to
    [xmax], in each of its three regimes, the terms beyond [n], all zero,
    included. *)
Theorem sum_floor_spec (n xmin xmax : Z) :
  0 < n -> 1 <= xmin -> xmin <= xmax ->
  sum_floor n xmin xmax = Ok (naive_sum_floor n xmin xmax).
Proof.
  intros Hn Hmin Hle.
  destruct (Z_lt_le_dec n xmax) as [Hbig | Hsmall];
    [|apply sum_floor_clamped; assumption].
  destruct (Z_lt_le_dec n xmin) as [Hout | Hin].
  - rewrite naive_sum_floor_tail by lia.
    unfold sum_floor, isqrt.
    destruct (Z.ltb_spec n 0) as [?|_]; [lia|]. cbn [bind].
    destruct (Z.ltb_spec n xmin) as [_|?]; [reflexivity | lia].
  - rewrite (naive_sum_floor_split n xmin n xmax) by lia.
    rewrite (naive_sum_floor_tail n (n + 1) xmax), Z.add_0_r by lia.
    rewrite <- (sum_floor_clamped n xmin n) by lia.
    unfold sum_floor, isqrt.
    destruct (Z.ltb_spec n 0) as [?|_]; [lia|]. cbn [bind].
    destruct (Z.ltb_spec n xmin) as [?|_]; [lia|].
    destruct (Z.ltb_spec n xmax) as [_|?]; [|lia].
    destruct (Z.ltb_spec n n) as [?|_]; [lia|]. reflexivity.
Qed.

Lemma sum_floor_spec_witness :
  0 < 30 /\ 1 <= 3 /\ 3 <= 40
  /\ sum_floor 30 3 40 = Ok (naive_sum_floor 30 3 40).
Proof.
  repeat (split; [lia|]). apply (sum_floor_spec 30 3 40); lia.
Defined.

(** C1, as stated, fails at [xmin = 0]: the first division is by zero and
    the call raises instead of returning a sum. *)
Lemma sum_floor_xmin_zero :
  0 < 5 /\ 0 <= 0 <= 3 /\ sum_floor 5 0 3 = Raise ZeroDivisionError.
Proof. repeat apply conj; try lia. vm_compute. reflexivity. Qed.

(** One run in each regime. *)
Example sum_floor_direct : sum_floor 100 2 9 = Ok 181.
Proof. vm_compute. reflexivity. Qed.

Example sum_floor_inverted : sum_floor 100 10 100 = Ok 201.
Proof. vm_compute. reflexivity. Qed.

Example sum_floor_straddle : sum_floor 100 1 100 = Ok 482.
Proof. vm_compute. reflexivity. Qed.

End SumFloor.

(** * Further properties of [formula.py] *)

Section Products.

Lemma fold_mul_acc (l : list Z) (acc : Z) :
  fold_left (fun output i => output * i) l acc = acc * cprod l.
Proof.
  unfold cprod. revert acc.
  induction l as [|x l IH]; intros acc; cbn [fold_left].
  - ring.
  - rewrite IH, (IH (1 * x)). ring.
Qed.

Lemma cprod_app (l1 l2 : list Z) : cprod (l1 ++ l2) = cprod l1 * cprod l2.
Proof.
  unfold cprod at 1. rewrite fold_left_app, fold_mul_acc.
  unfold cprod at 2. reflexivity.
Qed.

Lemma cprod_cons (x : Z) (l : list Z) : cprod (x :: l) = x * cprod l.
Proof.
  unfold cprod at 1. cbn [fold_left]. rewrite fold_mul_acc. ring.
Qed.

Lemma cprod_zero_iff (l : list Z) : cprod l = 0 <-> In 0 l.
Proof.
  induction l as [|x l IH].
  - simpl. split; [discriminate | tauto].
  - rewrite cprod_cons. split.
    + intros H. apply Z.mul_eq_0 in H. destruct H as [H | H].
      * left. lia.
      * right. apply IH, H.
    + intros [-> | H]; [lia|]. apply IH in H. rewrite H. lia.
Qed.

(** X1: [cprod] of a concatenation is the product of the two [cprod]s, with
    [cprod([]) = 1] as the neutral value, and [cprod] is 0 exactly when some
    element of the sequence is 0. *)
Theorem cprod_product (l1 l2 : list Z) :
  cprod (l1 ++ l2) = cprod l1 * cprod l2
  /\ cprod [] = 1
  /\ (cprod l1 = 0 <-> In 0 l1).
Proof.
  split; [apply cprod_app|]. split; [reflexivity | apply cprod_zero_iff].
Qed.

Lemma zfact_fact (k : nat) : zfact (Z.of_nat k) = Z.of_nat (fact k).
Proof.
  induction k as [|k IH].
  - reflexivity.
  - rewrite zfact_succ by lia.
    replace (Z.of_nat (S k) - 1) with (Z.of_nat k) by lia.
    rewrite IH. cbn [fact]. lia.
Qed.

Lemma cprod_range_fact (k : nat) :
  cprod (range 1 (Z.of_nat k + 1)) = Z.of_nat (fact k).
Proof.
  induction k as [|k IH].
  - reflexivity.
  - replace (Z.of_nat (S k) + 1) with (Z.of_nat k + 1 + 1) by lia.
    rewrite range_snoc, cprod_app, IH by lia.
    rewrite cprod_cons. cbn [fact]. change (cprod []) with 1. lia.
Qed.

Lemma cprod_range_fact_Z (n : Z) :
  0 <= n -> cprod (range 1 (n + 1)) = Z.of_nat (fact (Z.to_nat n)).
Proof.
  intros H. rewrite <- cprod_range_fact, Z2Nat.id by lia. reflexivity.
Qed.

Lemma factorial_value (n : Z) :
  0 <= n -> _factorial n = Ok (cprod (range 1 (n + 1))).
Proof.
  intros H. unfold _factorial.
  destruct (Z.ltb_spec n 0) as [?|_]; [lia|].
  destruct (Z.eqb_spec n 0) as [-> | H0]; [reflexivity|].
  destruct (Z.eqb_spec n 1) as [-> | H1]; [reflexivity|]. cbn [orb].
  f_equal. rewrite (range_cons 1 (n + 1)) by lia. rewrite cprod_cons.
  change (1 + 1) with 2. unfold cprod. lia.
Qed.

(** X2: [_factorial] raises [ValueError] on a negative argument and nothing
    else; for [n >= 0] it returns the factorial of [n], which is also
    [cprod(range(1, n + 1))]. *)
Theorem factorial_spec (n : Z) :
  (n < 0 -> _factorial n = Raise (ValueError "n in n! must be positive!"))
  /\ (0 <= n ->
      _factorial n = Ok (Z.of_nat (fact (Z.to_nat n)))
      /\ _factorial n = Ok (cprod (range 1 (n + 1)))).
Proof.
  split.
  - intros H. unfold _factorial. destruct (Z.ltb_spec n 0); [reflexivity | lia].
  - intros H. rewrite factorial_value, cprod_range_fact_Z by lia. auto.
Qed.

Lemma factorial_spec_witness :
  (-3 < 0 /\ _factorial (-3) = Raise (ValueError "n in n! must be positive!"))
  /\ (0 <= 5
      /\ _factorial 5 = Ok (Z.of_nat (fact (Z.to_nat 5)))
      /\ _factorial 5 = Ok (cprod (range 1 (5 + 1)))).
Proof.
  split.
  - split; [lia|]. apply (proj1 (factorial_spec (-3))). lia.
  - split; [lia|]. apply (proj2 (factorial_spec 5)). lia.
Defined.

(** X3: away from the early return, for [n >= 0] and [m > 0] with [n >= 2]
    or [m >= 2], [fac_mod(n, m)] is [_factorial(n) % m], the factorial of
    [n] reduced modulo [m], a value in [0 .. m - 1]. *)
Theorem fac_mod_factorial (n m : Z) :
  0 <= n -> 0 < m -> 2 <= n \/ 2 <= m ->
  exists v,
    _factorial n = Ok v
    /\ v = Z.of_nat (fact (Z.to_nat n))
    /\ fac_mod n m = Ok (v mod m)
    /\ 0 <= v mod m < m.
Proof.
  intros Hn Hm Hc. exists (Z.of_nat (fact (Z.to_nat n))).
  split; [|split; [reflexivity|split]].
  - rewrite factorial_value, cprod_range_fact_Z by lia. reflexivity.
  - rewrite fac_mod_value by assumption.
    rewrite <- (Z2Nat.id n Hn) at 1. rewrite zfact_fact. reflexivity.
  - apply Z.mod_pos_bound. lia.
Qed.

Lemma fac_mod_factorial_witness :
  0 <= 6 /\ 0 < 7 /\ (2 <= 6 \/ 2 <= 7)
  /\ exists v,
       _factorial 6 = Ok v
       /\ v = Z.of_nat (fact (Z.to_nat 6))
       /\ fac_mod 6 7 = Ok (v mod 7)
       /\ 0 <= v mod 7 < 7.
Proof.
  split; [lia|]. split; [lia|]. split; [left; lia|].
  apply (fac_mod_factorial 6 7); [lia | lia | left; lia].
Defined.

(** X4: with a modulus [m > 0], [fac_mod] raises [ValueError] exactly when
    [n < 0]; with the modulus 0 it raises [ZeroDivisionError] for every
    [n >= 2], the early return answering 1 for [n = 0] and [n = 1]. *)
Theorem fac_mod_errors (n m : Z) :
  (0 < m -> (n < 0 <-> exists msg, fac_mod n m = Raise (ValueError msg)))
  /\ (2 <= n -> fac_mod n 0 = Raise ZeroDivisionError)
  /\ (n = 0 \/ n = 1 -> fac_mod n 0 = Ok 1).
Proof.
  split; [apply fac_mod_raises|]. split.
  - intros H. unfold fac_mod.
    destruct (Z.ltb_spec n 0) as [?|_]; [lia|].
    destruct (Z.eqb_spec n 0) as [?|_]; [lia|].
    destruct (Z.eqb_spec n 1) as [?|_]; [lia|]. cbn [orb].
    rewrite range_cons by lia. reflexivity.
  - intros [-> | ->]; reflexivity.
Qed.

Lemma fac_mod_errors_witness :
  (0 < 5 /\ (-1 < 0 <-> exists msg, fac_mod (-1) 5 = Raise (ValueError msg)))
  /\ (2 <= 4 /\ fac_mod 4 0 = Raise ZeroDivisionError)
  /\ ((1 = 0 \/ 1 = 1) /\ fac_mod 1 0 = Ok 1).
Proof.
  split; [|split].
  - split; [lia|]. apply (proj1 (fac_mod_errors (-1) 5)). lia.
  - split; [lia|]. apply (proj1 (proj2 (fac_mod_errors 4 0))). lia.
  - split; [right; reflexivity|].
    apply (proj2 (proj2 (fac_mod_errors 1 0))). right. reflexivity.
Defined.

End Products.

Section Ggcd.

(** The loop of [ggcd] ends with the greatest common divisor of [g] and the
    elements it has read, also when it stops early on 1. *)
Lemma ggcd_loop_spec (l : list Z) :
  forall g, 0 <= g ->
    0 <= ggcd_loop g l
    /\ (ggcd_loop g l | g)
    /\ (forall x, In x l -> (ggcd_loop g l | x))
    /\ (forall d, (d | g) -> (forall x, In x l -> (d | x)) -> (d | ggcd_loop g l)).
Proof.
  induction l as [|n l IH]; intros g Hg; cbn [ggcd_loop].
  - repeat split; auto; try apply Z.divide_refl. intros x [].
  - destruct (Z.eqb_spec (Z.gcd g n) 1) as [E | E].
    + repeat split; try lia; try apply Z.divide_1_l.
      * intros x _. apply Z.divide_1_l.
      * intros d Hd Hall. rewrite <- E. apply Z.gcd_greatest; [exact Hd|].
        apply Hall. left. reflexivity.
    + destruct (IH (Z.gcd g n) (Z.gcd_nonneg g n)) as (H0 & H1 & H2 & H3).
      repeat split; auto.
      * eapply Z.divide_trans; [exact H1 | apply Z.gcd_divide_l].
      * intros x [<- | Hx]; [|apply H2, Hx].
        eapply Z.divide_trans; [exact H1 | apply Z.gcd_divide_r].
      * intros d Hd Hall. apply H3.
        -- apply Z.gcd_greatest; [exact Hd | apply Hall; left; reflexivity].
        -- intros x Hx. apply Hall. right. exact Hx.
Qed.

(** X5: [ggcd] refuses a sequence of fewer than two integers with
    [ValueError]; on two or more it returns their greatest common divisor:
    a non-negative integer that divides every element and that every common
    divisor divides, the short cut on 1 included. *)
Theorem ggcd_spec (seq : list Z) :
  ((List.length seq < 2)%nat ->
   ggcd seq = Raise (ValueError "There should be at least 2 integers!"))
  /\ ((2 <= List.length seq)%nat ->
      exists g,
        ggcd seq = Ok g
        /\ 0 <= g
        /\ (forall x, In x seq -> (g | x))
        /\ (forall d, (forall x, In x seq -> (d | x)) -> (d | g))).
Proof.
  unfold ggcd.
  assert (Hin : forall x, In x seq <-> In x (rev seq))
    by (intros x; apply in_rev).
  rewrite <- (length_rev seq).
  destruct (rev seq) as [|s0 [|s1 front]] eqn:Hrev; cbn [List.length].
  - split; [reflexivity | lia].
  - split; [reflexivity | lia].
  - split; [lia|]. intros _.
    assert (Hpair : 0 <= Z.gcd s1 s0
                    /\ (Z.gcd s1 s0 | s0) /\ (Z.gcd s1 s0 | s1)).
    { split; [apply Z.gcd_nonneg|].
      split; [apply Z.gcd_divide_r | apply Z.gcd_divide_l]. }
    destruct Hpair as (Hg0 & Hd0 & Hd1).
    destruct front as [|s2 front].
    + exists (Z.gcd s1 s0). repeat split; auto.
      * intros x Hx. apply Hin in Hx. destruct Hx as [<- | [<- | []]]; auto.
      * intros d Hall. apply Z.gcd_greatest; apply Hall, Hin; simpl; auto.
    + destruct (Z.eqb_spec (Z.gcd s1 s0) 1) as [E | E].
      * exists (Z.gcd s1 s0). rewrite E. repeat split; try lia.
        -- intros x _. apply Z.divide_1_l.
        -- intros d Hall. rewrite <- E.
           apply Z.gcd_greatest; apply Hall, Hin; simpl; auto.
      * destruct (ggcd_loop_spec (rev (s2 :: front)) (Z.gcd s1 s0) Hg0)
          as (H0 & H1 & H2 & H3).
        exists (ggcd_loop (Z.gcd s1 s0) (rev (s2 :: front))).
        repeat split; auto.
        -- intros x Hx. apply Hin in Hx. destruct Hx as [<- | [<- | Hx]].
           ++ eapply Z.divide_trans; [exact H1 | exact Hd0].
           ++ eapply Z.divide_trans; [exact H1 | exact Hd1].
           ++ apply H2. apply in_rev in Hx. exact Hx.
        -- intros d Hall. apply H3.
           ++ apply Z.gcd_greatest; apply Hall, Hin; simpl; auto.
           ++ intros x Hx. apply Hall, Hin. right. right.
              apply in_rev. exact Hx.
Qed.

Lemma ggcd_spec_witness :
  ((List.length [12] < 2)%nat
   /\ ggcd [12] = Raise (ValueError "There should be at least 2 integers!"))
  /\ ((2 <= List.length [12; 18; 30; 42])%nat
      /\ exists g,
           ggcd [12; 18; 30; 42] = Ok g
           /\ 0 <= g
           /\ (forall x, In x [12; 18; 30; 42] -> (g | x))
           /\ (forall d, (forall x, In x [12; 18; 30; 42] -> (d | x)) -> (d | g))).
Proof.
  assert (H1 : (List.length [12] < 2)%nat) by (simpl; lia).
  assert (H2 : (2 <= List.length [12; 18; 30; 42])%nat) by (simpl; lia).
  split.
  - split; [exact H1|]. exact (proj1 (ggcd_spec [12]) H1).
  - split; [exact H2|]. exact (proj2 (ggcd_spec [12; 18; 30; 42]) H2).
Defined.

End Ggcd.

Section Legendre.

Variable pow_negative : Z -> Z -> Z -> result Z.

(** An odd prime [p] has [p - 1 = 2 * ((p - 1) >> 1)]. *)
Lemma odd_prime_half (p : Z) :
  Z.prime p -> p <> 2 ->
  3 <= p /\ 0 <= Z.shiftr (p - 1) 1 /\ 2 * Z.shiftr (p - 1) 1 = p - 1.
Proof.
  intros Hp H2. pose proof (Z.prime_ge_2 p Hp) as Hge.
  rewrite Z.shiftr_div_pow2 by lia. change (2 ^ 1) with 2.
  assert (Hodd : p mod 2 = 1).
  { pose proof (Z.mod_pos_bound p 2 ltac:(lia)) as Hb.
    destruct (Z.eq_dec (p mod 2) 0) as [E|E]; [|lia].
    assert (Hd : (2 | p)).
    { exists (p / 2). rewrite (Z.div_mod p 2) at 1 by lia. lia. }
    apply (Z.divide_prime_r 2 p Hp) in Hd. lia. }
  pose proof (Z.div_mod p 2 ltac:(lia)) as Hdm.
  assert (E : (p - 1) / 2 = p / 2).
  { symmetry. apply (Z.div_unique (p - 1) 2 (p / 2) 0); lia. }
  rewrite E. lia.
Qed.

(** The power the function computes, for an odd prime modulus. *)
Lemma legendre_unfold (a p : Z) :
  Z.prime p -> p <> 2 -> a mod p <> 0 ->
  legendre_symbol pow_negative a p
  = Ok (if (a mod p) ^ Z.shiftr (p - 1) 1 mod p =? p - 1
        then -1
        else (a mod p) ^ Z.shiftr (p - 1) 1 mod p).
Proof.
  intros Hp H2 Ha. destruct (odd_prime_half p Hp H2) as (Hge & He & _).
  unfold legendre_symbol, pymod, pow3.
  destruct (Z.eqb_spec p 2) as [?|_]; [contradiction|].
  destruct (Z.eqb_spec p 0) as [?|_]; [lia|]. cbn [bind].
  destruct (Z.eqb_spec (a mod p) 0) as [?|_]; [contradiction|].
  destruct (Z.ltb_spec (Z.shiftr (p - 1) 1) 0) as [?|_]; [lia|]. cbn [bind].
  destruct (_ =? _); reflexivity.
Qed.

(** X6: for a prime [p], [legendre_symbol(a, p)] is 1 whenever [a] is a
    square modulo [p] (the multiples of [p] and [p = 2] included); so an
    answer of -1 certifies that [a] is not a square modulo [p]. *)
Theorem legendre_symbol_residue (a p : Z) :
  Z.prime p ->
  ((exists b, (b * b) mod p = a mod p) ->
   legendre_symbol pow_negative a p = Ok 1)
  /\ (legendre_symbol pow_negative a p = Ok (-1) ->
      forall b, (b * b) mod p <> a mod p).
Proof.
  intros Hp.
  assert (Hres : (exists b, (b * b) mod p = a mod p) ->
                 legendre_symbol pow_negative a p = Ok 1).
  { intros [b Hb]. pose proof (Z.prime_ge_2 p Hp) as Hge.
    destruct (Z.eq_dec p 2) as [-> | H2]; [reflexivity|].
    destruct (Z.eq_dec (a mod p) 0) as [Ha | Ha].
    { unfold legendre_symbol, pymod.
      destruct (Z.eqb_spec p 2) as [?|_]; [contradiction|].
      destruct (Z.eqb_spec p 0) as [?|_]; [lia|]. cbn [bind].
      rewrite Ha. reflexivity. }
    destruct (odd_prime_half p Hp H2) as (_ & He & H2e).
    rewrite legendre_unfold by assumption.
    assert (Hbnz : b mod p <> 0).
    { intros E. apply Ha. rewrite <- Hb, Z.mul_mod, E by lia. reflexivity. }
    assert (Hone : (a mod p) ^ Z.shiftr (p - 1) 1 mod p = 1).
    { rewrite <- Hb, Z.mod_pow_l.
      rewrite <- Z.pow_2_r, <- Z.pow_mul_r, H2e by lia.
      apply ZmodInv.Z.fermat_nz; assumption. }
    rewrite Hone. destruct (Z.eqb_spec 1 (p - 1)); [lia | reflexivity]. }
  split; [exact Hres|].
  intros Hm b Hb. rewrite Hres in Hm by (exists b; exact Hb). discriminate.
Qed.

(** Euler's power [a^((p-1)/2)] is 1 or [p - 1] modulo an odd prime. *)
Lemma euler_power_sign (a p : Z) :
  Z.prime p -> p <> 2 -> a mod p <> 0 ->
  (a mod p) ^ Z.shiftr (p - 1) 1 mod p = 1
  \/ (a mod p) ^ Z.shiftr (p - 1) 1 mod p = p - 1.
Proof.
  intros Hp H2 Ha. destruct (odd_prime_half p Hp H2) as (Hge & He & H2e).
  set (x := (a mod p) ^ Z.shiftr (p - 1) 1 mod p).
  assert (Hx : 0 <= x < p) by (apply Z.mod_pos_bound; lia).
  assert (Hsq : (x * x) mod p = 1).
  { unfold x. rewrite <- Z.mul_mod, <- Z.pow_add_r by lia.
    replace (Z.shiftr (p - 1) 1 + Z.shiftr (p - 1) 1) with (p - 1) by lia.
    apply ZmodInv.Z.fermat_nz; [assumption|].
    rewrite Z.mod_mod by lia. exact Ha. }
  assert (Hdiv : (p | (x - 1) * (x + 1))).
  { exists (x * x / p). pose proof (Z.div_mod (x * x) p ltac:(lia)). lia. }
  apply Z.divide_prime_mul in Hdiv; [|exact Hp].
  destruct Hdiv as [[k Hk] | [k Hk]].
  - assert (k = 0) by nia. left. lia.
  - assert (k = 1) by nia. right. lia.
Qed.

(** X7: for an odd prime [p] and an [a] that [p] does not divide,
    [legendre_symbol(a, p)] is 1 or -1, whatever the residue. *)
Theorem legendre_symbol_sign (a p : Z) :
  Z.prime p -> p <> 2 -> a mod p <> 0 ->
  legendre_symbol pow_negative a p = Ok 1
  \/ legendre_symbol pow_negative a p = Ok (-1).
Proof.
  intros Hp H2 Ha. destruct (odd_prime_half p Hp H2) as (Hge & _ & _).
  rewrite legendre_unfold by assumption.
  destruct (euler_power_sign a p Hp H2 Ha) as [-> | ->].
  - left. destruct (Z.eqb_spec 1 (p - 1)); [lia | reflexivity].
  - right. rewrite Z.eqb_refl. reflexivity.
Qed.

(** X25: on the residues prime to an odd prime [p], [legendre_symbol] is
    multiplicative: the symbol of [a * b] is the product of the symbols of
    [a] and [b]. *)
Theorem legendre_symbol_multiplicative (a b p : Z) :
  Z.prime p -> p <> 2 -> a mod p <> 0 -> b mod p <> 0 ->
  exists u v,
    legendre_symbol pow_negative a p = Ok u
    /\ legendre_symbol pow_negative b p = Ok v
    /\ legendre_symbol pow_negative (a * b) p = Ok (u * v).
Proof.
  intros Hp H2 Ha Hb. destruct (odd_prime_half p Hp H2) as (Hge & He & _).
  assert (Hab : (a * b) mod p <> 0).
  { intros E. apply Z.mod_divide in E; [|lia].
    apply Z.divide_prime_mul in E; [|exact Hp].
    destruct E as [E | E]; apply Z.mod_divide in E; lia. }
  rewrite !legendre_unfold by assumption.
  assert (Hprod : ((a * b) mod p) ^ Z.shiftr (p - 1) 1 mod p
                  = ((a mod p) ^ Z.shiftr (p - 1) 1 mod p
                     * ((b mod p) ^ Z.shiftr (p - 1) 1 mod p)) mod p).
  { rewrite <- Z.mul_mod, <- Z.pow_mul_l by lia.
    rewrite (Z.mul_mod a b) by lia. apply Z.mod_pow_l. }
  rewrite Hprod.
  destruct (euler_power_sign a p Hp H2 Ha) as [-> | ->];
    destruct (euler_power_sign b p Hp H2 Hb) as [-> | ->].
  - exists 1, 1. rewrite Z.mul_1_l, Z.mod_1_l by lia.
    destruct (Z.eqb_spec 1 (p - 1)); [lia | auto].
  - exists 1, (-1). rewrite Z.mul_1_l, Z.mod_small by lia.
    destruct (Z.eqb_spec 1 (p - 1)); [lia|]. rewrite Z.eqb_refl. auto.
  - exists (-1), 1. rewrite Z.mul_1_r, Z.mod_small by lia.
    destruct (Z.eqb_spec 1 (p - 1)); [lia|]. rewrite Z.eqb_refl. auto.
  - exists (-1), (-1).
    replace ((p - 1) * (p - 1)) with (1 + (p - 2) * p) by ring.
    rewrite Z_mod_plus_full, Z.mod_1_l by lia.
    rewrite Z.eqb_refl.
    destruct (Z.eqb_spec 1 (p - 1)); [lia | auto].
Qed.

End Legendre.

Lemma legendre_symbol_residue_witness :
  Z.prime 3
  /\ ((exists b, (b * b) mod 3 = 7 mod 3) ->
      legendre_symbol (fun _ _ _ => Ok 0) 7 3 = Ok 1)
  /\ (legendre_symbol (fun _ _ _ => Ok 0) 7 3 = Ok (-1) ->
      forall b, (b * b) mod 3 <> 7 mod 3).
Proof.
  split; [exact Z.prime_3|].
  apply (legendre_symbol_residue (fun _ _ _ => Ok 0) 7 3 Z.prime_3).
Defined.

Lemma legendre_symbol_multiplicative_witness :
  Z.prime 3 /\ 3 <> 2 /\ 2 mod 3 <> 0 /\ 5 mod 3 <> 0
  /\ exists u v,
       legendre_symbol (fun _ _ _ => Ok 0) 2 3 = Ok u
       /\ legendre_symbol (fun _ _ _ => Ok 0) 5 3 = Ok v
       /\ legendre_symbol (fun _ _ _ => Ok 0) (2 * 5) 3 = Ok (u * v).
Proof.
  assert (H2 : 3 <> 2) by lia.
  assert (Ha : 2 mod 3 <> 0) by (vm_compute; discriminate).
  assert (Hb : 5 mod 3 <> 0) by (vm_compute; discriminate).
  split; [exact Z.prime_3|]. split; [exact H2|]. split; [exact Ha|].
  split; [exact Hb|].
  exact (legendre_symbol_multiplicative (fun _ _ _ => Ok 0) 2 5 3
           Z.prime_3 H2 Ha Hb).
Defined.

Lemma legendre_symbol_sign_witness :
  Z.prime 3 /\ 3 <> 2 /\ 2 mod 3 <> 0
  /\ (legendre_symbol (fun _ _ _ => Ok 0) 2 3 = Ok 1
      \/ legendre_symbol (fun _ _ _ => Ok 0) 2 3 = Ok (-1)).
Proof.
  assert (H2 : 3 <> 2) by lia.
  assert (Ha : 2 mod 3 <> 0) by (vm_compute; discriminate).
  split; [exact Z.prime_3|]. split; [exact H2|]. split; [exact Ha|].
  exact (legendre_symbol_sign (fun _ _ _ => Ok 0) 2 3 Z.prime_3 H2 Ha).
Defined.

Section Trees.

(** Two integers whose common divisors all divide 1 are coprime. *)
Lemma gcd_one_intro (x y : Z) :
  (forall d, (d | x) -> (d | y) -> (d | 1)) -> Z.gcd x y = 1.
Proof.
  intros H. apply Z.divide_1_r_nonneg; [apply Z.gcd_nonneg|].
  apply H; [apply Z.gcd_divide_l | apply Z.gcd_divide_r].
Qed.

(** A square divides a square only when the root divides the root. *)
Lemma square_divide (g c : Z) : (g * g | c * c) -> (g | c).
Proof.
  intros H. destruct (Z.eq_dec g 0) as [-> | Hg].
  { destruct H as [k Hk]. assert (c = 0) by nia. subst. apply Z.divide_0_r. }
  pose proof (Z.gcd_nonneg g c) as Hh0.
  assert (Hh : Z.gcd g c <> 0).
  { intros E. apply Z.gcd_eq_0_l in E. contradiction. }
  destruct (Z.gcd_divide_l g c) as [g1 Hg1].
  destruct (Z.gcd_divide_r g c) as [c1 Hc1].
  pose proof (Z.gcd_div_gcd g c (Z.gcd g c) Hh eq_refl) as Hco.
  set (h := Z.gcd g c) in *.
  assert (Eg : g / h = g1) by (rewrite Hg1 at 1; apply Z.div_mul; lia).
  assert (Ec : c / h = c1) by (rewrite Hc1 at 1; apply Z.div_mul; lia).
  rewrite Eg, Ec in Hco.
  assert (H' : (g1 * g1 | c1 * c1)).
  { destruct H as [k Hk]. exists k.
    apply (Z.mul_cancel_r _ _ (h * h)); [nia|].
    rewrite Hg1, Hc1 in Hk. lia. }
  assert (Hd : (g1 | c1)).
  { apply (Z.gauss g1 c1 c1); [|exact Hco].
    eapply Z.divide_trans; [|exact H']. apply Z.divide_factor_l. }
  assert (Hone : (g1 | 1)).
  { rewrite <- Hco. apply Z.gcd_greatest; [apply Z.divide_refl | exact Hd]. }
  rewrite Hg1. apply Z.divide_1_r in Hone.
  destruct Hone as [-> | ->].
  - rewrite Z.mul_1_l. apply Z.gcd_divide_r.
  - apply Z.divide_opp_l. replace (- (-1 * h)) with h by lia.
    apply Z.gcd_divide_r.
Qed.

Lemma divide_square (d x : Z) : (d | x) -> (d * d | x * x).
Proof. intros [k ->]. exists (k * k). ring. Qed.

(** A Pythagorean triple with no common divisor is pairwise coprime. *)
Lemma pythagorean_pairwise (x y z : Z) :
  x * x + y * y = z * z ->
  (forall d, (d | x) -> (d | y) -> (d | z) -> (d | 1)) ->
  Z.gcd x y = 1 /\ Z.gcd x z = 1 /\ Z.gcd y z = 1.
Proof.
  intros Hp Hprim. repeat split; apply gcd_one_intro; intros d H1 H2.
  - apply Hprim; auto. apply square_divide. rewrite <- Hp.
    apply Z.divide_add_r; apply divide_square; assumption.
  - apply Hprim; auto. apply square_divide.
    replace (y * y) with (z * z - x * x) by lia.
    apply Z.divide_sub_r; apply divide_square; assumption.
  - apply Hprim; auto. apply square_divide.
    replace (x * x) with (z * z - y * y) by lia.
    apply Z.divide_sub_r; apply divide_square; assumption.
Qed.

Lemma triple_eq (a b c x y z : Z) :
  (a, b, c) = (x, y, z) -> a = x /\ b = y /\ c = z.
Proof. intros H. inversion H. auto. Qed.

(** The check [pythag_triple_tree] runs when [trust] is false. *)
Lemma pythag_check_ok (a b c : Z) (forward : bool) :
  a * a + b * b = c * c ->
  Z.gcd a b = 1 -> Z.gcd a c = 1 -> Z.gcd b c = 1 ->
  exists v, pythag_triple_tree (a, b, c) forward false = Ok v.
Proof.
  intros Hp H1 H2 H3. unfold pythag_triple_tree. cbn [negb].
  rewrite !Z.pow_2_r, H1, H2, H3.
  destruct (Z.eqb_spec (a * a + b * b) (c * c)) as [_|?]; [|contradiction].
  change (1 * 1 * 1 =? 1) with true. cbn [negb bind].
  destruct forward; [eauto|]. destruct (triple_eqb _ _); eauto.
Qed.

(** The three children of a primitive Pythagorean triple are primitive
    Pythagorean triples. *)
Lemma pythag_children_primitive (a b c : Z) :
  a * a + b * b = c * c -> Z.gcd a b = 1 ->
  forall a' b' c',
    (a', b', c') = (a - 2 * b + 2 * c, 2 * a - b + 2 * c, 2 * a - 2 * b + 3 * c)
    \/ (a', b', c') = (a + 2 * b + 2 * c, 2 * a + b + 2 * c, 2 * a + 2 * b + 3 * c)
    \/ (a', b', c') = (- a + 2 * b + 2 * c, - 2 * a + b + 2 * c, - 2 * a + 2 * b + 3 * c) ->
    a' * a' + b' * b' = c' * c'
    /\ Z.gcd a' b' = 1 /\ Z.gcd a' c' = 1 /\ Z.gcd b' c' = 1.
Proof.
  intros Hp Hg a' b' c' Hc.
  assert (Hpy : a' * a' + b' * b' = c' * c')
    by (destruct Hc as [E | [E | E]];
        apply triple_eq in E; destruct E as (-> & -> & ->);
        match goal with
        | |- ?l = ?r => replace l with (r + (a * a + b * b - c * c)) by ring
        end; lia).
  split; [exact Hpy|]. apply pythagorean_pairwise; [exact Hpy|].
  intros d [ka Ha] [kb Hb] [kc Hc'].
  rewrite <- Hg. apply Z.gcd_greatest.
  - destruct Hc as [E | [E | E]];
      apply triple_eq in E; destruct E as (-> & -> & ->).
    + exists (ka + 2 * kb - 2 * kc). lia.
    + exists (ka + 2 * kb - 2 * kc). lia.
    + exists (- ka - 2 * kb + 2 * kc). lia.
  - destruct Hc as [E | [E | E]];
      apply triple_eq in E; destruct E as (-> & -> & ->).
    + exists (- 2 * ka - kb + 2 * kc). lia.
    + exists (2 * ka + kb - 2 * kc). lia.
    + exists (2 * ka + kb - 2 * kc). lia.
Qed.

(** X8: the tree of [pythag_triple_tree] stays inside the primitive
    Pythagorean triples: for a triple that passes the check, the forward
    call returns three children, each of which satisfies
    [a^2 + b^2 = c^2], is pairwise coprime, and is accepted again by the
    function in either direction. *)
Theorem pythag_children_valid (a b c : Z) :
  a * a + b * b = c * c ->
  Z.gcd a b = 1 -> Z.gcd a c = 1 -> Z.gcd b c = 1 ->
  exists t1 t2 t3,
    pythag_triple_tree (a, b, c) true false = Ok (Children t1 t2 t3)
    /\ forall t, t = t1 \/ t = t2 \/ t = t3 ->
         let '(a', b', c') := t in
         a' * a' + b' * b' = c' * c'
         /\ Z.gcd a' b' = 1 /\ Z.gcd a' c' = 1 /\ Z.gcd b' c' = 1
         /\ forall forward,
              exists v, pythag_triple_tree (a', b', c') forward false = Ok v.
Proof.
  intros Hp H1 H2 H3. do 3 eexists. split.
  - unfold pythag_triple_tree. cbn [negb].
    rewrite !Z.pow_2_r, H1, H2, H3.
    destruct (Z.eqb_spec (a * a + b * b) (c * c)) as [_|?]; [|contradiction].
    reflexivity.
  - intros [[a' b'] c'] Ht.
    destruct (pythag_children_primitive a b c Hp H1 a' b' c' Ht)
      as (Hp' & G1 & G2 & G3).
    repeat split; auto. intros forward. apply pythag_check_ok; assumption.
Qed.

Lemma pythag_children_valid_witness :
  3 * 3 + 4 * 4 = 5 * 5 /\ Z.gcd 3 4 = 1 /\ Z.gcd 3 5 = 1 /\ Z.gcd 4 5 = 1
  /\ exists t1 t2 t3,
       pythag_triple_tree (3, 4, 5) true false = Ok (Children t1 t2 t3)
       /\ forall t, t = t1 \/ t = t2 \/ t = t3 ->
            let '(a', b', c') := t in
            a' * a' + b' * b' = c' * c'
            /\ Z.gcd a' b' = 1 /\ Z.gcd a' c' = 1 /\ Z.gcd b' c' = 1
            /\ forall forward,
                 exists v, pythag_triple_tree (a', b', c') forward false = Ok v.
Proof.
  split; [reflexivity|]. split; [reflexivity|]. split; [reflexivity|].
  split; [reflexivity|].
  apply (pythag_children_valid 3 4 5); reflexivity.
Defined.

(** X9: going forward and then backward is the identity: for a triple of
    positive legs that passes the check, the backward call on each of its
    three children returns the triple itself. *)
Theorem pythag_parent_of_child (a b c : Z) :
  0 < a -> 0 < b ->
  a * a + b * b = c * c ->
  Z.gcd a b = 1 -> Z.gcd a c = 1 -> Z.gcd b c = 1 ->
  exists t1 t2 t3,
    pythag_triple_tree (a, b, c) true false = Ok (Children t1 t2 t3)
    /\ pythag_triple_tree t1 false false = Ok (Parent (a, b, c))
    /\ pythag_triple_tree t2 false false = Ok (Parent (a, b, c))
    /\ pythag_triple_tree t3 false false = Ok (Parent (a, b, c)).
Proof.
  intros Ha Hb Hp H1 H2 H3. do 3 eexists. split.
  - unfold pythag_triple_tree. cbn [negb].
    rewrite !Z.pow_2_r, H1, H2, H3.
    destruct (Z.eqb_spec (a * a + b * b) (c * c)) as [_|?]; [|contradiction].
    reflexivity.
  - assert (Hback : forall a' b' c',
               (a', b', c') = (a - 2 * b + 2 * c, 2 * a - b + 2 * c, 2 * a - 2 * b + 3 * c)
               \/ (a', b', c') = (a + 2 * b + 2 * c, 2 * a + b + 2 * c, 2 * a + 2 * b + 3 * c)
               \/ (a', b', c') = (- a + 2 * b + 2 * c, - 2 * a + b + 2 * c, - 2 * a + 2 * b + 3 * c) ->
               pythag_triple_tree (a', b', c') false false = Ok (Parent (a, b, c))).
    { intros a' b' c' Hc.
      destruct (pythag_children_primitive a b c Hp H1 a' b' c' Hc)
        as (Hp' & G1 & G2 & G3).
      unfold pythag_triple_tree. cbn [negb].
      rewrite !Z.pow_2_r, G1, G2, G3.
      destruct (Z.eqb_spec (a' * a' + b' * b') (c' * c')) as [_|?];
        [|contradiction].
      change (1 * 1 * 1 =? 1) with true. cbn [negb bind triple_eqb].
      destruct (Z.eqb_spec a' 3); destruct (Z.eqb_spec b' 4);
        destruct (Z.eqb_spec c' 5); cbn [andb];
        destruct Hc as [E | [E | E]];
        apply triple_eq in E; destruct E as (-> & -> & ->);
        try (exfalso; lia);
        do 2 f_equal;
        repeat match goal with
               | |- (_, _) = (_, _) => f_equal
               end; lia. }
    repeat split; apply Hback; auto.
Qed.

Lemma pythag_parent_of_child_witness :
  0 < 3 /\ 0 < 4 /\ 3 * 3 + 4 * 4 = 5 * 5
  /\ Z.gcd 3 4 = 1 /\ Z.gcd 3 5 = 1 /\ Z.gcd 4 5 = 1
  /\ exists t1 t2 t3,
       pythag_triple_tree (3, 4, 5) true false = Ok (Children t1 t2 t3)
       /\ pythag_triple_tree t1 false false = Ok (Parent (3, 4, 5))
       /\ pythag_triple_tree t2 false false = Ok (Parent (3, 4, 5))
       /\ pythag_triple_tree t3 false false = Ok (Parent (3, 4, 5)).
Proof.
  split; [lia|]. split; [lia|]. split; [reflexivity|].
  split; [reflexivity|]. split; [reflexivity|]. split; [reflexivity|].
  apply (pythag_parent_of_child 3 4 5); try lia; reflexivity.
Defined.

(** X10: [co_prime_tree] stays inside the coprime pairs: a coprime pair
    passes the check and its three children are coprime pairs again; from a
    pair with [a > b > 0] every child [(m, n)] has [m > n > 0] as well. *)
Theorem co_prime_children (a b : Z) :
  Z.gcd a b = 1 ->
  co_prime_tree (a, b) false
  = Ok [(2 * a - b, a); (2 * a + b, a); (a + 2 * b, b)]
  /\ Z.gcd (2 * a - b) a = 1
  /\ Z.gcd (2 * a + b) a = 1
  /\ Z.gcd (a + 2 * b) b = 1
  /\ (0 < b < a ->
      0 < a < 2 * a - b /\ 0 < a < 2 * a + b /\ 0 < b < a + 2 * b).
Proof.
  intros Hg. split; [|split; [|split; [|split]]].
  - unfold co_prime_tree. rewrite Hg.
    destruct (Z.eqb_spec a 0) as [-> | Ha]; [|reflexivity].
    destruct (Z.eqb_spec b 0) as [-> | Hb]; [|reflexivity].
    discriminate Hg.
  - apply gcd_one_intro. intros d [k1 E1] [k2 E2]. rewrite <- Hg.
    apply Z.gcd_greatest; [exists k2; lia | exists (2 * k2 - k1); lia].
  - apply gcd_one_intro. intros d [k1 E1] [k2 E2]. rewrite <- Hg.
    apply Z.gcd_greatest; [exists k2; lia | exists (k1 - 2 * k2); lia].
  - apply gcd_one_intro. intros d [k1 E1] [k2 E2]. rewrite <- Hg.
    apply Z.gcd_greatest; [exists (k1 - 2 * k2); lia | exists k2; lia].
  - lia.
Qed.

Lemma co_prime_children_witness :
  Z.gcd 3 2 = 1
  /\ co_prime_tree (3, 2) false
     = Ok [(2 * 3 - 2, 3); (2 * 3 + 2, 3); (3 + 2 * 2, 2)]
  /\ Z.gcd (2 * 3 - 2) 3 = 1
  /\ Z.gcd (2 * 3 + 2) 3 = 1
  /\ Z.gcd (3 + 2 * 2) 2 = 1
  /\ (0 < 2 < 3 ->
      0 < 3 < 2 * 3 - 2 /\ 0 < 3 < 2 * 3 + 2 /\ 0 < 2 < 3 + 2 * 2).
Proof.
  split; [reflexivity|]. apply (co_prime_children 3 2). reflexivity.
Defined.

End Trees.

Section SternBrocot.

Lemma coprime_chain_snoc (l : list Z) (u v : Z) :
  coprime_chain (l ++ [u]) -> 0 < v -> Z.gcd u v = 1 ->
  coprime_chain ((l ++ [u]) ++ [v]).
Proof.
  intros H Hv Hg. induction l as [|x l IH].
  - simpl in *. tauto.
  - cbn [app coprime_chain] in *. destruct H as (Hx & Hn & Hc).
    split; [exact Hx|]. split; [|apply IH, Hc].
    destruct l; exact Hn.
Qed.

Lemma gcd_add_coprime (x y : Z) :
  Z.gcd x y = 1 -> Z.gcd x (x + y) = 1 /\ Z.gcd (x + y) y = 1.
Proof.
  intros H. split; apply gcd_one_intro; intros d [k1 E1] [k2 E2];
    rewrite <- H; apply Z.gcd_greatest.
  - exists k1. lia.
  - exists (k2 - k1). lia.
  - exists (k1 - k2). lia.
  - exists k2. lia.
Qed.

(** One round yields the two front numbers, which are positive and
    coprime, and leaves a deque of the same shape. *)
Lemma stern_brocot_step_inv (sbt : list Z) :
  stern_brocot_inv sbt ->
  exists x y sbt',
    stern_brocot_step sbt = Ok ((x, y), sbt')
    /\ 0 < x /\ 0 < y /\ Z.gcd x y = 1
    /\ stern_brocot_inv sbt'.
Proof.
  intros (x0 & l & -> & Hc).
  destruct l as [|x1 l].
  - (* the deque is [x0; x0], so x0 = 1 *)
    cbn in Hc. destruct Hc as (H0 & Hg & _).
    rewrite Z.gcd_diag, Z.abs_eq in Hg by lia. subst x0.
    exists 1, 1, [2; 1; 3; 2]. repeat split; try lia.
    exists 2, [1; 3]. split; [reflexivity|]. cbn. repeat split; lia.
  - cbn [app coprime_chain] in Hc. destruct Hc as (H0 & Hg01 & Hc1).
    assert (H1 : 0 < x1) by (destruct l; cbn in Hc1; tauto).
    destruct (gcd_add_coprime x0 x1 Hg01) as (Ga & Gb).
    destruct l as [|x2 l].
    + (* the deque is [x0; x1; x0] *)
      cbn in Hc1. destruct Hc1 as (_ & Hg10 & _).
      destruct (gcd_add_coprime x1 x0 Hg10) as (Gc & Gd).
      exists x0, x1, [x0; x0 + x1; x1; x1 + x0; x0].
      repeat split; auto.
      exists x0, [x0 + x1; x1; x1 + x0]. split; [reflexivity|].
      cbn. repeat split; auto; lia.
    + (* the deque is x0 :: x1 :: x2 :: l ++ [x0] *)
      cbn [app coprime_chain] in Hc1. destruct Hc1 as (_ & Hg12 & Hc2).
      assert (H2 : 0 < x2) by (destruct l; cbn in Hc2; tauto).
      destruct (gcd_add_coprime x1 x2 Hg12) as (Gc & Gd).
      exists x0, x1, (x2 :: l ++ [x0; x0 + x1; x1; x1 + x2; x2]).
      split.
      { unfold stern_brocot_step. cbn [deque_get nth_error bind app].
        rewrite <- !app_assoc. reflexivity. }
      repeat split; auto.
      exists x2, (l ++ [x0; x0 + x1; x1; x1 + x2]).
      split; [rewrite <- app_assoc; reflexivity|].
      change (x2 :: l ++ [x0; x0 + x1; x1; x1 + x2; x2])
        with ((x2 :: l) ++ [x0; x0 + x1; x1; x1 + x2; x2]).
      replace ((x2 :: l) ++ [x0; x0 + x1; x1; x1 + x2; x2])
        with ((((((x2 :: l) ++ [x0]) ++ [x0 + x1]) ++ [x1]) ++ [x1 + x2]) ++ [x2])
        by (rewrite <- !app_assoc; reflexivity).
      apply coprime_chain_snoc; [|lia | exact Gd].
      apply coprime_chain_snoc; [|lia | exact Gc].
      apply coprime_chain_snoc; [|lia | exact Gb].
      apply coprime_chain_snoc; [|lia | exact Ga].
      exact Hc2.
Qed.

Lemma stern_brocot_run_inv (k : nat) :
  forall sbt, stern_brocot_inv sbt ->
    exists pairs final,
      stern_brocot_run k sbt = Ok (pairs, final)
      /\ List.length pairs = k
      /\ Forall (fun xy => 0 < fst xy /\ 0 < snd xy
                           /\ Z.gcd (fst xy) (snd xy) = 1) pairs.
Proof.
  induction k as [|k IH]; intros sbt Hinv.
  - exists [], sbt. repeat split. constructor.
  - destruct (stern_brocot_step_inv sbt Hinv)
      as (x & y & sbt' & Hstep & Hx & Hy & Hg & Hinv').
    destruct (IH sbt' Hinv') as (pairs & final & Hrun & Hlen & Hall).
    exists ((x, y) :: pairs), final. cbn [stern_brocot_run].
    rewrite Hstep. cbn [bind]. rewrite Hrun. cbn [bind].
    repeat split; [simpl; lia|]. constructor; auto.
Qed.

(** X11: the generator [stern_brocot_tree] never fails, and every pair it
    yields is a fraction in lowest terms: both numbers are positive and
    their gcd is 1.  It starts with 1/1, 2/1, 3/2, 3/1. *)
Theorem stern_brocot_lowest_terms (k : nat) :
  (exists pairs,
      stern_brocot_tree k = Ok pairs
      /\ List.length pairs = k
      /\ forall x y, In (x, y) pairs -> 0 < x /\ 0 < y /\ Z.gcd x y = 1)
  /\ stern_brocot_tree 4 = Ok [(1, 1); (2, 1); (3, 2); (3, 1)].
Proof.
  split; [|reflexivity].
  destruct (stern_brocot_run_inv k [1; 1]) as (pairs & final & Hrun & Hlen & Hall).
  { exists 1, []. split; [reflexivity|]. cbn. repeat split; lia. }
  exists pairs. unfold stern_brocot_tree. rewrite Hrun. cbn [bind fst].
  repeat split; auto.
  all: rewrite Forall_forall in Hall; apply (Hall (x, y)); assumption.
Qed.

End SternBrocot.

Section PadicDigits.

(** Every index below 37 reads a character of [base], and that character
    is found back at that index. *)
Lemma base_digit (r : Z) :
  0 <= r < 37 ->
  exists c, str_index base r = Ok c /\ index_in c base = Some r.
Proof.
  intros H.
  assert (Hall : forallb (fun r => match str_index base r with
                                   | Ok c => match index_in c base with
                                             | Some i => i =? r
                                             | None => false
                                             end
                                   | Raise _ => false
                                   end) (range 0 37) = true)
    by (vm_compute; reflexivity).
  rewrite forallb_forall in Hall. specialize (Hall r).
  rewrite in_range in Hall. specialize (Hall H).
  destruct (str_index base r) as [c|]; [|discriminate]. exists c.
  split; [reflexivity|].
  destruct (index_in c base) as [i|]; [|discriminate].
  apply Z.eqb_eq in Hall. congruence.
Qed.

Lemma string_of_list_snoc (l : list ascii) (c : ascii) :
  (string_of_list_ascii l ++ String c "")%string = string_of_list_ascii (l ++ [c]).
Proof. induction l as [|x l IH]; simpl; [reflexivity | rewrite IH; reflexivity]. Qed.

Lemma digits_value_snoc (p : Z) (l : list ascii) (c : ascii) :
  forall acc v i,
    digits_value p acc (string_of_list_ascii l) = Some v ->
    index_in c base = Some i ->
    digits_value p acc (string_of_list_ascii (l ++ [c])) = Some (p * v + i).
Proof.
  induction l as [|x l IH]; intros acc v i Hv Hi.
  - simpl in *. injection Hv as <-. rewrite Hi. reflexivity.
  - cbn [app string_of_list_ascii digits_value] in *.
    destruct (index_in x base); [|discriminate]. eapply IH; eauto.
Qed.

(** The loop writes the digits of [n], least significant first. *)
Lemma padic_loop_digits (p : Z) (fuel : nat) :
  2 <= p <= 37 ->
  forall n acc,
    0 <= n -> (Z.to_nat n <= fuel)%nat ->
    exists ds,
      padic_loop fuel n p (string_of_list_ascii acc)
      = Some (Ok (string_of_list_ascii (acc ++ ds)))
      /\ digits_value p 0 (string_of_list_ascii (rev ds)) = Some n
      /\ (0 < n -> ds <> []).
Proof.
  intros Hp. induction fuel as [|fuel IH]; intros n acc Hn Hf.
  - assert (n = 0) by lia. subst n. exists []. rewrite app_nil_r.
    repeat split. lia.
  - destruct (Z.eq_dec n 0) as [-> | Hz].
    { exists []. rewrite app_nil_r. repeat split. lia. }
    cbn [padic_loop].
    destruct (Z.eqb_spec n 0) as [?|_]; [contradiction|].
    destruct (Z.eqb_spec p 0) as [?|_]; [lia|].
    pose proof (Z.mod_pos_bound n p ltac:(lia)) as Hr.
    pose proof (Z.div_mod n p ltac:(lia)) as Hdm.
    destruct (base_digit (n mod p) ltac:(lia)) as (c & Hc & Hi).
    rewrite Hc, string_of_list_snoc.
    assert (Hq : 0 <= n / p < n)
      by (split; [apply Z.div_pos | apply Z.div_lt]; lia).
    destruct (IH (n / p) (acc ++ [c]) ltac:(lia) ltac:(lia))
      as (ds & Hrun & Hval & _).
    exists (c :: ds). rewrite <- app_assoc in Hrun.
    split; [exact Hrun|]. split; [|discriminate].
    cbn [rev]. rewrite (digits_value_snoc p (rev ds) c 0 (n / p) (n mod p) Hval Hi).
    f_equal. lia.
Qed.

(** X12: for [n > 0] and a base [2 <= p <= 37], [padic(n, p, 's')] returns
    a non-empty string of digits of [base] that reads back, most significant
    digit first, to [n]; [n] rounds of the loop are enough. *)
Theorem padic_round_trip (n p : Z) (fuel : nat) :
  0 < n -> 2 <= p <= 37 -> (Z.to_nat n <= fuel)%nat ->
  exists s,
    padic fuel n p "s" = Some (Ok (PStr s))
    /\ digits_value p 0 s = Some n
    /\ s <> ""%string.
Proof.
  intros Hn Hp Hf.
  destruct (padic_loop_digits p fuel Hp n [] ltac:(lia) Hf)
    as (ds & Hrun & Hval & Hne).
  cbn [string_of_list_ascii app] in Hrun.
  exists (string_of_list_ascii (rev ds)). unfold padic. rewrite Hrun.
  cbn [String.eqb Ascii.eqb Bool.eqb]. unfold str_rev.
  rewrite list_ascii_of_string_of_list_ascii.
  split; [reflexivity|]. split; [exact Hval|].
  specialize (Hne Hn). destruct ds as [|c ds]; [contradiction|].
  cbn [rev]. rewrite <- string_of_list_snoc.
  destruct (string_of_list_ascii (rev ds)); discriminate.
Qed.

Lemma padic_round_trip_witness :
  0 < 255 /\ 2 <= 16 <= 37 /\ (Z.to_nat 255 <= 255)%nat
  /\ exists s,
       padic 255 255 16 "s" = Some (Ok (PStr s))
       /\ digits_value 16 0 s = Some 255
       /\ s <> ""%string.
Proof.
  split; [lia|]. split; [lia|]. split; [vm_compute; lia|].
  apply (padic_round_trip 255 16 255); [lia | lia | vm_compute; lia].
Defined.

Lemma padic_loop_forever (p : Z) (fuel : nat) :
  1 <= p <= 37 ->
  forall n snp,
    n < 0 \/ (0 < n /\ p = 1) ->
    padic_loop fuel n p snp = None.
Proof.
  intros Hp. induction fuel as [|fuel IH]; intros n snp Hn; cbn [padic_loop].
  - destruct (Z.eqb_spec n 0); [lia | reflexivity].
  - destruct (Z.eqb_spec n 0) as [?|_]; [lia|].
    destruct (Z.eqb_spec p 0) as [?|_]; [lia|].
    pose proof (Z.mod_pos_bound n p ltac:(lia)) as Hr.
    destruct (base_digit (n mod p) ltac:(lia)) as (c & Hc & _).
    rewrite Hc. apply IH. destruct Hn as [Hneg | [Hpos ->]].
    + left. apply Z.div_lt_upper_bound; lia.
    + right. rewrite Z.div_1_r. auto.
Qed.

(** X13: [padic] never returns on a negative [n] (the quotient of the
    floor division stays negative), nor on a positive [n] in base 1: with
    a base [1 <= p <= 37] the loop outlives any number of rounds, in every
    mode. *)
Theorem padic_runs_forever (n p : Z) (ntype : string) (fuel : nat) :
  1 <= p <= 37 -> n < 0 \/ (0 < n /\ p = 1) ->
  padic fuel n p ntype = None.
Proof.
  intros Hp Hn. unfold padic. rewrite padic_loop_forever by assumption.
  reflexivity.
Qed.

Lemma padic_runs_forever_witness :
  1 <= 10 <= 37 /\ (-5 < 0 \/ (0 < -5 /\ 10 = 1))
  /\ padic 1000 (-5) 10 "s" = None.
Proof.
  split; [lia|]. split; [left; lia|].
  apply (padic_runs_forever (-5) 10 "s" 1000); [lia | left; lia].
Defined.

End PadicDigits.

Section IterAssociateMore.

Context {A : Type} (f : A -> A -> A).

Lemma iter_associate_loop_negative (fuel : nat) :
  forall (n : Z) (x r : A), n < 0 -> iter_associate_loop f fuel n x r = None.
Proof.
  induction fuel as [|fuel IH]; intros n x r Hn; cbn [iter_associate_loop];
    (destruct (Z.eqb_spec n 0) as [?|_]; [lia|]); [reflexivity|].
  apply IH. apply Z.shiftr_neg. exact Hn.
Qed.

(** X14: [iter_associate] does not return for [n <= 0]: [n - 1] is
    negative, the right shift keeps it negative, and [while n] never sees
    0, whatever [f] and [x] are. *)
Theorem iter_associate_runs_forever (x : A) (n : Z) (fuel : nat) :
  n <= 0 -> iter_associate f fuel x n = None.
Proof.
  intros Hn. unfold iter_associate. apply iter_associate_loop_negative. lia.
Qed.

Hypothesis f_assoc : forall a b c, f a (f b c) = f (f a b) c.

Lemma iter_associate_loop_log (x : A) (fuel : nat) :
  forall (n : Z) (b c : nat),
    0 <= n < 2 ^ Z.of_nat fuel ->
    iter_associate_loop f fuel n (left_power f x b) (left_power f x c)
    = Some (left_power f x (c + (b + 1) * Z.to_nat n)).
Proof.
  induction fuel as [|fuel IH]; intros n b c Hn.
  - change (2 ^ Z.of_nat 0) with 1 in Hn. assert (n = 0) by lia. subst n.
    simpl. do 2 f_equal. lia.
  - cbn [iter_associate_loop].
    destruct (Z.eqb_spec n 0) as [-> | Hz]; [simpl; do 2 f_equal; lia|].
    rewrite Z.shiftr_div_pow2 by lia. change (2 ^ 1) with 2.
    pose proof (Z.div_mod n 2 ltac:(lia)) as Hdm.
    pose proof (Z.mod_pos_bound n 2 ltac:(lia)) as Hmb.
    rewrite Nat2Z.inj_succ, Z.pow_succ_r in Hn by lia.
    rewrite !(lpow_add f f_assoc).
    destruct (Z.eqb_spec (n mod 2) 0) as [He | Ho].
    + rewrite IH by lia. do 2 f_equal.
      replace (Z.to_nat n) with (2 * Z.to_nat (n / 2))%nat by lia. lia.
    + rewrite IH by lia. do 2 f_equal.
      replace (Z.to_nat n) with (2 * Z.to_nat (n / 2) + 1)%nat by lia. lia.
Qed.

(** X15: [iter_associate] needs only logarithmically many rounds: for an
    associative [f] and [n >= 1], [ceil(log2 n)] rounds of the loop already
    give the naive left fold of [n] copies of [x]. *)
Theorem iter_associate_logarithmic (x : A) (n : Z) (fuel : nat) :
  1 <= n -> Z.log2_up n <= Z.of_nat fuel ->
  iter_associate f fuel x n = Some (naive_iterate f x n).
Proof.
  intros Hn Hf. unfold iter_associate, naive_iterate.
  change x with (left_power f x 0) at 1 2.
  rewrite iter_associate_loop_log.
  - do 2 f_equal. lia.
  - split; [lia|].
    destruct (Z.eq_dec n 1) as [-> | H1].
    + pose proof (Z.pow_pos_nonneg 2 (Z.of_nat fuel) ltac:(lia) ltac:(lia)). lia.
    + pose proof (Z.log2_up_spec n ltac:(lia)) as [_ Hup].
      pose proof (Z.pow_le_mono_r 2 (Z.log2_up n) (Z.of_nat fuel)
                    ltac:(lia) Hf).
      lia.
Qed.

End IterAssociateMore.

Lemma iter_associate_runs_forever_witness :
  0 <= 0 /\ iter_associate Z.add 1000 7 0 = None.
Proof.
  split; [lia|]. apply (iter_associate_runs_forever Z.add 7 0 1000). lia.
Defined.

Lemma iter_associate_logarithmic_witness :
  1 <= 1000 /\ Z.log2_up 1000 <= Z.of_nat 10
  /\ iter_associate String.append 10 "ab"%string 1000
     = Some (naive_iterate String.append "ab"%string 1000).
Proof.
  assert (H : Z.log2_up 1000 <= Z.of_nat 10) by (vm_compute; discriminate).
  split; [lia|]. split; [exact H|].
  apply (iter_associate_logarithmic String.append).
  - intros a b c. induction a as [|ch a IH]; simpl; [reflexivity|].
    rewrite IH. reflexivity.
  - lia.
  - exact H.
Defined.

Section InvModMore.

(** What [inv_mod] returns for a positive modulus. *)
Lemma inv_mod_value (n m : Z) :
  0 < m ->
  exists v, inv_mod n m = Ok v
    /\ 0 <= v < m
    /\ (Z.gcd n m = 1 -> (n * v) mod m = 1 mod m)
    /\ (Z.gcd n m <> 1 -> v = 0).
Proof.
  intros Hm. unfold inv_mod, pymod.
  destruct (Z.eqb_spec m 0) as [?|_]; [lia|]. cbn [bind].
  assert (Hr : 0 <= n mod m < m) by (apply Z.mod_pos_bound; lia).
  assert (Hg : Z.gcd (n mod m) m = Z.gcd n m).
  { rewrite Z.gcd_mod by lia. apply Z.gcd_comm. }
  destruct (Z.eqb_spec (n mod m) 0) as [Hz|Hz]; cbn [orb].
  - exists 0. repeat split; try lia.
    intros H1. rewrite Hz, Z.gcd_0_l in Hg.
    assert (m = 1) by lia. subst m. rewrite !Z.mod_1_r. reflexivity.
  - destruct (Z.leb_spec m 0) as [?|_]; [lia|].
    destruct (inv_mod_loop_spec (n mod m) m m (n mod m) 0 1) as [Hf Hs];
      try lia.
    { rewrite Z.mul_0_l, Z.mod_0_l, Z.mod_same by lia. reflexivity. }
    { rewrite Z.mul_1_l. reflexivity. }
    destruct (inv_mod_loop m (n mod m) 0 1) as [g x0]. cbn [fst snd] in Hf, Hs.
    rewrite (Z.gcd_comm m), Hg in Hf, Hs. subst g.
    destruct (Z.eqb_spec (Z.gcd n m) 1) as [H1|H1].
    + destruct (Z.eqb_spec m 0) as [?|_]; [lia|].
      exists (x0 mod m). split; [reflexivity|].
      split; [apply Z.mod_pos_bound; lia|]. split; [|congruence].
      intros _. rewrite H1 in Hs. rewrite <- Hs.
      rewrite Z.mul_mod_idemp_r by lia.
      rewrite (Z.mul_comm x0), <- Z.mul_mod_idemp_l by lia.
      rewrite Z.mul_comm. reflexivity.
    + exists 0. repeat split; try lia; congruence.
Qed.

(** X16: for a modulus [m > 1], the answer 0 of [inv_mod] means exactly
    "no inverse": [inv_mod(n, m) = 0] if and only if [gcd(n, m) <> 1]. *)
Theorem inv_mod_zero_iff (n m : Z) :
  1 < m -> (inv_mod n m = Ok 0 <-> Z.gcd n m <> 1).
Proof.
  intros Hm. destruct (inv_mod_value n m ltac:(lia)) as (v & Hv & Hb & H1 & H0).
  rewrite Hv. split.
  - intros E Hg. injection E as ->. specialize (H1 Hg).
    rewrite Z.mul_0_r, Z.mod_0_l, Z.mod_1_l in H1 by lia. discriminate.
  - intros Hg. rewrite (H0 Hg). reflexivity.
Qed.

Lemma inv_mod_zero_iff_witness :
  1 < 12 /\ (inv_mod 8 12 = Ok 0 <-> Z.gcd 8 12 <> 1).
Proof.
  split; [lia|]. apply (inv_mod_zero_iff 8 12). lia.
Defined.

(** X17: inverting twice gives back the residue: for [m > 1] and
    [gcd(n, m) = 1], [inv_mod(inv_mod(n, m), m) = n % m]. *)
Theorem inv_mod_involutive (n m : Z) :
  1 < m -> Z.gcd n m = 1 ->
  exists v, inv_mod n m = Ok v /\ inv_mod v m = Ok (n mod m).
Proof.
  intros Hm Hg.
  destruct (inv_mod_value n m ltac:(lia)) as (v & Hv & Hb & H1 & _).
  specialize (H1 Hg). rewrite Z.mod_1_l in H1 by lia.
  exists v. split; [exact Hv|].
  assert (Hgv : Z.gcd v m = 1).
  { apply gcd_one_intro. intros d [k1 E1] [k2 E2].
    pose proof (Z.div_mod (n * v) m ltac:(lia)) as Hdm. rewrite H1 in Hdm.
    exists (n * k1 - k2 * (n * v / m)). nia. }
  destruct (inv_mod_value v m ltac:(lia)) as (w & Hw & Hwb & Hw1 & _).
  specialize (Hw1 Hgv). rewrite Z.mod_1_l in Hw1 by lia.
  rewrite Hw. f_equal.
  assert (E1 : (n * (v * w)) mod m = n mod m).
  { rewrite <- Z.mul_mod_idemp_r, Hw1, Z.mul_1_r by lia. reflexivity. }
  assert (E2 : (n * (v * w)) mod m = w).
  { rewrite Z.mul_assoc, <- Z.mul_mod_idemp_l, H1, Z.mul_1_l by lia.
    apply Z.mod_small. lia. }
  congruence.
Qed.

Lemma inv_mod_involutive_witness :
  1 < 7 /\ Z.gcd 10 7 = 1
  /\ exists v, inv_mod 10 7 = Ok v /\ inv_mod v 7 = Ok (10 mod 7).
Proof.
  split; [lia|]. split; [reflexivity|].
  apply (inv_mod_involutive 10 7); [lia | reflexivity].
Defined.

End InvModMore.

Section ConvergentsMore.

Lemma cvg_pairs_det (rest : list Z) :
  forall p0 p1 q0 q1 k x y,
    nth_error ((p0, q0) :: (p1, q1) :: cvg_pairs rest p0 p1 q0 q1) k = Some x ->
    nth_error ((p0, q0) :: (p1, q1) :: cvg_pairs rest p0 p1 q0 q1) (S k) = Some y ->
    fst y * snd x - fst x * snd y
    = (-1) ^ Z.of_nat k * (p1 * q0 - p0 * q1).
Proof.
  induction rest as [|a rest IH]; intros p0 p1 q0 q1 k x y Hx Hy.
  - destruct k as [|[|k]]; cbn [cvg_pairs nth_error] in *; try discriminate.
    injection Hx as <-. injection Hy as <-. cbn [fst snd].
    change ((-1) ^ Z.of_nat 0) with 1. ring.
  - destruct k as [|k].
    + cbn [nth_error] in *. injection Hx as <-. injection Hy as <-.
      cbn [fst snd]. change ((-1) ^ Z.of_nat 0) with 1. ring.
    + cbn [cvg_pairs nth_error] in Hx, Hy.
      rewrite (IH p1 (a * p1 + p0) q1 (a * q1 + q0) k x y Hx Hy).
      rewrite Nat2Z.inj_succ, Z.pow_succ_r by lia. ring.
Qed.

Lemma convergents_as_pairs (a0 a1 : Z) (rest : list Z) :
  1 <= a1 -> Forall (fun a => 1 <= a) rest ->
  continous_frac_convergent (a0 :: a1 :: rest)
  = Ok (map frac_of_pair
            ((a0, 1) :: (a0 * a1 + 1, a1)
             :: cvg_pairs rest a0 (a0 * a1 + 1) 1 a1)).
Proof.
  intros Ha1 Hrest.
  destruct (cvg_loop_spec rest
              (mkCvg a0 (a0 * a1 + 1) 1 a1
                     [mkFraction a0 1; mkFraction (a0 * a1 + 1) a1]))
    as (st' & Hrun & Hcvg); cbn [cs_p0 cs_p1 cs_q0 cs_q1 cs_cvg]; auto; try lia.
  cbn [cs_p0 cs_p1 cs_q0 cs_q1 cs_cvg] in Hcvg.
  unfold continous_frac_convergent.
  rewrite (Fraction_new_lowest a0 1); [| apply Z.gcd_1_r | lia].
  rewrite (Fraction_new_lowest (a0 * a1 + 1) a1);
    [| apply (det_coprime _ a0 _ 1); lia | lia].
  cbn [bind]. rewrite Hrun. cbn [bind]. rewrite Hcvg. reflexivity.
Qed.

(** X18: two consecutive convergents have determinant 1 or -1, with
    alternating sign: for a continued fraction of at least two terms,
    positive after the first, the [k]-th and [(k+1)]-th fractions returned
    satisfy [p[k+1] * q[k] - p[k] * q[k+1] = (-1)^k]. *)
Theorem convergents_determinant (cfrac : list Z) :
  (2 <= List.length cfrac)%nat ->
  Forall (fun a => 1 <= a) (tl cfrac) ->
  exists cvg,
    continous_frac_convergent cfrac = Ok cvg
    /\ forall k f0 f1,
         nth_error cvg k = Some f0 ->
         nth_error cvg (S k) = Some f1 ->
         numerator f1 * denominator f0 - numerator f0 * denominator f1
         = (-1) ^ Z.of_nat k.
Proof.
  intros Hlen Hpos.
  destruct cfrac as [|a0 [|a1 rest]]; simpl in Hlen; try lia.
  cbn [tl] in Hpos. inversion Hpos as [|? ? Ha1 Hrest]; subst.
  eexists. split; [apply convergents_as_pairs; assumption|].
  intros k f0 f1 H0 H1. rewrite nth_error_map in H0, H1.
  destruct (nth_error _ k) as [x|] eqn:Hx in H0; [|discriminate].
  destruct (nth_error _ (S k)) as [y|] eqn:Hy in H1; [|discriminate].
  injection H0 as <-. injection H1 as <-.
  cbn [frac_of_pair numerator denominator].
  rewrite (cvg_pairs_det rest _ _ _ _ k x y Hx Hy). ring.
Qed.

Lemma convergents_determinant_witness :
  (2 <= List.length [4; 2; 6; 7])%nat
  /\ Forall (fun a => 1 <= a) (tl [4; 2; 6; 7])
  /\ exists cvg,
       continous_frac_convergent [4; 2; 6; 7] = Ok cvg
       /\ forall k f0 f1,
            nth_error cvg k = Some f0 ->
            nth_error cvg (S k) = Some f1 ->
            numerator f1 * denominator f0 - numerator f0 * denominator f1
            = (-1) ^ Z.of_nat k.
Proof.
  assert (H2 : (2 <= List.length [4; 2; 6; 7])%nat) by (simpl; lia).
  assert (H3 : Forall (fun a => 1 <= a) (tl [4; 2; 6; 7]))
    by (simpl; repeat constructor; lia).
  split; [exact H2|]. split; [exact H3|].
  exact (convergents_determinant [4; 2; 6; 7] H2 H3).
Defined.

(** The Euclidean loop on any fraction with a positive denominator: it
    stops on the gcd, and the terms read back to the reduced fraction once
    the last one is divided by the gcd. *)
Lemma rational_loop_general (p q : Z) (acc : list Z) :
  0 < q ->
  exists pf l,
    rational_loop p q acc = Ok (pf, Z.gcd p q, acc ++ l)
    /\ (Z.gcd p q | pf)
    /\ cf_value (l ++ [pf / Z.gcd p q]) = (p / Z.gcd p q, q / Z.gcd p q).
Proof.
  funelim (rational_loop p q acc); intros Hq.
  - lia.
  - assert (Hdiv : (q | p)).
    { match goal with E : p mod q = 0 |- _ =>
        exists (p / q); rewrite (Z.div_mod p q) at 1 by lia; rewrite E; ring
      end. }
    assert (Hg : Z.gcd p q = q).
    { rewrite Z.gcd_comm. apply Z.divide_gcd_iff; [lia | exact Hdiv]. }
    exists p, []. rewrite app_nil_r, Hg. split; [reflexivity|].
    split; [exact Hdiv|]. simpl. rewrite Z.div_same by lia. f_equal; ring.
  - assert (Hr : 0 <= p mod q < q) by (apply Z.mod_pos_bound; lia).
    assert (Hg' : Z.gcd q (p mod q) = Z.gcd p q).
    { rewrite Z.gcd_comm, Z.gcd_mod by lia. apply Z.gcd_comm. }
    match goal with
    | IH : 0 < p mod q -> _ |- _ =>
        destruct (IH ltac:(lia)) as (pf & l & Hrun & Hpf & Hval)
    end.
    rewrite Hg' in Hrun, Hpf, Hval.
    exists pf, (p / q :: l). rewrite <- app_assoc in Hrun.
    split; [exact Hrun|]. split; [exact Hpf|].
    cbn [app cf_value]. rewrite Hval. f_equal.
    pose proof (Z.gcd_nonneg p q) as Hg0.
    assert (Hgnz : Z.gcd p q <> 0).
    { intros E. apply Z.gcd_eq_0_r in E. lia. }
    destruct (Z.gcd_divide_r p q) as [kq Hkq].
    assert (Hrd : (Z.gcd p q | p mod q))
      by (rewrite <- Hg'; apply Z.gcd_divide_r).
    destruct Hrd as [kr Hkr].
    set (g := Z.gcd p q) in *.
    assert (Eq : q / g = kq) by (rewrite Hkq at 1; apply Z.div_mul; lia).
    assert (Er : (p mod q) / g = kr) by (rewrite Hkr; apply Z.div_mul; lia).
    rewrite Eq, Er.
    pose proof (Z.div_mod p q ltac:(lia)) as Hdm.
    assert (Ep : p = (p / q * kq + kr) * g) by nia.
    apply (Z.div_unique_exact p g); [exact Hgnz|].
    rewrite Ep at 1. ring.
Qed.

(** X19: what [rational_continous_frac] returns for any [q > 0]: a
    non-empty sequence whose last term is a multiple of [g = gcd(p, q)];
    dividing that last term by [g] gives the continued fraction of [p / q],
    whose value is the reduced fraction [Fraction(p, q)].  So the expansion
    is exact precisely up to the factor [g] on its last term. *)
Theorem rational_continous_frac_general (p q : Z) :
  0 < q ->
  exists l t,
    rational_continous_frac p q = Ok (l ++ [t])
    /\ (Z.gcd p q | t)
    /\ cf_value (l ++ [t / Z.gcd p q]) = (p / Z.gcd p q, q / Z.gcd p q)
    /\ Fraction_new p q = Ok (mkFraction (p / Z.gcd p q) (q / Z.gcd p q)).
Proof.
  intros Hq.
  destruct (rational_loop_general p q [] Hq) as (pf & l & Hrun & Hpf & Hval).
  exists l, pf. split; [|split; [exact Hpf|split; [exact Hval|]]].
  - unfold rational_continous_frac. rewrite Hrun. cbn [bind app].
    assert (Hgnz : Z.gcd p q <> 0).
    { intros E. apply Z.gcd_eq_0_r in E. lia. }
    destruct (Z.eqb_spec (Z.gcd p q) 0); [contradiction | reflexivity].
  - unfold Fraction_new, normalize.
    destruct (Z.eqb_spec q 0) as [?|_]; [lia|].
    destruct (Z.ltb_spec q 0) as [?|_]; [lia | reflexivity].
Qed.

Lemma rational_continous_frac_general_witness :
  0 < 4
  /\ exists l t,
       rational_continous_frac 6 4 = Ok (l ++ [t])
       /\ (Z.gcd 6 4 | t)
       /\ cf_value (l ++ [t / Z.gcd 6 4]) = (6 / Z.gcd 6 4, 4 / Z.gcd 6 4)
       /\ Fraction_new 6 4 = Ok (mkFraction (6 / Z.gcd 6 4) (4 / Z.gcd 6 4)).
Proof.
  split; [lia|]. apply (rational_continous_frac_general 6 4). lia.
Defined.

End ConvergentsMore.

Section MaxSubarrayMore.

(** X20: [max_subarray] is monotone under taking a contiguous part: the
    result on a contiguous subrange never exceeds the result on the whole
    array; in particular no element exceeds it. *)
Theorem max_subarray_monotone (pre seg post : list Z) :
  max_subarray seg <= max_subarray (pre ++ seg ++ post)
  /\ forall x, In x seg -> x <= max_subarray (pre ++ seg ++ post).
Proof.
  assert (Hub : forall l p s q, l = p ++ s ++ q -> zsum s <= max_subarray l).
  { intros l p s q E. pose proof (kadane_inv_scan l) as H.
    unfold max_subarray. destruct (fold_left kadane_step l (0, 0)) as [msf meh].
    destruct H as (_ & _ & Hu & _). simpl. eapply Hu. exact E. }
  split.
  - pose proof (kadane_inv_scan seg) as H.
    unfold max_subarray at 1.
    destruct (fold_left kadane_step seg (0, 0)) as [msf meh].
    destruct H as (_ & _ & _ & (p' & s' & q' & E & <-)). cbn [fst].
    apply (Hub _ (pre ++ p') s' (q' ++ post)).
    rewrite E, <- !app_assoc. reflexivity.
  - intros x Hx. apply in_split in Hx. destruct Hx as (l1 & l2 & ->).
    pose proof (Hub (pre ++ (l1 ++ x :: l2) ++ post) (pre ++ l1) [x] (l2 ++ post))
      as H.
    rewrite <- !app_assoc in H. specialize (H eq_refl).
    simpl in H. rewrite <- !app_assoc. simpl. lia.
Qed.

End MaxSubarrayMore.

Section DivisorSummatory.

Lemma zsum_indicator_count (P : Z -> bool) (l : list Z) :
  zsum (map (fun x => if P x then 1 else 0) l)
  = Z.of_nat (List.length (filter P l)).
Proof.
  induction l as [|x l IH]; [reflexivity|].
  cbn [map filter]. rewrite zsum_cons, IH.
  destruct (P x); cbn [List.length]; lia.
Qed.

(** Passing from [n] to [n + 1] raises the quotient by [x] exactly when
    [x] divides [n + 1]. *)
Lemma div_succ_indicator (n x : Z) :
  0 <= n -> 0 < x ->
  (n + 1) / x = n / x + (if (n + 1) mod x =? 0 then 1 else 0).
Proof.
  intros Hn Hx.
  pose proof (Z.div_mod n x ltac:(lia)) as D1.
  pose proof (Z.mod_pos_bound n x Hx) as B1.
  pose proof (Z.div_mod (n + 1) x ltac:(lia)) as D2.
  pose proof (Z.mod_pos_bound (n + 1) x Hx) as B2.
  destruct (Z.eqb_spec ((n + 1) mod x) 0) as [E | E]; nia.
Qed.

Lemma naive_sum_floor_divisors (k : nat) :
  naive_sum_floor (Z.of_nat k) 1 (Z.of_nat k)
  = zsum (map divisor_count (range 1 (Z.of_nat k + 1))).
Proof.
  induction k as [|k IH]; [reflexivity|].
  replace (Z.of_nat (S k)) with (Z.of_nat k + 1) by lia.
  set (K := Z.of_nat k) in *.
  set (ind := fun x => if (K + 1) mod x =? 0 then 1 else 0).
  assert (EL : naive_sum_floor (K + 1) 1 (K + 1)
               = naive_sum_floor K 1 K + zsum (map ind (range 1 (K + 1))) + 1).
  { unfold naive_sum_floor at 1.
    rewrite (range_snoc 1 (K + 1)), map_app, zsum_app by lia.
    cbn [map]. rewrite zsum_cons. change (zsum (@nil Z)) with 0.
    rewrite Z.div_same by lia.
    rewrite (zsum_map_ext (fun x => (K + 1) / x) (fun x => K / x + ind x)).
    - rewrite (zsum_map_add (fun x => K / x) ind). unfold naive_sum_floor. lia.
    - intros x Hx. apply in_range in Hx. apply div_succ_indicator; lia. }
  assert (ED : divisor_count (K + 1) = zsum (map ind (range 1 (K + 1))) + 1).
  { unfold divisor_count.
    rewrite (range_snoc 1 (K + 1)), filter_app, length_app by lia.
    cbn [filter]. rewrite Z_mod_same_full. cbn [Z.eqb List.length].
    unfold ind. rewrite zsum_indicator_count. lia. }
  rewrite (range_snoc 1 (K + 1)), map_app, zsum_app by lia.
  cbn [map]. rewrite zsum_cons. change (zsum (@nil Z)) with 0.
  rewrite <- IH, EL, ED. lia.
Qed.

(** X21: [sum_floor(n, 1, n)] is the divisor summatory function: for
    [n > 0] it returns the total number of divisors of the integers
    [1 .. n]. *)
Theorem sum_floor_divisor_summatory (n : Z) :
  0 < n ->
  sum_floor n 1 n = Ok (zsum (map divisor_count (range 1 (n + 1)))).
Proof.
  intros Hn. rewrite sum_floor_clamped by lia.
  rewrite <- (Z2Nat.id n) by lia. rewrite naive_sum_floor_divisors.
  reflexivity.
Qed.

Lemma sum_floor_divisor_summatory_witness :
  0 < 12 /\ sum_floor 12 1 12 = Ok (zsum (map divisor_count (range 1 (12 + 1)))).
Proof.
  split; [lia|]. apply (sum_floor_divisor_summatory 12). lia.
Defined.

End DivisorSummatory.

Section SumMod.

Lemma pymod_ok (a b : Z) : b <> 0 -> pymod a b = Ok (a mod b).
Proof.
  intros H. unfold pymod. destruct (Z.eqb_spec b 0); [contradiction|reflexivity].
Qed.

Lemma mod_loop (n : Z) (l : list Z) :
  forall acc,
    (forall j, In j l -> j <> 0) ->
    for_each (fun acc j => r <- pymod n j ;; Ok (acc + r)) l acc
    = Ok (acc + zsum (map (fun j => n mod j) l)).
Proof.
  induction l as [|j l IH]; intros acc H.
  - simpl. f_equal. lia.
  - cbn [for_each]. rewrite pymod_ok by (apply H; left; reflexivity).
    cbn [bind]. rewrite IH by (intros; apply H; right; assumption).
    f_equal. cbn [map]. rewrite zsum_cons. lia.
Qed.

(** Twice the sum of the arithmetic progression [n - i * j]. *)
Lemma arith_series (n i lo : Z) (c : nat) :
  2 * zsum (map (fun j => n - i * j) (range lo (lo + Z.of_nat c)))
  = Z.of_nat c * (2 * n - i * (2 * lo + Z.of_nat c - 1)).
Proof.
  induction c as [|c IH].
  - rewrite range_nil by lia. simpl. lia.
  - replace (lo + Z.of_nat (S c)) with (lo + Z.of_nat c + 1) by lia.
    rewrite range_snoc, map_app, zsum_app by lia.
    cbn [map]. rewrite zsum_cons. change (zsum (@nil Z)) with 0.
    rewrite Nat2Z.inj_succ. unfold Z.succ.
    rewrite Z.mul_add_distr_l, IH. ring.
Qed.

Lemma consecutive_even (c : Z) : exists k, (c - 1) * c = k * 2.
Proof.
  pose proof (Z.div_mod c 2 ltac:(lia)) as D.
  pose proof (Z.mod_pos_bound c 2 ltac:(lia)) as B.
  remember (c / 2) as q eqn:Eq. clear Eq.
  destruct (Z.eq_dec (c mod 2) 0) as [E | E].
  - exists ((c - 1) * q). assert (Hc : c = 2 * q) by lia.
    rewrite Hc. ring.
  - exists (q * c). assert (Hc : c - 1 = 2 * q) by lia.
    rewrite Hc. ring.
Qed.

(** For a non-positive [n] the quotients do not decrease with the
    divisor, so the test of the loop fails at once. *)
Lemma div_nonpos_mono (n x : Z) : n <= 0 -> 0 < x -> n / x <= n / (x + 1).
Proof.
  intros Hn Hx. apply Z.div_le_lower_bound; [lia|].
  pose proof (Z.mul_div_le n x Hx).
  assert (n / x <= 0) by (apply Z.div_le_upper_bound; lia). nia.
Qed.

(** The closed form the loop adds for the quotient [i] is the sum of
    [n % j] over the [j] with [n // j = i]. *)
Lemma sum_mod_block (n i : Z) :
  0 < n -> 1 <= i -> 4 < n / i - n / (i + 1) ->
  (if 1 <? i then n mod (n / i) else 1)
  * ((n mod (n / (i + 1) + 1) - (if 1 <? i then n mod (n / i) else 1)) / i + 1)
  + i * ((n mod (n / (i + 1) + 1) - (if 1 <? i then n mod (n / i) else 1)) / i + 1 - 1)
    * ((n mod (n / (i + 1) + 1) - (if 1 <? i then n mod (n / i) else 1)) / i + 1) / 2
  = zsum (map (fun j => n mod j) (range (n / (i + 1) + 1) (n / i + 1))).
Proof.
  intros Hn Hi Hc.
  assert (HL : 0 <= n / (i + 1)) by (apply Z.div_pos; lia).
  set (L := n / (i + 1)) in *. set (U := n / i) in *.
  assert (Hquot : forall j, L < j <= U -> n / j = i).
  { intros j Hj. apply Z.eqb_eq. rewrite div_eq_iff_interval by lia.
    fold L U. destruct (Z.ltb_spec L j); destruct (Z.leb_spec j U); auto; lia. }
  assert (Hmod : forall j, L < j <= U -> n mod j = n - i * j).
  { intros j Hj. rewrite Z.mod_eq by lia. rewrite (Hquot j Hj). ring. }
  rewrite (zsum_map_ext (fun j => n mod j) (fun j => n - i * j))
    by (intros j Hj; apply in_range in Hj; apply Hmod; lia).
  pose proof (arith_series n i (L + 1) (Z.to_nat (U - L))) as Hser.
  replace (L + 1 + Z.of_nat (Z.to_nat (U - L))) with (U + 1) in Hser by lia.
  rewrite Z2Nat.id in Hser by lia.
  set (S := zsum (map (fun j => n - i * j) (range (L + 1) (U + 1)))) in *.
  rewrite (Hmod (L + 1)) by lia.
  destruct (Z.ltb_spec 1 i) as [Hbig | Hone].
  - rewrite (Hmod U) by lia.
    replace (n - i * (L + 1) - (n - i * U)) with ((U - L - 1) * i) by ring.
    rewrite Z.div_mul by lia.
    replace (U - L - 1 + 1) with (U - L) by lia.
    destruct (consecutive_even (U - L)) as [k Hk].
    replace (i * (U - L - 1) * (U - L)) with (i * k * 2)
      by (rewrite <- Z.mul_assoc, <- Hk; ring).
    rewrite Z.div_mul by lia. nia.
  - assert (i = 1) by lia. subst i.
    assert (HU : U = n) by (unfold U; apply Z.div_1_r).
    rewrite Z.div_1_r.
    replace (n - 1 * (L + 1) - 1 + 1) with (n - L - 1) by lia.
    destruct (consecutive_even (n - L - 1)) as [k Hk].
    replace (1 * (n - L - 1 - 1) * (n - L - 1)) with (k * 2)
      by (rewrite <- Hk; ring).
    rewrite Z.div_mul by lia. nia.
Qed.

(** The [takewhile] loop: entered at [x] with the sum of [n % j] for
    [j > n // x], it stops at the first [x] that fails the test, with the
    last [i] that passed and the sum for [j > n // (i + 1)]. *)
Lemma sum_mod_loop_spec (n : Z) (fuel : nat) :
  forall x sm,
    1 <= x -> (Z.to_nat (n - x) < fuel)%nat ->
    x = 1 \/ (0 < n /\ x - 1 < n) ->
    sm = zsum (map (fun j => n mod j) (range (n / x + 1) (n + 1))) ->
    exists i sm',
      sum_mod_loop fuel n x (x - 1) sm = Some (Ok (i, sm'))
      /\ 0 <= i /\ (i = 0 \/ (0 < n /\ i < n))
      /\ sm' = zsum (map (fun j => n mod j) (range (n / (i + 1) + 1) (n + 1))).
Proof.
  induction fuel as [|fuel IH]; intros x sm Hx Hf Hprev Hsm; [lia|].
  cbn [sum_mod_loop].
  rewrite (floordiv_ok n x), (floordiv_ok n (x + 1)) by lia. cbn [bind].
  destruct (Z.ltb_spec 4 (n / x - n / (x + 1))) as [Hc | Hc].
  - assert (Hn : 0 < n).
    { destruct (Z_lt_le_dec 0 n) as [?|Hle]; [assumption|].
      pose proof (div_nonpos_mono n x Hle ltac:(lia)). lia. }
    assert (HL : 0 <= n / (x + 1)) by (apply Z.div_pos; lia).
    assert (Hxn : x < n).
    { pose proof (Z.mul_div_le n x ltac:(lia)). nia. }
    rewrite (pymod_ok n (n / (x + 1) + 1)) by lia. cbn [bind].
    assert (Eb : (if 1 <? x then pymod n (n / x) else Ok 1)
                 = Ok (if 1 <? x then n mod (n / x) else 1)).
    { destruct (Z.ltb_spec 1 x); [|reflexivity]. apply pymod_ok. lia. }
    rewrite Eb. cbn [bind].
    rewrite (floordiv_ok _ x) by lia. cbn [bind].
    rewrite (floordiv_ok _ 2) by lia. cbn [bind].
    rewrite (sum_mod_block n x Hn Hx Hc).
    destruct (IH (x + 1)
                (sm + zsum (map (fun j => n mod j)
                                (range (n / (x + 1) + 1) (n / x + 1)))))
      as (i & sm' & Hrun & Hrest); try lia.
    { rewrite Hsm.
      rewrite (range_app (n / (x + 1) + 1) (n / x + 1) (n + 1)).
      - rewrite map_app, zsum_app. lia.
      - assert (n / x <= n) by (apply Z.div_le_upper_bound; nia). lia. }
    replace (x + 1 - 1) with x in Hrun by lia.
    exists i, sm'. split; [exact Hrun | exact Hrest].
  - exists (x - 1), sm. split; [reflexivity|]. split; [lia|].
    split; [destruct Hprev as [-> | ?]; [left; lia | right; lia]|].
    replace (x - 1 + 1) with x by lia. exact Hsm.
Qed.

(** X22: the fall-back [_sum_mod] computes what its docstring says: for
    every integer [n] it returns [n % 2 + n % 3 + ... + n % (n - 1)] (0 when
    [n <= 2]) and raises nothing; [n + 1] rounds of its loop are enough. *)
Theorem sum_mod_spec (n : Z) (fuel : nat) :
  (Z.to_nat n < fuel)%nat ->
  _sum_mod fuel n = Some (Ok (naive_sum_mod n)).
Proof.
  intros Hf. unfold _sum_mod, naive_sum_mod.
  destruct (sum_mod_loop_spec n fuel 1 0 ltac:(lia) ltac:(lia)
              ltac:(left; reflexivity))
    as (i & sm & Hrun & Hi & Hin & Hsm).
  { rewrite Z.div_1_r, range_nil by lia. reflexivity. }
  change (1 - 1) with 0 in Hrun. rewrite Hrun.
  rewrite floordiv_ok by lia. cbn [bind].
  rewrite mod_loop by (intros j Hj; apply in_range in Hj; lia).
  cbn [bind]. do 2 f_equal. rewrite Hsm, Z.add_0_l.
  destruct (Z_lt_le_dec n 2) as [Hsmall | Hbig].
  - assert (i = 0) by lia. subst i. rewrite Z.div_1_r.
    rewrite !range_nil by lia. reflexivity.
  - assert (Hq : 1 <= n / (i + 1) <= n).
    { split.
      - assert (0 < n / (i + 1)) by (apply Z.div_str_pos; lia). lia.
      - apply Z.div_le_upper_bound; nia. }
    assert (E1 : zsum (map (fun j => n mod j) (range 2 (n + 1)))
                 = zsum (map (fun j => n mod j) (range 2 n))).
    { rewrite (range_snoc 2 n), map_app, zsum_app by lia.
      cbn [map]. rewrite zsum_cons. change (zsum (@nil Z)) with 0.
      rewrite Z_mod_same_full. lia. }
    assert (E2 : zsum (map (fun j => n mod j) (range 2 (n + 1)))
                 = zsum (map (fun j => n mod j) (range 2 (n / (i + 1) + 1)))
                   + zsum (map (fun j => n mod j)
                               (range (n / (i + 1) + 1) (n + 1)))).
    { rewrite (range_app 2 (n / (i + 1) + 1) (n + 1)), map_app, zsum_app by lia.
      reflexivity. }
    lia.
Qed.

Lemma sum_mod_spec_witness :
  (Z.to_nat 100 < 101)%nat
  /\ _sum_mod 101 100 = Some (Ok (naive_sum_mod 100)).
Proof.
  assert (H : (Z.to_nat 100 < 101)%nat) by (vm_compute; lia).
  split; [exact H|]. exact (sum_mod_spec 100 101 H).
Defined.

End SumMod.


(** ** More on [sum_power_series_mod] and [irrational_continous_frac] *)

Section PowerSeriesMore.

(** X23: for the degrees 1, 2 and 3, a bound [n >= 0] and a modulus
    [m > 0], [sum_power_series_mod(i, n, m)] is the sum
    [1^i + 2^i + ... + n^i] reduced modulo [m], so it lies in [[0, m)]; a
    degree below 0 or above 3 is answered with 0 and no error. *)
Theorem sum_power_series_mod_power_sum (i n m : Z) :
  0 <= n -> 0 < m ->
  (1 <= i <= 3 ->
   exists v, sum_power_series_mod i n m = Ok v
             /\ v = power_sum i n mod m /\ 0 <= v < m)
  /\ (i < 0 \/ 3 < i -> sum_power_series_mod i n m = Ok 0).
Proof.
  intros Hn Hm. destruct (sum_power_series_mod_value i n m Hn Hm) as [H1 H2].
  split; [|exact H2].
  intros Hi. exists (power_sum i n mod m). split; [exact (H1 Hi)|].
  split; [reflexivity|]. apply Z.mod_pos_bound. exact Hm.
Qed.

Lemma sum_power_series_mod_power_sum_witness :
  0 <= 10 /\ 0 < 7 /\ 1 <= 2 <= 3
  /\ exists v, sum_power_series_mod 2 10 7 = Ok v
               /\ v = power_sum 2 10 mod 7 /\ 0 <= v < 7.
Proof.
  assert (Hn : 0 <= 10) by lia. assert (Hm : 0 < 7) by lia.
  assert (Hi : 1 <= 2 <= 3) by lia.
  split; [exact Hn|]. split; [exact Hm|]. split; [exact Hi|].
  exact (proj1 (sum_power_series_mod_power_sum 2 10 7 Hn Hm) Hi).
Defined.

End PowerSeriesMore.

Section IrrationalShape.

Variable fl : PyFloat.

Lemma index_of_lt (x : Fraction * Fraction) (l : list (Fraction * Fraction))
    (i : nat) :
  index_of x l = Some i -> (i < List.length l)%nat.
Proof.
  revert i. induction l as [|y l IH]; intros i; cbn [index_of List.length].
  - discriminate.
  - destruct (Fraction_eqb (fst x) (fst y) && Fraction_eqb (snd x) (snd y)).
    + intros E. injection E as <-. lia.
    + destruct (index_of x l) as [j|]; cbn [option_map]; [|discriminate].
      intros E. injection E as <-. specialize (IH j eq_refl). lia.
Qed.

(** When the loop returns, it cuts the list of terms built so far into two
    non-empty parts; fewer terms were added than rounds were allowed. *)
Lemma irrational_loop_shape (d : Z) (sd : pyfloat fl) (k : nat) :
  forall p q a repetend pairspq prefix period,
    List.length repetend = S (List.length pairspq) ->
    irrational_loop fl k d sd p q a repetend pairspq
    = Ok (Some (prefix, period)) ->
    prefix <> [] /\ period <> []
    /\ exists ext, prefix ++ period = repetend ++ ext
                   /\ (List.length ext < k)%nat.
Proof.
  induction k as [|k IH]; intros p q a rep pairs prefix period Hlen Hrun.
  - cbn [irrational_loop] in Hrun. discriminate.
  - cbn [irrational_loop] in Hrun.
    destruct (fr_div (fr_sub (fr_mul (fr_of_Z a) q) p) (fr_of_Z 1))
      as [p'|e]; cbn [bind] in Hrun; [|discriminate].
    destruct (fr_div (fr_sub (fr_of_Z d) (fr_mul p' p')) q)
      as [q'|e]; cbn [bind] in Hrun; [|discriminate].
    destruct (quotient fl sd p' q')
      as [a'|e]; cbn [bind] in Hrun; [|discriminate].
    destruct (index_of (p', q') pairs) as [i|] eqn:Ei.
    + apply index_of_lt in Ei.
      injection Hrun as <- <-.
      split; [|split].
      * destruct rep as [|r rep]; [discriminate|].
        replace (i + 1)%nat with (S i) by lia. cbn [firstn]. discriminate.
      * intros E. apply (f_equal (@List.length Z)) in E.
        rewrite length_skipn in E. cbn [List.length] in E. lia.
      * exists []. rewrite firstn_skipn, app_nil_r. split; [reflexivity|].
        cbn [List.length]. lia.
    + destruct (IH p' q' a' (rep ++ [a']) (pairs ++ [(p', q')]) prefix period)
        as (Hp & Hq & ext & Eext & Hext); [|exact Hrun|].
      * rewrite !length_app. cbn [List.length]. lia.
      * split; [exact Hp|]. split; [exact Hq|].
        exists (a' :: ext). rewrite <- app_assoc in Eext. split; [exact Eext|].
        cbn [List.length]. lia.
Qed.

(** X24: whenever [irrational_continous_frac(d, p, q, limit)] returns, the
    test on the rounded root has passed ([int(sd) * int(sd) != d] for
    [sd = sqrt(d)]), the non-repeating part starts with the integer part
    [int((p + sd) / q)], the period is never empty, and together they hold
    at most [limit] terms.  This holds for every implementation of the
    floating-point operations. *)
Theorem irrational_continous_frac_shape (d p q limit : Z)
    (prefix period : list Z) :
  irrational_continous_frac fl d p q limit = Ok (prefix, period) ->
  (exists sd r a0,
      sqrt_int fl d = Ok sd /\ int_of_float fl sd = Ok r /\ r * r <> d
      /\ quotient_int fl sd p q = Ok a0 /\ hd_error prefix = Some a0)
  /\ period <> []
  /\ (List.length (prefix ++ period) <= Z.to_nat limit)%nat.
Proof.
  unfold irrational_continous_frac.
  destruct (sqrt_int fl d) as [sd|e]; cbn [bind]; [|discriminate].
  destruct (int_of_float fl sd) as [r|e] eqn:Er; cbn [bind]; [|discriminate].
  destruct (Z.eqb_spec (r * r) d) as [?|Hns]; [discriminate|].
  destruct (quotient_int fl sd p q) as [a0|e] eqn:Ea; cbn [bind];
    [|discriminate].
  destruct (irrational_loop fl (Z.to_nat limit) d sd (fr_of_Z p)
              (fr_of_Z q) a0 [a0] []) as [[t|]|e] eqn:Erun;
    cbn [bind]; try discriminate.
  intros E. injection E as ->.
  destruct (irrational_loop_shape d sd (Z.to_nat limit) (fr_of_Z p)
              (fr_of_Z q) a0 [a0] [] prefix period eq_refl Erun)
    as (Hp & Hper & ext & Eext & Hext).
  split; [|split].
  - exists sd, r, a0.
    split; [reflexivity|]. split; [exact Er|]. split; [exact Hns|].
    split; [exact Ea|].
    destruct prefix as [|x prefix]; [contradiction|].
    cbn [app] in Eext. injection Eext as -> _. reflexivity.
  - exact Hper.
  - rewrite Eext. cbn [app List.length]. lia.
Qed.

End IrrationalShape.

Lemma irrational_continous_frac_shape_witness :
  irrational_continous_frac binary64 7 0 1 100 = Ok ([2], [1; 1; 1; 4])
  /\ (exists sd r a0,
         sqrt_int binary64 7 = Ok sd /\ int_of_float binary64 sd = Ok r
         /\ r * r <> 7
         /\ quotient_int binary64 sd 0 1 = Ok a0
         /\ hd_error [2] = Some a0)
  /\ [1; 1; 1; 4] <> []
  /\ (List.length ([2] ++ [1; 1; 1; 4]) <= Z.to_nat 100)%nat.
Proof.
  assert (H : irrational_continous_frac binary64 7 0 1 100
              = Ok ([2], [1; 1; 1; 4])) by (vm_compute; reflexivity).
  split; [exact H|].
  exact (irrational_continous_frac_shape binary64 7 0 1 100
           [2] [1; 1; 1; 4] H).
Defined.
